(** * Project Clockwork: the entity-component runtime

    A shallow embedding of the engine core (packages/engine/src/core):
    the entity store with its secondary indices, the event bus, the
    template factory, the system scheduler and the fixed-timestep loop,
    together with the properties stated about them. *)

From Stdlib Require Import ZArith Floats List Lia Ascii Sorted.
From stdpp Require Import gmap strings list pretty.

#[local] Set Warnings "-register-all,-clear-no-such-hyp".

Local Open Scope Z_scope.
Local Open Scope string_scope.

(** ** Component data

    [Component = Record<string, any>]: structured data as JavaScript sees
    it.  Arrays are objects too: besides their elements they can carry
    named properties, which is what [result[key] = v] produces when
    [result] is an array and [key] is not an index. Numbers that occur in
    component data are opaque payload here and are kept as integers. *)

Inductive value : Type :=
| VUndefined
| VNull
| VBool (b : bool)
| VNum (n : Z)
| VStr (s : string)
| VArr (items : list value) (extra : list (string * value))
| VObj (fields : list (string * value)).

(** JavaScript truthiness, as [if (v)] and [a && b] and [a || b] test it. *)
Definition truthy (v : value) : bool :=
  match v with
  | VUndefined | VNull => false
  | VBool b => b
  | VNum n => negb (Z.eqb n 0)
  | VStr s => negb (String.eqb s "")
  | VArr _ _ | VObj _ => true
  end.

(** [o[k]] on the list of own properties of a plain object. *)
Fixpoint assoc (k : string) (fs : list (string * value)) : option value :=
  match fs with
  | [] => None
  | (k', v) :: fs' => if String.eqb k k' then Some v else assoc k fs'
  end.

(** [Object.keys(o)] *)
Definition keys (fs : list (string * value)) : list string := map fst fs.

(** [v[k]] for a property name that is not an array index. *)
Definition get_prop (k : string) (v : value) : value :=
  match v with
  | VObj fs => default VUndefined (assoc k fs)
  | VArr _ ex => default VUndefined (assoc k ex)
  | _ => VUndefined
  end.

(** ** Entities (types/index.ts) *)

Record Entity := mkEntity {
  id : string;
  type : string;
  components : list (string * value)
}.

(** [Partial<Entity>]: every field may be absent. *)
Record PartialEntity := mkPartial {
  p_id : option string;
  p_type : option string;
  p_components : option (list (string * value))
}.

(** * The entity store (core/EntityManager.ts) *)

Module Store.

(** [Map<string, Set<string>>] *)
Abbreviation Index := (gmap string (gset string)).

Record EntityManager := mkStore {
  entities : gmap string Entity;
  byType : Index;
  byRealm : Index;
  byCity : Index;
  byComponent : Index
}.

Definition empty : EntityManager := mkStore ∅ ∅ ∅ ∅ ∅.

(** [entity.components.position?.realm] (or [.city]) when it is truthy.
    [PositionComponent] declares both fields as strings, and the indices
    are keyed by strings; an absent position, an absent field and the
    empty string all fail the test [if (...)]. *)
Definition position_field (f : string) (e : Entity) : option string :=
  match assoc "position" (components e) with
  | Some p =>
      match get_prop f p with
      | VStr s => if truthy (VStr s) then Some s else None
      | _ => None
      end
  | None => None
  end.

(** [if (!idx.has(k)) idx.set(k, new Set()); idx.get(k)!.add(i)] *)
Definition index_add (k i : string) (idx : Index) : Index :=
  <[k := {[i]} ∪ idx !!! k]> idx.

(** [idx.get(k)?.delete(i)] *)
Definition index_delete (k i : string) (idx : Index) : Index :=
  match idx !! k with
  | Some s => <[k := s ∖ {[i]}]> idx
  | None => idx
  end.

Definition index_opt (f : string -> string -> Index -> Index)
    (k : option string) (i : string) (idx : Index) : Index :=
  match k with
  | Some k => f k i idx
  | None => idx
  end.

Definition updateIndices (e : Entity) (m : EntityManager) : EntityManager :=
  {| entities := entities m;
     byType := index_add (type e) (id e) (byType m);
     byRealm := index_opt index_add (position_field "realm" e) (id e) (byRealm m);
     byCity := index_opt index_add (position_field "city" e) (id e) (byCity m);
     byComponent :=
       fold_left (fun idx c => index_add c (id e) idx)
                 (keys (components e)) (byComponent m) |}.

Definition removeFromIndices (e : Entity) (m : EntityManager) : EntityManager :=
  {| entities := entities m;
     byType := index_delete (type e) (id e) (byType m);
     byRealm := index_opt index_delete (position_field "realm" e) (id e) (byRealm m);
     byCity := index_opt index_delete (position_field "city" e) (id e) (byCity m);
     byComponent :=
       fold_left (fun idx c => index_delete c (id e) idx)
                 (keys (components e)) (byComponent m) |}.

Definition set_entity (k : string) (e : Entity) (m : EntityManager) : EntityManager :=
  {| entities := <[k := e]> (entities m);
     byType := byType m; byRealm := byRealm m;
     byCity := byCity m; byComponent := byComponent m |}.

Definition delete_entity (k : string) (m : EntityManager) : EntityManager :=
  {| entities := delete k (entities m);
     byType := byType m; byRealm := byRealm m;
     byCity := byCity m; byComponent := byComponent m |}.

(** [add(entity)] *)
Definition add (e : Entity) (m : EntityManager) : EntityManager :=
  updateIndices e (set_entity (id e) e m).

(** [get(id)] *)
Definition get (i : string) (m : EntityManager) : option Entity :=
  entities m !! i.

(** [remove(id)]: the new store and the returned boolean. *)
Definition remove (i : string) (m : EntityManager) : EntityManager * bool :=
  match entities m !! i with
  | None => (m, false)
  | Some e => (delete_entity i (removeFromIndices e m), true)
  end.

(** [Object.assign(entity, updates)] *)
Definition assign (e : Entity) (u : PartialEntity) : Entity :=
  {| id := default (id e) (p_id u);
     type := default (type e) (p_type u);
     components := default (components e) (p_components u) |}.

(** [update(id, updates)]: the entity object stays under the key it was
    stored at, is mutated in place and re-indexed. *)
Definition update (i : string) (u : PartialEntity) (m : EntityManager)
    : EntityManager * bool :=
  match entities m !! i with
  | None => (m, false)
  | Some e =>
      let e' := assign e u in
      (updateIndices e' (set_entity i e' (removeFromIndices e m)), true)
  end.

(** [clear()] *)
Definition clear (m : EntityManager) : EntityManager := empty.

(** [count()] without a query *)
Definition count (m : EntityManager) : nat := size (entities m).

(** The three mutating operations as a command language, to talk about
    sequences of calls. *)
Inductive Op :=
| OAdd (e : Entity)
| OUpdate (i : string) (u : PartialEntity)
| ORemove (i : string).

Definition step (m : EntityManager) (o : Op) : EntityManager :=
  match o with
  | OAdd e => add e m
  | OUpdate i u => fst (update i u m)
  | ORemove i => fst (remove i m)
  end.

Definition run (ops : list Op) (m : EntityManager) : EntityManager :=
  fold_left step ops m.

(** *** Index/store consistency *)

(** [i] is listed under key [k] of an index. *)
Definition listed (idx : Index) (k i : string) : Prop := i ∈ idx !!! k.

(** What each index is meant to say about a stored entity. *)
Definition has_type (k : string) (e : Entity) : Prop := type e = k.
Definition has_realm (k : string) (e : Entity) : Prop := position_field "realm" e = Some k.
Definition has_city (k : string) (e : Entity) : Prop := position_field "city" e = Some k.
Definition has_component (k : string) (e : Entity) : Prop := k ∈ keys (components e).

Definition reflects (ents : gmap string Entity) (idx : Index)
    (P : string -> Entity -> Prop) : Prop :=
  ∀ k i, listed idx k i ↔ ∃ e, ents !! i = Some e ∧ P k e.

(** Every index lists an id under a key exactly when the entity stored
    under that id has that type, position field or component. *)
Record consistent (m : EntityManager) : Prop := {
  cons_type : reflects (entities m) (byType m) has_type;
  cons_realm : reflects (entities m) (byRealm m) has_realm;
  cons_city : reflects (entities m) (byCity m) has_city;
  cons_component : reflects (entities m) (byComponent m) has_component
}.

(** Every entity is stored under its own id. *)
Definition keyed (m : EntityManager) : Prop :=
  ∀ i e, entities m !! i = Some e → id e = i.

(** The calling discipline of the data model ("an id, once assigned, is
    never reused while the store is live"): [add] only with an id that is
    not stored, [update] without changing the id. *)
Definition disciplined (m : EntityManager) (o : Op) : Prop :=
  match o with
  | OAdd e => entities m !! id e = None
  | OUpdate i u => p_id u = None ∨ p_id u = Some i
  | ORemove _ => True
  end.

Fixpoint disciplined_run (ops : list Op) (m : EntityManager) : Prop :=
  match ops with
  | [] => True
  | o :: ops' => disciplined m o ∧ disciplined_run ops' (step m o)
  end.

(** Two entities that share the id ["e1"]. *)
Definition guard_npc : Entity := mkEntity "e1" "npc" [].
Definition guard_item : Entity := mkEntity "e1" "item" [].

(** *** Queries *)

(** [EntityQuery]; the [where] callback is taken to be a pure test. *)
Record EntityQuery := mkQuery {
  q_type : option string;
  q_realm : option string;
  q_city : option string;
  q_hasComponent : option (list string);
  q_where : option (Entity → bool)
}.

(** An optional string that passes [if (s)]: present and not empty. *)
Definition given (o : option string) : option string :=
  match o with
  | Some s => if String.eqb s "" then None else Some s
  | None => None
  end.

(** The property names that every plain object inherits from
    [Object.prototype]; [name in obj] finds them as well as the object's
    own keys. Component bags are plain objects (object literals, parsed
    JSON, the [{}] of [deepClone]). *)
Definition object_prototype : list string :=
  ["constructor"; "hasOwnProperty"; "isPrototypeOf"; "propertyIsEnumerable";
   "toLocaleString"; "toString"; "valueOf"; "__proto__";
   "__defineGetter__"; "__defineSetter__"; "__lookupGetter__"; "__lookupSetter__"].

(** [name in obj] *)
Definition has_in (name : string) (fs : list (string * value)) : bool :=
  bool_decide (name ∈ keys fs) || bool_decide (name ∈ object_prototype).

(** [e.components.position?.realm === s] (or [.city]) *)
Definition position_is (f s : string) (e : Entity) : bool :=
  match assoc "position" (components e) with
  | Some p =>
      match get_prop f p with
      | VStr s' => String.eqb s' s
      | _ => false
      end
  | None => false
  end.

(** The first part of [query]: the id set of the first index that
    applies; [if (!results)] falls back to all keys when the query names
    no index or the index has no set under that key. *)
Definition candidates (q : EntityQuery) (m : EntityManager) : gset string :=
  let results :=
    match given (q_city q) with
    | Some city => byCity m !! city
    | None =>
        match given (q_realm q) with
        | Some realm => byRealm m !! realm
        | None =>
            match given (q_type q) with
            | Some t => byType m !! t
            | None =>
                match q_hasComponent q with
                | Some (c :: _) => byComponent m !! c
                | _ => None
                end
            end
        end
    end in
  default (dom (entities m)) results.

(** [Array.from(ids).map(id => this.entities.get(id)!).filter(Boolean)].
    A JavaScript Set is iterated in insertion order, which the finite
    sets here do not record: the array is modelled up to the order of its
    elements, and is only ever asked for its members and its length. *)
Definition fetch (ids : gset string) (m : EntityManager) : list Entity :=
  omap (λ i, entities m !! i) (elements ids).

(** [query(query)] *)
Definition query (q : EntityQuery) (m : EntityManager) : list Entity :=
  let entities0 := fetch (candidates q m) m in
  let entities1 :=
    match given (q_type q) with
    | Some t => List.filter (λ e, String.eqb (type e) t) entities0
    | None => entities0
    end in
  let entities2 :=
    match given (q_realm q) with
    | Some realm => List.filter (position_is "realm" realm) entities1
    | None => entities1
    end in
  let entities3 :=
    match given (q_city q) with
    | Some city => List.filter (position_is "city" city) entities2
    | None => entities2
    end in
  let entities4 :=
    match q_hasComponent q with
    | Some cs =>
        List.filter (λ e, forallb (λ comp, has_in comp (components e)) cs) entities3
    | None => entities3
    end in
  match q_where q with
  | Some p => List.filter p entities4
  | None => entities4
  end.

(** [getAll()], up to order *)
Definition getAll (m : EntityManager) : list Entity :=
  snd <$> map_to_list (entities m).

(** [getByType(type)] and [getByComponent(componentName)] *)
Definition getByType (t : string) (m : EntityManager) : list Entity :=
  match byType m !! t with
  | None => []
  | Some ids => fetch ids m
  end.

Definition getByComponent (c : string) (m : EntityManager) : list Entity :=
  match byComponent m !! c with
  | None => []
  | Some ids => fetch ids m
  end.

(** [count(query?)] *)
Definition count_matching (q : option EntityQuery) (m : EntityManager) : nat :=
  match q with
  | None => size (entities m)
  | Some q => length (query q m)
  end.

(** [updateMany(ids, updates)]: the store afterwards and the number
    returned. *)
Fixpoint updateMany (ids : list string) (u : PartialEntity) (m : EntityManager)
    (updated : nat) : EntityManager * nat :=
  match ids with
  | [] => (m, updated)
  | i :: ids' =>
      let '(m', ok) := update i u m in
      updateMany ids' u m' (if ok then S updated else updated)
  end.

(** [getStats()]; [types] up to order *)
Record Stats := mkStats {
  totalEntities : nat;
  types : list (string * nat);
  realms : nat;
  cities : nat;
  indexedComponents : nat
}.

Definition getStats (m : EntityManager) : Stats :=
  {| totalEntities := size (entities m);
     types := (λ kv, (fst kv, size (snd kv))) <$> map_to_list (byType m);
     realms := size (byRealm m);
     cities := size (byCity m);
     indexedComponents := size (byComponent m) |}.

(** What a query asks of an entity, with every test it makes. *)
Definition matches (q : EntityQuery) (e : Entity) : Prop :=
  (∀ t, given (q_type q) = Some t → type e = t) ∧
  (∀ r, given (q_realm q) = Some r → position_is "realm" r e = true) ∧
  (∀ c, given (q_city q) = Some c → position_is "city" c e = true) ∧
  (∀ cs, q_hasComponent q = Some cs → Forall (λ comp, has_in comp (components e) = true) cs) ∧
  (∀ p, q_where q = Some p → p e = true).

(** An entity is listed in every index it belongs to, under its key. *)
Definition complete (m : EntityManager) : Prop :=
  ∀ i e, entities m !! i = Some e →
    listed (byType m) (type e) i ∧
    (∀ r, position_field "realm" e = Some r → listed (byRealm m) r i) ∧
    (∀ c, position_field "city" e = Some c → listed (byCity m) c i) ∧
    (∀ c, c ∈ keys (components e) → listed (byComponent m) c i).

(** An operation that leaves ids alone: [add] may reuse an id, [update]
    may not assign a different one. *)
Definition id_stable (o : Op) : Prop :=
  match o with
  | OUpdate i u => p_id u = None ∨ p_id u = Some i
  | _ => True
  end.

(** A query that names no inherited property in [hasComponent]. *)
Definition own_names (q : EntityQuery) : Prop :=
  ∀ cs, q_hasComponent q = Some cs → Forall (λ c, c ∉ object_prototype) cs.

(** An entity with a position, a query for the non-player characters of
    its city that have stats, and three calls that obey the discipline. *)
Definition traveller : Entity :=
  mkEntity "e2" "npc"
    [("position", VObj [("realm", VStr "north"); ("city", VStr "Ironhold")]);
     ("stats", VObj [("health", VNum 10)])].

Definition npcs_of_ironhold : EntityQuery :=
  mkQuery (Some "npc") None (Some "Ironhold") (Some ["stats"]) None.

Definition orderly : list Op :=
  [OAdd guard_npc; OAdd traveller; OUpdate "e1" (mkPartial None (Some "item") None)].

End Store.

(** * Exceptions

    A call either returns or throws; in both cases the mutations made so
    far stay. [try_catch] is [try { body } catch (error) { handler }]. *)

Inductive Outcome (S : Type) : Type :=
| Normal (s : S)
| Thrown (s : S).
Arguments Normal {S} s.
Arguments Thrown {S} s.

Definition andThen {S : Type} (m : Outcome S) (k : S → Outcome S) : Outcome S :=
  match m with
  | Normal s => k s
  | Thrown s => Thrown s
  end.

Definition try_catch {S : Type} (body : Outcome S) (handler : S → Outcome S)
    : Outcome S :=
  match body with
  | Normal s => Normal s
  | Thrown s => handler s
  end.

Definition state_of {S : Type} (m : Outcome S) : S :=
  match m with Normal s | Thrown s => s end.


Definition returned {S : Type} (m : Outcome S) : bool :=
  match m with Normal _ => true | Thrown _ => false end.

(** * The system scheduler (core/SystemManager.ts, systems/System.ts) *)

Module Scheduler.

Inductive SystemPhase := preUpdate | earlyUpdate | update | lateUpdate | postUpdate.

Definition phase_eqb (p q : SystemPhase) : bool :=
  match p, q with
  | preUpdate, preUpdate | earlyUpdate, earlyUpdate | update, update
  | lateUpdate, lateUpdate | postUpdate, postUpdate => true
  | _, _ => false
  end.

(** [private phases: SystemPhase[]] *)
Definition phases : list SystemPhase :=
  [preUpdate; earlyUpdate; update; lateUpdate; postUpdate].

Section Manager.

(** [Ctx] is [SystemUpdateContext]. [W] is everything a System's [update]
    can reach: the entity store, the event bus, its own fields and the
    clock that [performance.now()] reads. A System holds no reference to
    the scheduler, so the registrations are not part of [W]. *)
Context {Ctx W : Type}.
Variable perf_now : W → Z.

(** A System object: its name, the [enabled] flag and [updateFrequency]
    of the base class, and the body of its [update], which may throw. *)
Record System := mkSystem {
  getName : string;
  isEnabled : bool;
  getUpdateFrequency : Z;
  sys_update : Ctx → W → Outcome W
}.

Record SystemRegistration := mkReg {
  system : System;
  phase : SystemPhase;
  lastUpdate : Z;
  updateCount : Z;
  totalTime : Z
}.

(** The [systems] Map in insertion order, the tick counter, the world the
    Systems act on, and (instrumentation) the names of the Systems whose
    [update] was called, oldest first. *)
Record State := mkState {
  systems : list (string * SystemRegistration);
  tickCount : Z;
  world : W;
  calls : list string
}.

(** [Map.set]: an existing key keeps its place. *)
Fixpoint map_set (k : string) (r : SystemRegistration)
    (m : list (string * SystemRegistration)) : list (string * SystemRegistration) :=
  match m with
  | [] => [(k, r)]
  | (k', r') :: m' =>
      if String.eqb k k' then (k, r) :: m' else (k', r') :: map_set k r m'
  end.

(** A mutation of the registration object stored under [k]. *)
Definition map_alter (f : SystemRegistration → SystemRegistration) (k : string)
    (m : list (string * SystemRegistration)) : list (string * SystemRegistration) :=
  map (λ kr, if String.eqb k (fst kr) then (fst kr, f (snd kr)) else kr) m.

Definition with_systems (f : list (string * SystemRegistration) →
                             list (string * SystemRegistration)) (st : State) : State :=
  mkState (f (systems st)) (tickCount st) (world st) (calls st).

(** [register(system, phase)]; [initialize()] of the base class is empty. *)
Definition register (sy : System) (ph : SystemPhase) (st : State) : State :=
  with_systems (map_set (getName sy) (mkReg sy ph 0 0 0)) st.

Definition set_enabled (b : bool) (r : SystemRegistration) : SystemRegistration :=
  mkReg (mkSystem (getName (system r)) b (getUpdateFrequency (system r))
                  (sys_update (system r)))
        (phase r) (lastUpdate r) (updateCount r) (totalTime r).

(** [enable(name)] and [disable(name)] *)
Definition enable (k : string) (st : State) : State :=
  with_systems (map_alter (set_enabled true) k) st.
Definition disable (k : string) (st : State) : State :=
  with_systems (map_alter (set_enabled false) k) st.

(** [this.tickCount % frequency !== 0]: the remainder takes the sign of
    the dividend, and [% 0] is [NaN], which differs from 0. *)
Definition skipped (tick frequency : Z) : bool :=
  if Z.eqb frequency 0 then true else negb (Z.eqb (Z.rem tick frequency) 0).

(** The body of the [for] loop of [updatePhase] for one registration of
    the snapshot. *)
Definition updateOne (context : Ctx) (kr : string * SystemRegistration)
    (st : State) : Outcome State :=
  let syst := system (snd kr) in
  let frequency := getUpdateFrequency syst in
  if skipped (tickCount st) frequency then Normal st
  else
    let startTime := perf_now (world st) in
    let called := mkState (systems st) (tickCount st) (world st)
                          (calls st ++ [getName syst]) in
    let attempt :=
      match sys_update syst context (world called) with
      | Normal w =>
          Normal (mkState
            (map_alter (λ r, mkReg (system r) (phase r) (lastUpdate r)
                                   (updateCount r + 1) (totalTime r))
                       (fst kr) (systems called))
            (tickCount called) w (calls called))
      | Thrown w =>
          Thrown (mkState (systems called) (tickCount called) w (calls called))
      end in
    andThen (try_catch attempt (λ st', Normal st'))
      (λ st',
         let endTime := perf_now (world st') in
         Normal (with_systems
           (map_alter (λ r, mkReg (system r) (phase r) (tickCount st')
                                  (updateCount r) (totalTime r + (endTime - startTime)))
                      (fst kr)) st')).

Fixpoint forEach (context : Ctx) (snapshot : list (string * SystemRegistration))
    (st : State) : Outcome State :=
  match snapshot with
  | [] => Normal st
  | kr :: rest => andThen (updateOne context kr st) (forEach context rest)
  end.

(** [updatePhase(phase, context)] *)
Definition updatePhase (ph : SystemPhase) (context : Ctx) (st : State)
    : Outcome State :=
  let systemsInPhase :=
    List.filter (λ kr, phase_eqb (phase (snd kr)) ph && isEnabled (system (snd kr)))
                (systems st) in
  forEach context systemsInPhase st.

Fixpoint forPhases (ps : list SystemPhase) (context : Ctx) (st : State)
    : Outcome State :=
  match ps with
  | [] => Normal st
  | ph :: ps' => andThen (updatePhase ph context st) (forPhases ps' context)
  end.

(** [update(context)] *)
Definition updateAll (context : Ctx) (st : State) : Outcome State :=
  forPhases phases context
    (mkState (systems st) (tickCount st + 1) (world st) (calls st)).

(** A registration is due in a tick when its System is enabled and the
    tick number is a multiple of its frequency. *)
Definition due (tick : Z) (kr : string * SystemRegistration) : bool :=
  isEnabled (system (snd kr)) && negb (skipped tick (getUpdateFrequency (system (snd kr)))).

(** The Systems due in a tick, phase by phase, in registration order. *)
Definition due_names (tick : Z) (m : list (string * SystemRegistration)) : list string :=
  flat_map (λ ph,
    map (λ kr, getName (system (snd kr)))
        (List.filter (λ kr, phase_eqb (phase (snd kr)) ph && due tick kr) m))
    phases.

(** [update(context)] once per tick, for as long as no exception escapes. *)
Fixpoint updates (contexts : list Ctx) (st : State) : Outcome State :=
  match contexts with
  | [] => Normal st
  | context :: rest => andThen (updateAll context st) (updates rest)
  end.

(** How often the [update] of the System of that name was called. *)
Definition times_updated (name : string) (st : State) : nat :=
  length (List.filter (String.eqb name) (calls st)).

(** The name under which a registration's System reports itself. *)
Definition name_of (kr : string * SystemRegistration) : string :=
  getName (system (snd kr)).

(** The registrations due in a tick, phase by phase, in registration
    order. *)
Definition due_regs (tick : Z) (m : list (string * SystemRegistration))
    : list (string * SystemRegistration) :=
  flat_map (λ ph, List.filter (λ kr, phase_eqb (phase (snd kr)) ph && due tick kr) m)
           phases.

(** What the calls of a tick make of the world: the [update] of every
    registration in the list is called with the context, on the world
    that the call before it left behind, whether that call returned or
    threw. Beside the world at the end, the list of the calls made: the
    key of the registration, its System, and whether the call returned. *)
Fixpoint serve (context : Ctx) (due : list (string * SystemRegistration)) (w : W)
    : list (string * System * bool) * W :=
  match due with
  | [] => ([], w)
  | kr :: rest =>
      let o := sys_update (system (snd kr)) context w in
      let '(log, w') := serve context rest (state_of o) in
      ((fst kr, system (snd kr), returned o) :: log, w')
  end.

(** The same over several ticks, the first of them tick [tick + 1]; the
    Systems, their phases and flags are those of [m] throughout. *)
Fixpoint serve_ticks (contexts : list Ctx) (tick : Z)
    (m : list (string * SystemRegistration)) (w : W)
    : list (string * System * bool) * W :=
  match contexts with
  | [] => ([], w)
  | context :: rest =>
      let '(log, w1) := serve context (due_regs (tick + 1) m) w in
      let '(logs, w2) := serve_ticks rest (tick + 1) m w1 in
      ((log ++ logs)%list, w2)
  end.

(** The names of the Systems called, in the order of the calls. *)
Definition names_called (log : list (string * System * bool)) : list string :=
  map (λ e, getName (snd (fst e))) log.

(** The calls made to the registration stored under [key], and those of
    them that returned. *)
Definition calls_of (key : string) (log : list (string * System * bool))
    : list (string * System * bool) :=
  List.filter (λ e, String.eqb (fst (fst e)) key) log.
Definition returns_of (key : string) (log : list (string * System * bool))
    : list (string * System * bool) :=
  List.filter (λ e, String.eqb (fst (fst e)) key && snd e) log.

(** The registration [b] is the registration [a] after the calls of
    [log], made in tick [tick]: the same System in the same phase under
    the same key; [updateCount] has gone up by one for every call to it
    that returned, and [lastUpdate] is the tick if it was called at all. *)
Definition tallied (tick : Z) (log : list (string * System * bool))
    (a b : string * SystemRegistration) : Prop :=
  fst b = fst a ∧ system (snd b) = system (snd a) ∧ phase (snd b) = phase (snd a) ∧
  updateCount (snd b) = updateCount (snd a) + Z.of_nat (length (returns_of (fst a) log)) ∧
  lastUpdate (snd b) = match calls_of (fst a) log with
                       | [] => lastUpdate (snd a)
                       | _ => tick
                       end.

End Manager.

(** Two Maps hold the same Systems in the same phases under the same
    names, in the same order: only the counters may differ. *)
Definition same_systems {Ctx W}
    (m m' : list (string * @SystemRegistration Ctx W)) : Prop :=
  Forall2 (λ a b, fst a = fst b ∧ system (snd a) = system (snd b)
                  ∧ phase (snd a) = phase (snd b)) m m'.

End Scheduler.

(** * The fixed-timestep loop (core/GameLoop.ts) *)

Module Loop.

(** The arithmetic of JavaScript's [number] that the loop uses. The
    program runs on [ieee] (IEEE 754 binary64, round to nearest even);
    the loop is written over the operations only, so that what is proved
    of it for every arithmetic holds for the doubles, rounding, NaN and
    the infinities included. *)
Class Number (R : Type) := {
  num_zero : R;
  num_of_Z : Z → R;
  num_add : R → R → R;
  num_sub : R → R → R;
  num_mul : R → R → R;
  num_div : R → R → R;
  num_min : R → R → R;
  num_ge : R → R → bool
}.

Definition float_of_Z (z : Z) : float :=
  if Z.ltb z 0 then PrimFloat.opp (PrimFloat.of_uint63 (Uint63.of_Z (- z)))
  else PrimFloat.of_uint63 (Uint63.of_Z z).

(** [Math.min(a, b)]: NaN if either is NaN, and -0 below +0. *)
Definition float_min (a b : float) : float :=
  if PrimFloat.is_nan a then a
  else if PrimFloat.is_nan b then b
  else if PrimFloat.ltb a b then a
  else if PrimFloat.ltb b a then b
  else if PrimFloat.get_sign a then a else b.

#[export] Instance ieee : Number float := {|
  num_zero := PrimFloat.zero;
  num_of_Z := float_of_Z;
  num_add := PrimFloat.add;
  num_sub := PrimFloat.sub;
  num_mul := PrimFloat.mul;
  num_div := PrimFloat.div;
  num_min := float_min;
  num_ge := λ a b, PrimFloat.leb b a
|}.

Section GameLoop.

(** [S] is the state the callback works on. *)
Context {R : Type} `{Number R} {S : Type}.

Record SystemUpdateContext := mkContext {
  ctx_deltaTime : R;
  ctx_totalTime : R;
  ctx_tickCount : nat
}.

(** The fields of the class; [tickCount] only counts up from 0. The FPS
    counter ([frameCount], [fpsLastUpdate], [currentFPS]) is display
    bookkeeping that nothing below reads, and is left out. *)
Record GameLoop := mkLoop {
  isRunning : bool;
  animationFrameId : option nat;
  targetFPS : R;
  fixedDeltaTime : R;
  maxAccumulator : R;
  lastTime : R;
  accumulator : R;
  totalTime : R;
  tickCount : nat
}.

Variable callback : SystemUpdateContext → S → Outcome S.

(** [constructor(callback, targetFPS)] *)
Definition new (fps : R) : GameLoop :=
  let fixedDelta := num_div (num_of_Z 1000) fps in
  {| isRunning := false; animationFrameId := None;
     targetFPS := fps; fixedDeltaTime := fixedDelta;
     maxAccumulator := num_mul fixedDelta (num_of_Z 10);
     lastTime := num_zero; accumulator := num_zero;
     totalTime := num_zero; tickCount := 0%nat |}.

(** One pass through the body of [while (accumulator >= fixedDeltaTime)]. *)
Definition advance (g : GameLoop) : GameLoop :=
  {| isRunning := isRunning g; animationFrameId := animationFrameId g;
     targetFPS := targetFPS g; fixedDeltaTime := fixedDeltaTime g;
     maxAccumulator := maxAccumulator g; lastTime := lastTime g;
     accumulator := num_sub (accumulator g) (fixedDeltaTime g);
     totalTime := num_add (totalTime g) (fixedDeltaTime g);
     tickCount := Datatypes.S (tickCount g) |}.

(** The [while] loop. It need not terminate (a tick of duration 0 never
    drains the accumulator), so it runs on fuel: [None] is "ran out". An
    exception that escaped the body would end the frame as [Thrown]. *)
Fixpoint ticks (fuel : nat) (g : GameLoop) (s : S) : option (Outcome (GameLoop * S)) :=
  if num_ge (accumulator g) (fixedDeltaTime g) then
    match fuel with
    | O => None
    | Datatypes.S fuel' =>
        let context := {| ctx_deltaTime := fixedDeltaTime g;
                          ctx_totalTime := totalTime g;
                          ctx_tickCount := tickCount g |} in
        match try_catch (callback context s) (λ s', Normal s') with
        | Normal s' => ticks fuel' (advance g) s'
        | Thrown s' => Some (Thrown (g, s'))
        end
    end
  else Some (Normal (g, s)).

(** The first half of [loop(currentTime)]: schedule the next frame, take
    the time since the last one and add it, clamped, to the accumulator. *)
Definition accumulate (currentTime : R) (g : GameLoop) : GameLoop :=
  let deltaTime := num_sub currentTime (lastTime g) in
  {| isRunning := isRunning g;
     animationFrameId := Some (Datatypes.S (default 0%nat (animationFrameId g)));
     targetFPS := targetFPS g; fixedDeltaTime := fixedDeltaTime g;
     maxAccumulator := maxAccumulator g; lastTime := currentTime;
     accumulator := num_add (accumulator g) (num_min deltaTime (maxAccumulator g));
     totalTime := totalTime g; tickCount := tickCount g |}.

(** [loop(currentTime)] *)
Definition loop (fuel : nat) (currentTime : R) (st : GameLoop * S)
    : option (Outcome (GameLoop * S)) :=
  if isRunning (fst st) then ticks fuel (accumulate currentTime (fst st)) (snd st)
  else Some (Normal st).

(** What [start()] assigns before it calls [loop]. *)
Definition reset (now : R) (g : GameLoop) : GameLoop :=
  {| isRunning := true; animationFrameId := animationFrameId g;
     targetFPS := targetFPS g; fixedDeltaTime := fixedDeltaTime g;
     maxAccumulator := maxAccumulator g; lastTime := now;
     accumulator := num_zero; totalTime := num_zero; tickCount := 0%nat |}.

(** [start()], with [now] the value of [performance.now()]. *)
Definition start (fuel : nat) (now : R) (st : GameLoop * S)
    : option (Outcome (GameLoop * S)) :=
  if isRunning (fst st) then Some (Normal st)
  else loop fuel now (reset now (fst st), snd st).

(** [stop()] *)
Definition stop (g : GameLoop) : GameLoop :=
  if isRunning g then
    {| isRunning := false; animationFrameId := None;
       targetFPS := targetFPS g; fixedDeltaTime := fixedDeltaTime g;
       maxAccumulator := maxAccumulator g; lastTime := lastTime g;
       accumulator := accumulator g; totalTime := totalTime g;
       tickCount := tickCount g |}
  else g.

Definition getTickCount (g : GameLoop) : nat := tickCount g.
Definition getTotalTime (g : GameLoop) : R := totalTime g.

(** The frame callbacks the browser delivers, one per timestamp. *)
Fixpoint frames (fuel : nat) (times : list R) (st : GameLoop * S)
    : option (Outcome (GameLoop * S)) :=
  match times with
  | [] => Some (Normal st)
  | t :: times' =>
      match loop fuel t st with
      | Some (Normal st') => frames fuel times' st'
      | other => other
      end
  end.

(** [start()] at time [t0], then one frame per timestamp. *)
Definition session (fuel : nat) (fps t0 : R) (times : list R) (s : S)
    : option (Outcome (GameLoop * S)) :=
  match start fuel t0 (new fps, s) with
  | Some (Normal st) => frames fuel times st
  | other => other
  end.

(** Two loop objects constructed alike; their counters may differ. *)
Definition same_settings (g g0 : GameLoop) : Prop :=
  animationFrameId g = animationFrameId g0 ∧ targetFPS g = targetFPS g0 ∧
  fixedDeltaTime g = fixedDeltaTime g0 ∧ maxAccumulator g = maxAccumulator g0.


End GameLoop.

Arguments GameLoop R : clear implicits.
Arguments SystemUpdateContext R : clear implicits.

(** What [totalTime] holds after [n] ticks: the tick duration added [n]
    times, with whatever rounding the arithmetic has. *)
Definition running_sum {R : Type} `{Number R} (T : R) (n : nat) : R :=
  Nat.iter n (λ t, num_add t T) num_zero.




(** A callback that does nothing, and the loop at 60 frames per second
    on IEEE doubles fed two frames 100 ms apart. *)
Definition idle {R : Type} (c : SystemUpdateContext R) (u : unit) : Outcome unit :=
  Normal u.

(** A stopped 60 FPS loop that a previous run left with 11 ticks on the
    counter. *)
Definition worn_loop : GameLoop float :=
  let T := PrimFloat.div (float_of_Z 1000) (float_of_Z 60) in
  {| isRunning := false; animationFrameId := None;
     targetFPS := float_of_Z 60; fixedDeltaTime := T;
     maxAccumulator := PrimFloat.mul T (float_of_Z 10);
     lastTime := float_of_Z 200; accumulator := float_of_Z 16;
     totalTime := PrimFloat.mul T (float_of_Z 11); tickCount := 11%nat |}.

Definition sixty_fps_two_frames : option (Outcome (GameLoop float * unit)) :=
  session (R := float) idle 32 (float_of_Z 60) (float_of_Z 0)
          [float_of_Z 100; float_of_Z 200] tt.

End Loop.

(** * The world orchestrator: the loop drives the scheduler
    (core/GameWorld.ts) *)

Module World.

Section GameWorld.
Context {R : Type} `{Loop.Number R} {W : Type}.
Variable perf_now : W → Z.

Record GameWorld := mkWorld {
  paused : bool;
  systemManager : Scheduler.State (Ctx := Loop.SystemUpdateContext R) (W := W)
}.

(** [private update(context)], the callback handed to the GameLoop:
    it has no [try] of its own. *)
Definition update (context : Loop.SystemUpdateContext R) (gw : GameWorld)
    : Outcome GameWorld :=
  if paused gw then Normal gw
  else match Scheduler.updateAll perf_now context (systemManager gw) with
       | Normal st => Normal (mkWorld (paused gw) st)
       | Thrown st => Thrown (mkWorld (paused gw) st)
       end.

End GameWorld.

(** Three Systems over a world that is a counter: one whose [update]
    always throws, registered in the [update] phase before a healthy one,
    and a healthy one in [lateUpdate]. *)
Definition faulty : Scheduler.System (Ctx := Loop.SystemUpdateContext float) (W := Z) :=
  Scheduler.mkSystem "Faulty" true 1 (λ _ w, Thrown w).
Definition healthy (name : string)
    : Scheduler.System (Ctx := Loop.SystemUpdateContext float) (W := Z) :=
  Scheduler.mkSystem name true 1 (λ _ w, Normal (w + 1)).

Definition three_systems
    : Scheduler.State (Ctx := Loop.SystemUpdateContext float) (W := Z) :=
  Scheduler.register (healthy "Late") Scheduler.lateUpdate
    (Scheduler.register (healthy "Sibling") Scheduler.update
       (Scheduler.register faulty Scheduler.update
          (Scheduler.mkState [] 0 0 []))).

(** A System that is due every third tick, registered after the faulty
    one. *)
Definition slow : Scheduler.System (Ctx := Loop.SystemUpdateContext float) (W := Z) :=
  Scheduler.mkSystem "Slow" true 3 (λ _ w, Normal (w + 1)).

Definition paced : Scheduler.State (Ctx := Loop.SystemUpdateContext float) (W := Z) :=
  Scheduler.register slow Scheduler.update
    (Scheduler.register faulty Scheduler.update (Scheduler.mkState [] 0 0 [])).

(** Seven ticks' worth of contexts. *)
Definition seven_ticks : list (Loop.SystemUpdateContext float) :=
  repeat (Loop.mkContext (Loop.float_of_Z 0) (Loop.float_of_Z 0) 0%nat) 7.

(** A paused world over the three Systems. *)
Definition resting : GameWorld (R := float) (W := Z) := mkWorld true three_systems.

End World.

(** * The entity factory (core/EntityFactory.ts) *)

Module Factory.

Inductive Error :=
| TemplateMustHaveId
| TemplateMustHaveType (template : string)
| ParentDoesNotExist (template parent : string)
| CircularOrMissingParent (pending : list (string * string))
| TemplateNotFound (template : string)
| ParentNotFound (parent template : string)
| ValidationFailed (errors : list string)
| TypeNotRegistered (type : string)
| TypeError
| Unsupported.

(** *** Property access on component data *)

Definition digit (c : ascii) : option N :=
  let n := N_of_ascii c in
  if (48 <=? n)%N && (n <=? 57)%N then Some (n - 48)%N else None.

Fixpoint digits (s : string) (acc : N) : option N :=
  match s with
  | EmptyString => Some acc
  | String c s' =>
      match digit c with
      | Some d => digits s' (acc * 10 + d)%N
      | None => None
      end
  end.

(** A property name that is an array index: a canonical decimal numeral
    below 2^32 - 1. *)
Definition array_index (k : string) : option nat :=
  match k with
  | EmptyString => None
  | String c rest =>
      if Ascii.eqb c "0"%char then
        (if String.eqb rest "" then Some 0%nat else None)
      else match digits k 0 with
           | Some n => if (n <? 4294967295)%N then Some (N.to_nat n) else None
           | None => None
           end
  end.

(** A property name that a plain object treats like any other. Two
    kinds of name are not: [__proto__], for which [o[k] = v] sets the
    prototype of [o] instead of a property, and a string of digits, which
    an object may enumerate ahead of the names that were set before it.
    The model of objects as lists of own properties in the order they
    were set is the model of objects with ordinary names; what is proved
    about arbitrary component data asks for them. *)
Definition ordinary_name (k : string) : bool :=
  negb (String.eqb k "__proto__") &&
  match digits k 0 with
  | Some _ => String.eqb k ""
  | None => true
  end.

(** [fs[k] = v] on the own properties of an object, for an ordinary
    name [k]: an existing key keeps its place, a new key goes last. *)
Fixpoint set_assoc (k : string) (v : value) (fs : list (string * value))
    : list (string * value) :=
  match fs with
  | [] => [(k, v)]
  | (k', v') :: fs' =>
      if String.eqb k k' then (k, v) :: fs' else (k', v') :: set_assoc k v fs'
  end.

(** [o[k]]: reading a property of [null] or [undefined] throws. *)
Definition get (k : string) (o : value) : Error + value :=
  match o with
  | VUndefined | VNull => inl TypeError
  | VObj fs => inr (default VUndefined (assoc k fs))
  | VArr items extra =>
      match array_index k with
      | Some i => inr (default VUndefined (items !! i))
      | None =>
          if String.eqb k "length" then inr (VNum (Z.of_nat (length items)))
          else inr (default VUndefined (assoc k extra))
      end
  | VBool _ | VNum _ | VStr _ => inr VUndefined
  end.

(** [o[k] = v]. On an array an index sets an element (growing the array
    as needed) and any other name becomes a property of the array object;
    assigning to [length] is outside this model. The code is strict-mode
    code, where creating a property on a primitive throws. *)
Definition set (k : string) (v : value) (o : value) : Error + value :=
  match o with
  | VUndefined | VNull => inl TypeError
  | VObj fs => inr (VObj (set_assoc k v fs))
  | VArr items extra =>
      match array_index k with
      | Some i =>
          if (i <? length items)%nat then inr (VArr (<[i := v]> items) extra)
          else inr (VArr (items ++ repeat VUndefined (i - length items) ++ [v]) extra)
      | None =>
          if String.eqb k "length" then inl Unsupported
          else inr (VArr items (set_assoc k v extra))
      end
  | VBool _ | VNum _ | VStr _ => inl TypeError
  end.

(** [typeof v === 'object'] and [Array.isArray(v)] *)
Definition is_object (v : value) : bool :=
  match v with VNull | VArr _ _ | VObj _ => true | _ => false end.
Definition is_array (v : value) : bool :=
  match v with VArr _ _ => true | _ => false end.

(** *** deepClone, deepMerge, mergeComponents *)

(** The loop [for (const [key, value] of Object.entries(obj))
    cloned[key] = clone(value)] *)
Fixpoint clone_entries (clone : value → value) (fs cloned : list (string * value))
    : list (string * value) :=
  match fs with
  | [] => cloned
  | (key, v) :: fs' => clone_entries clone fs' (set_assoc key (clone v) cloned)
  end.

(** [deepClone(obj)]: [Array.prototype.map] copies the elements only;
    an object is rebuilt key by key, in the order of [Object.entries]
    (for ordinary names, the order in which they were set). *)
Fixpoint deepClone (obj : value) : value :=
  match obj with
  | VArr items _ => VArr (map deepClone items) []
  | VObj fs => VObj (clone_entries deepClone fs [])
  | _ => obj
  end.

(** The loop over [Object.entries(source)] in [deepMerge]; [merge] is
    the recursive call. *)
Fixpoint merge_entries (merge : value → value → Error + value)
    (fs : list (string * value)) (result : value) : Error + value :=
  match fs with
  | [] => inr result
  | (key, v) :: fs' =>
      let merged :=
        match v with
        | VObj _ =>
            match get key result with
            | inl e => inl e
            | inr old => merge (if truthy old then old else VObj []) v
            end
        | _ => inr (deepClone v)
        end in
      match merged with
      | inl e => inl e
      | inr nv =>
          match set key nv result with
          | inl e => inl e
          | inr result' => merge_entries merge fs' result'
          end
      end
  end.

(** [deepMerge(target, source)] *)
Fixpoint deepMerge (target source : value) {struct source} : Error + value :=
  if negb (is_object target) || negb (is_object source) then inr source
  else if is_array source then inr (deepClone source)
  else
    match source with
    | VObj fs => merge_entries deepMerge fs (deepClone target)
    | _ => inl TypeError
    end.

(** [mergeComponents(base, override)] *)
Fixpoint mergeEntries (override : list (string * value)) (result : list (string * value))
    : Error + list (string * value) :=
  match override with
  | [] => inr result
  | (key, v) :: override' =>
      let old := default VUndefined (assoc key result) in
      let merged :=
        if truthy old && is_object v && negb (is_array v) then deepMerge old v
        else inr (deepClone v) in
      match merged with
      | inl e => inl e
      | inr nv => mergeEntries override' (set_assoc key nv result)
      end
  end.

Definition clone_components (c : list (string * value)) : list (string * value) :=
  match deepClone (VObj c) with
  | VObj fs => fs
  | _ => []
  end.

Definition mergeComponents (base override : list (string * value))
    : Error + list (string * value) :=
  mergeEntries override (clone_components base).

(** *** Templates and the factory *)

Record EntityTemplate := mkTemplate {
  t_id : string;
  t_type : string;
  t_description : option string;
  t_extends : option string;
  t_components : list (string * value)
}.

(** [template.extends] when it is truthy *)
Definition extends (t : EntityTemplate) : option string :=
  match t_extends t with
  | Some parent => if String.eqb parent "" then None else Some parent
  | None => None
  end.

(** The attached [TypeRegistry], as far as the factory uses it:
    [hasType] and the formatted errors of [validate] (none when valid). *)
Record TypeRegistry := mkRegistry {
  hasType : string → bool;
  validate : Entity → list string
}.

(** [customIdGenerator] is a closure; [generated] counts the ids handed
    out so far and is what a generator's answer may depend on. *)
Record EntityFactory := mkFactory {
  templates : gmap string EntityTemplate;
  typeRegistry : option TypeRegistry;
  idCounter : nat;
  customIdGenerator : option (nat → string);
  generated : nat
}.

Definition new (registry : option TypeRegistry) : EntityFactory :=
  mkFactory ∅ registry 0 None 0.

(** How a method call ends: with a value, or with a thrown error; the
    factory is as the call left it either way. *)
Inductive Completion (A : Type) : Type :=
| Returned (a : A) (f : EntityFactory)
| Threw (e : Error) (f : EntityFactory).
Arguments Returned {A} a f.
Arguments Threw {A} e f.

Definition with_templates (m : gmap string EntityTemplate) (f : EntityFactory)
    : EntityFactory :=
  mkFactory m (typeRegistry f) (idCounter f) (customIdGenerator f) (generated f).

(** [registerTemplate(template)] *)
Definition registerTemplate (t : EntityTemplate) (f : EntityFactory) : Completion unit :=
  if String.eqb (t_id t) "" then Threw TemplateMustHaveId f
  else if String.eqb (t_type t) "" then Threw (TemplateMustHaveType (t_id t)) f
  else
    match extends t with
    | Some parent =>
        match templates f !! parent with
        | None => Threw (ParentDoesNotExist (t_id t) parent) f
        | Some _ => Returned tt (with_templates (<[t_id t := t]> (templates f)) f)
        end
    | None => Returned tt (with_templates (<[t_id t := t]> (templates f)) f)
    end.

(** First pass of [registerFromJSON]: register the templates without
    [extends], queue the others. *)
Fixpoint firstPass (ts : list EntityTemplate) (withInheritance : list EntityTemplate)
    (f : EntityFactory) : Completion (list EntityTemplate) :=
  match ts with
  | [] => Returned withInheritance f
  | t :: ts' =>
      match extends t with
      | Some _ => firstPass ts' (withInheritance ++ [t])%list f
      | None =>
          match registerTemplate t f with
          | Returned _ f' => firstPass ts' withInheritance f'
          | Threw e f' => Threw e f'
          end
      end
  end.

Definition describe (t : EntityTemplate) : string * string :=
  (t_id t, default "" (t_extends t)).

(** Second pass: the [while (withInheritance.length > 0)] loop, with its
    local [previousCount]. [None] is "out of fuel". *)
Fixpoint secondPass (fuel : nat) (withInheritance : list EntityTemplate)
    (previousCount : nat) (f : EntityFactory) : option (Completion unit) :=
  match withInheritance with
  | [] => Some (Returned tt f)
  | template :: rest =>
      match fuel with
      | O => None
      | S fuel' =>
          let attempt :=
            match templates f !! default "" (t_extends template) with
            | Some _ =>
                match registerTemplate template f with
                | Returned _ f' => Returned rest f'
                | Threw e f' => Threw e f'
                end
            | None => Returned (rest ++ [template])%list f
            end in
          match attempt with
          | Threw e f' => Some (Threw e f')
          | Returned queue f' =>
              if Nat.eqb (length queue) previousCount
              then Some (Threw (CircularOrMissingParent (map describe queue)) f')
              else secondPass fuel' queue (length queue) f'
          end
      end
  end.

(** [registerFromJSON(templates)] for an array argument. *)
Definition registerFromJSON (fuel : nat) (ts : list EntityTemplate) (f : EntityFactory)
    : option (Completion unit) :=
  match firstPass ts [] f with
  | Threw e f' => Some (Threw e f')
  | Returned withInheritance f' =>
      secondPass fuel withInheritance (length withInheritance) f'
  end.

(** [resolveTemplate(template)]: the recursion follows [extends] and
    need not end, so it runs on fuel. *)
Fixpoint resolveTemplate (fuel : nat) (f : EntityFactory) (t : EntityTemplate)
    : option (Error + EntityTemplate) :=
  match extends t with
  | None => Some (inr t)
  | Some parentId =>
      match templates f !! parentId with
      | None => Some (inl (ParentNotFound parentId (t_id t)))
      | Some parent =>
          match fuel with
          | O => None
          | S fuel' =>
              match resolveTemplate fuel' f parent with
              | None => None
              | Some (inl e) => Some (inl e)
              | Some (inr resolvedParent) =>
                  match mergeComponents (t_components resolvedParent) (t_components t) with
                  | inl e => Some (inl e)
                  | inr merged =>
                      Some (inr {|
                        t_id := t_id t;
                        t_type := if String.eqb (t_type t) "" then t_type resolvedParent
                                  else t_type t;
                        t_description :=
                          match t_description t with
                          | Some d => if String.eqb d "" then t_description resolvedParent
                                      else Some d
                          | None => t_description resolvedParent
                          end;
                        t_extends := None;
                        t_components := merged |})
                  end
              end
          end
      end
  end.

(** [this.idCounter++]. The counter is a double that holds a natural
    number. Up to 2^53 every natural number is a double and [++] adds
    one. From 2^53 to 2^54 the doubles are the even numbers: [c + 1] lies
    half way between [c] and [c + 2] and is rounded to the one with the
    even significand, which is [c] when [c] is a multiple of 4 (so at
    2^53 the counter stays where it is) and [c + 2] otherwise. From 2^54
    on [c + 1] is rounded back to [c]. Numbers that no double holds, and
    those from 10^21 on, which are printed with an exponent, are not
    counters of the program. *)
Definition max_safe_counter : Z := 9007199254740992.
Definition increment (counter : nat) : nat :=
  if (Z.of_nat counter <? max_safe_counter)%Z then S counter
  else if (Z.of_nat counter <? 2 * max_safe_counter)%Z
          && (Z.of_nat counter mod 4 =? 2)%Z
       then S (S counter)
       else counter.

(** [generateId()], with [now] the value of [Date.now()]. *)
Definition generateId (now : Z) (f : EntityFactory) : string * EntityFactory :=
  match customIdGenerator f with
  | Some generator =>
      (generator (generated f),
       mkFactory (templates f) (typeRegistry f) (idCounter f)
                 (customIdGenerator f) (S (generated f)))
  | None =>
      ("entity_" +:+ pretty now +:+ "_" +:+ pretty (idCounter f),
       mkFactory (templates f) (typeRegistry f) (increment (idCounter f))
                 (customIdGenerator f) (S (generated f)))
  end.

Definition nonempty (o : option string) : option string :=
  match o with
  | Some s => if String.eqb s "" then None else Some s
  | None => None
  end.

Definition validated (e : Entity) (f : EntityFactory) : Completion Entity :=
  match typeRegistry f with
  | Some registry =>
      match validate registry e with
      | [] => Returned e f
      | errors => Threw (ValidationFailed errors) f
      end
  | None => Returned e f
  end.

(** [createFromTemplate(templateId, overrides?)] *)
Definition createFromTemplate (fuel : nat) (now : Z) (templateId : string)
    (overrides : option PartialEntity) (f : EntityFactory)
    : option (Completion Entity) :=
  match templates f !! templateId with
  | None => Some (Threw (TemplateNotFound templateId) f)
  | Some template =>
      match resolveTemplate fuel f template with
      | None => None
      | Some (inl e) => Some (Threw e f)
      | Some (inr resolved) =>
          let '(newId, f1) :=
            match nonempty (overrides ≫= p_id) with
            | Some i => (i, f)
            | None => generateId now f
            end in
          let entity := {|
            id := newId;
            type := default (t_type resolved) (nonempty (overrides ≫= p_type));
            components := clone_components (t_components resolved) |} in
          let applied :=
            match overrides ≫= p_components with
            | Some oc =>
                match mergeComponents (components entity) oc with
                | inl e => inl e
                | inr merged => inr (mkEntity (id entity) (type entity) merged)
                end
            | None => inr entity
            end in
          match applied with
          | inl e => Some (Threw e f1)
          | inr entity' => Some (validated entity' f1)
          end
      end
  end.

(** *** The merge as the specification words it

    "Child wins field-by-field, deep-merged for nested objects, replaced
    wholesale for arrays": two objects merge key by key, and in every
    other case the child's value stands. *)
Fixpoint spec_entries (merge : value → value → value)
    (bf cf result : list (string * value)) : list (string * value) :=
  match cf with
  | [] => result
  | (key, v) :: cf' =>
      spec_entries merge bf cf'
        (set_assoc key (match assoc key bf with
                        | Some b => merge b v
                        | None => v
                        end) result)
  end.

Fixpoint spec_merge (base child : value) {struct child} : value :=
  match child with
  | VObj cf =>
      match base with
      | VObj bf => VObj (spec_entries spec_merge bf cf bf)
      | _ => child
      end
  | _ => child
  end.

Definition spec_merge_components (base child : list (string * value))
    : list (string * value) :=
  match spec_merge (VObj base) (VObj child) with
  | VObj fs => fs
  | _ => []
  end.

(** The component bags of a chain, root first, merged down to the leaf. *)
Definition spec_resolve (root : list (string * value))
    (descendants : list (list (string * value))) : list (string * value) :=
  fold_left spec_merge_components descendants root.

(** *** Where the code and the specification's merge agree *)

(** Every property name in the data, at any depth, is ordinary. *)
Fixpoint ordinary (v : value) : bool :=
  match v with
  | VArr items extra =>
      forallb ordinary items &&
      (fix each (fs : list (string * value)) : bool :=
         match fs with
         | [] => true
         | (k, x) :: fs' => ordinary_name k && ordinary x && each fs'
         end) extra
  | VObj fs =>
      (fix each (fs : list (string * value)) : bool :=
         match fs with
         | [] => true
         | (k, x) :: fs' => ordinary_name k && ordinary x && each fs'
         end) fs
  | _ => true
  end.

(** Component data as it comes out of JSON: no array carries named
    properties and no object has a key twice. *)
Inductive plain : value → Prop :=
| plain_undefined : plain VUndefined
| plain_null : plain VNull
| plain_bool b : plain (VBool b)
| plain_num n : plain (VNum n)
| plain_str s : plain (VStr s)
| plain_arr items : Forall plain items → plain (VArr items [])
| plain_obj fs : NoDup (keys fs) → Forall (λ kv, plain (snd kv)) fs → plain (VObj fs).

(** [child] lays no object over an array of [base], at any depth. *)
Fixpoint fits_entries (fits : value → value → Prop) (bf cf : list (string * value))
    : Prop :=
  match cf with
  | [] => True
  | (key, v) :: cf' =>
      fits (default VUndefined (assoc key bf)) v ∧ fits_entries fits bf cf'
  end.

Fixpoint fits (base child : value) {struct child} : Prop :=
  match child with
  | VObj cf =>
      match base with
      | VArr _ _ => False
      | VObj bf => fits_entries fits bf cf
      | _ => True
      end
  | _ => True
  end.

(** For a whole component of the child: as above, and a [null] component
    does not replace an object or array of the base. *)
Definition component_fits (base : list (string * value)) (kv : string * value) : Prop :=
  let old := default VUndefined (assoc (fst kv) base) in
  fits old (snd kv) ∧ (snd kv = VNull → is_object old = false ∨ truthy old = false).

Fixpoint chain_fits (root : list (string * value))
    (descendants : list (list (string * value))) : Prop :=
  match descendants with
  | [] => True
  | c :: cs => Forall (component_fits root) c ∧ chain_fits (spec_merge_components root c) cs
  end.

(** The component bags along the [extends] chain of a template, root
    first; [None] when a parent is missing or the fuel runs out. *)
Fixpoint lineage (fuel : nat) (f : EntityFactory) (t : EntityTemplate)
    : option (list (list (string * value))) :=
  match extends t with
  | None => Some [t_components t]
  | Some parentId =>
      match templates f !! parentId with
      | None => None
      | Some parent =>
          match fuel with
          | O => None
          | S fuel' =>
              option_map (λ bags, (bags ++ [t_components t])%list)
                         (lineage fuel' f parent)
          end
      end
  end.

(** The statement of agreement for one call of [deepMerge]. *)
Definition merges_as_specified (source : value) : Prop :=
  ∀ target, plain source → plain target → fits target source →
    target ≠ VNull → (source = VNull → is_object target = false) →
    deepMerge target source = inr (spec_merge target source).

Definition spec_resolve_bags (bags : list (list (string * value)))
    : list (string * value) :=
  match bags with
  | [] => []
  | root :: descendants => spec_resolve root descendants
  end.

Definition bags_fit (bags : list (list (string * value))) : Prop :=
  match bags with
  | [] => True
  | root :: descendants => chain_fits root descendants
  end.

(** *** Sample templates *)

(** A villager and a guard that extends it: the guard overrides one
    field of [stats], replaces the [tags] array and adds a component. *)
Definition villager : EntityTemplate :=
  mkTemplate "villager" "npc" None None
    [("stats", VObj [("health", VNum 10); ("maxHealth", VNum 10)]);
     ("tags", VArr [VStr "npc"] [])].
Definition guard : EntityTemplate :=
  mkTemplate "guard" "npc" None (Some "villager")
    [("stats", VObj [("health", VNum 25)]);
     ("tags", VArr [VStr "npc"; VStr "armed"] []);
     ("position", VObj [("realm", VStr "north")])].
Definition garrison : EntityFactory :=
  with_templates (<["guard" := guard]> (<["villager" := villager]> ∅)) (new None).

(** Three templates that extend one another, listed leaf first. *)
Definition creature : EntityTemplate := mkTemplate "creature" "npc" None None [].
Definition animal : EntityTemplate := mkTemplate "animal" "npc" None (Some "creature") [].
Definition dog : EntityTemplate := mkTemplate "dog" "npc" None (Some "animal") [].

(** A parent whose inventory lists its items in an array, and a child
    that overrides the same field with an object. *)
Definition chest : EntityTemplate :=
  mkTemplate "chest" "item" None None
    [("inventory", VObj [("items", VArr [VStr "bone"] [])])].
Definition purse : EntityTemplate :=
  mkTemplate "purse" "item" None (Some "chest")
    [("inventory", VObj [("items", VObj [("gold", VNum 3)])])].

(** A factory that holds the two. *)
Definition stocked : EntityFactory :=
  with_templates (<["purse" := purse]> (<["chest" := chest]> ∅)) (new None).

(** *** The other ways to make an entity, and the template table *)

(** [createFromType(type, components)] *)
Definition createFromType (now : Z) (type : string) (components : list (string * value))
    (f : EntityFactory) : Completion Entity :=
  let registered :=
    match typeRegistry f with
    | Some registry => hasType registry type
    | None => true
    end in
  if registered then
    let '(newId, f1) := generateId now f in
    validated (mkEntity newId type (clone_components components)) f1
  else Threw (TypeNotRegistered type) f.

(** [clone(entity, overrides?)]. The message of the validation error
    starts with "Cloned entity"; the model keeps the errors only. *)
Definition clone (now : Z) (entity : Entity) (overrides : option PartialEntity)
    (f : EntityFactory) : Completion Entity :=
  let '(newId, f1) :=
    match nonempty (overrides ≫= p_id) with
    | Some i => (i, f)
    | None => generateId now f
    end in
  let cloned := {|
    id := newId;
    type := default (type entity) (nonempty (overrides ≫= p_type));
    components := clone_components (components entity) |} in
  match overrides ≫= p_components with
  | Some oc =>
      match mergeComponents (components cloned) oc with
      | inl e => Threw e f1
      | inr merged => validated (mkEntity (id cloned) (type cloned) merged) f1
      end
  | None => validated cloned f1
  end.

(** [getTemplate], [hasTemplate], [unregisterTemplate], [clear],
    [setIdCounter] (for a natural number that is a counter of the
    program, see [increment]), [setIdGenerator] *)
Definition getTemplate (templateId : string) (f : EntityFactory) : option EntityTemplate :=
  templates f !! templateId.
Definition hasTemplate (templateId : string) (f : EntityFactory) : bool :=
  bool_decide (is_Some (templates f !! templateId)).
Definition unregisterTemplate (templateId : string) (f : EntityFactory)
    : bool * EntityFactory :=
  (hasTemplate templateId f, with_templates (delete templateId (templates f)) f).
Definition clear (f : EntityFactory) : EntityFactory := with_templates ∅ f.
Definition setIdCounter (value : nat) (f : EntityFactory) : EntityFactory :=
  mkFactory (templates f) (typeRegistry f) value (customIdGenerator f) (generated f).
Definition setIdGenerator (generator : nat → string) (f : EntityFactory) : EntityFactory :=
  mkFactory (templates f) (typeRegistry f) (idCounter f) (Some generator) (generated f).

(** The id that the built-in generator makes of a clock reading and a
    counter value. *)
Definition entity_id (now : Z) (counter : nat) : string :=
  "entity_" +:+ pretty now +:+ "_" +:+ pretty counter.

(** A string without an underscore. *)
Fixpoint plain_text (s : string) : Prop :=
  match s with
  | EmptyString => True
  | String c s' => c ≠ "_"%char ∧ plain_text s'
  end.

(** *** Setting a world up (game/src/utils/initializeGameData.ts)

    The loops of [initializeGameData]: every template is registered with
    [registerTemplate], and every entity is made with [createFromType]
    and handed to [entityManager.add]. An exception ends the run; what
    was done until then stays. *)

Fixpoint registerAll (ts : list EntityTemplate) (f : EntityFactory) : Completion unit :=
  match ts with
  | [] => Returned tt f
  | t :: ts' =>
      match registerTemplate t f with
      | Returned _ f' => registerAll ts' f'
      | Threw e f' => Threw e f'
      end
  end.

(** One entity to create: the clock reading during the call, the type
    and the components. *)
Record Request := mkRequest {
  r_now : Z;
  r_type : string;
  r_components : list (string * value)
}.

Fixpoint createAll (requests : list Request) (f : EntityFactory) (m : Store.EntityManager)
    : option Error * EntityFactory * Store.EntityManager :=
  match requests with
  | [] => (None, f, m)
  | r :: rest =>
      match createFromType (r_now r) (r_type r) (r_components r) f with
      | Returned e f' => createAll rest f' (Store.add e m)
      | Threw err f' => (Some err, f', m)
      end
  end.

(** The manager holds entities made by the built-in generator from
    counter values that the factory has used up. *)
Definition stocked_by (f : EntityFactory) (m : Store.EntityManager) : Prop :=
  ∀ i e, Store.entities m !! i = Some e →
    ∃ now c, i = entity_id now c ∧ (c < idCounter f)%nat.

(** Every registered template that extends another finds it registered. *)
Definition closed (f : EntityFactory) : Prop :=
  ∀ i t parent, templates f !! i = Some t → extends t = Some parent →
    is_Some (templates f !! parent).

(** What a run of [registerTemplate] calls with fresh ids keeps. *)
Definition grounded (n : nat) (f : EntityFactory) : Prop :=
  closed f ∧ (size (templates f) ≤ n)%nat ∧
  ∀ i t, templates f !! i = Some t → is_Some (resolveTemplate n f t).

End Factory.

(** * The event bus (core/EventBus.ts) *)

Module Bus.

Record GameEvent := mkEvent {
  ev_type : string;
  ev_data : value;
  ev_timestamp : Z;
  ev_source : option string
}.

(** A callback is a function object, compared by identity. [Handler n]
    is the [n]-th function of the client code; [Collector] is the closure
    [(event) => { events.push(event) }] that [executeCommand] creates. *)
Inductive Callback :=
| Handler (n : nat)
| Collector.

Definition callback_eqb (a b : Callback) : bool :=
  match a, b with
  | Handler n, Handler m => Nat.eqb n m
  | Collector, Collector => true
  | _, _ => false
  end.

(** A [Subscription] object. [sub_ref] is its identity, which is what
    [subs.indexOf(subscription)] compares; identities are handed out in
    increasing order, so they also tell the order of registration. *)
Record Subscription := mkSub {
  sub_ref : nat;
  callback : Callback;
  priority : Z;
  once : bool
}.

Record EventBus := mkBus {
  subscriptions : gmap string (list Subscription);
  eventHistory : list GameEvent;
  maxHistorySize : nat
}.

(** [new EventBus()] *)
Definition new : EventBus := mkBus ∅ [] 1000.

(** One call of a subscriber's callback, and how deep in nested emits
    it happened (0 for an emit made by the program itself). *)
Record Invocation := mkInvocation {
  inv_depth : nat;
  inv_sub : Subscription;
  inv_event : GameEvent
}.

(** The bus in its surroundings: the next object identity, the wall clock
    that [Date.now()] reads, the [events] array of the running
    [executeCommand], and (instrumentation) the calls made so far. *)
Record Machine := mkMachine {
  bus : EventBus;
  allocated : nat;
  clock : Z;
  events : list GameEvent;
  invocations : list Invocation
}.

Definition boot (now : Z) : Machine := mkMachine new 0 now [] [].

Definition with_bus (f : EventBus → EventBus) (m : Machine) : Machine :=
  mkMachine (f (bus m)) (allocated m) (clock m) (events m) (invocations m).

Definition with_subscriptions (f : gmap string (list Subscription) →
                                   gmap string (list Subscription))
    (b : EventBus) : EventBus :=
  mkBus (f (subscriptions b)) (eventHistory b) (maxHistorySize b).

(** The array stored for an event type; none and empty are alike. *)
Definition subscribers (eventType : string) (b : EventBus) : list Subscription :=
  default [] (subscriptions b !! eventType).

(** [subs.sort((a, b) => b.priority - a.priority)]: the sort of the
    language is stable. Insertion from the right keeps an element ahead
    of the equal-priority elements that followed it. *)
Fixpoint insert (x : Subscription) (l : list Subscription) : list Subscription :=
  match l with
  | [] => [x]
  | y :: l' =>
      if (priority x <? priority y)%Z then y :: insert x l' else x :: y :: l'
  end.

Definition sort (l : list Subscription) : list Subscription :=
  fold_right insert [] l.

(** [subscribe] and [once] differ in the flag only. The returned pair is
    the identity of the new Subscription, which stands for the returned
    unsubscribe function, and the machine afterwards. *)
Definition register (is_once : bool) (eventType : string) (cb : Callback)
    (prio : Z) (m : Machine) : nat * Machine :=
  let subscription := mkSub (allocated m) cb prio is_once in
  let subs := subscribers eventType (bus m) in
  (allocated m,
   mkMachine
     (with_subscriptions (λ s, <[eventType := sort (subs ++ [subscription])]> s) (bus m))
     (S (allocated m)) (clock m) (events m) (invocations m)).

Definition subscribe := register false.
Definition subscribeOnce := register true.

(** [const index = subs.findIndex(p); if (index > -1) subs.splice(index, 1)] *)
Fixpoint remove_first (p : Subscription → bool) (l : list Subscription)
    : list Subscription :=
  match l with
  | [] => []
  | x :: l' => if p x then l' else x :: remove_first p l'
  end.

Definition splice_where (p : Subscription → bool) (eventType : string)
    (b : EventBus) : EventBus :=
  match subscriptions b !! eventType with
  | Some subs => with_subscriptions (λ s, <[eventType := remove_first p subs]> s) b
  | None => b
  end.

(** [unsubscribe(eventType, callback)] *)
Definition unsubscribe (eventType : string) (cb : Callback) (b : EventBus) : EventBus :=
  splice_where (λ sub, callback_eqb (callback sub) cb) eventType b.

(** The function returned by [subscribe]/[once], and the removal of a
    fired [once] subscription in [emit]: [subs.indexOf(subscription)],
    then [splice]. Both act on the array that was current when they
    captured it; an array dropped by [clear()] is no longer read by
    anything, and a Subscription object is only ever in the array it was
    pushed to, so acting on the current array of the event type has the
    same effect on the bus. *)
Definition cancel (eventType : string) (ref : nat) (b : EventBus) : EventBus :=
  splice_where (λ sub, Nat.eqb (sub_ref sub) ref) eventType b.

(** [clear()] and [clearHistory()] *)
Definition clear (b : EventBus) : EventBus :=
  mkBus ∅ (eventHistory b) (maxHistorySize b).
Definition clearHistory (b : EventBus) : EventBus :=
  mkBus (subscriptions b) [] (maxHistorySize b).

(** [getHistory(eventType?, limit?)]: an empty type and a zero limit are
    falsy; [slice(-limit)] keeps the last [limit] events, and for a
    negative limit drops the first [-limit]. *)
Definition getHistory (eventType : option string) (limit : option Z) (b : EventBus)
    : list GameEvent :=
  let filtered :=
    match eventType with
    | Some t => if String.eqb t "" then eventHistory b
                else List.filter (λ e, String.eqb (ev_type e) t) (eventHistory b)
    | None => eventHistory b
    end in
  match limit with
  | Some n =>
      if (n =? 0)%Z then filtered
      else if (0 <? n)%Z then drop (length filtered - Z.to_nat n) filtered
      else drop (Z.to_nat (- n)) filtered
  | None => filtered
  end.

(** [getSubscriptionCount(eventType?)] *)
Definition getSubscriptionCount (eventType : option string) (b : EventBus) : nat :=
  let total := map_fold (λ _ subs n, (n + length subs)%nat) 0%nat (subscriptions b) in
  match eventType with
  | Some t => if String.eqb t "" then total else length (subscribers t b)
  | None => total
  end.

(** [this.eventHistory.push(event)], then [shift()] when over the limit *)
Definition record (event : GameEvent) (b : EventBus) : EventBus :=
  let pushed := (eventHistory b ++ [event])%list in
  mkBus (subscriptions b)
        (if (maxHistorySize b <? length pushed)%nat then tail pushed else pushed)
        (maxHistorySize b).

(** The call of a callback enters the log. *)
Definition logged (depth : nat) (sub : Subscription) (event : GameEvent) (m : Machine)
    : Machine :=
  mkMachine (bus m) (allocated m) (clock m) (events m)
            (invocations m ++ [mkInvocation depth sub event]).

(** [events.push(event)] *)
Definition collected (event : GameEvent) (m : Machine) : Machine :=
  mkMachine (bus m) (allocated m) (clock m) (events m ++ [event]) (invocations m).

(** *** Callbacks and [emit]

    What client code does to the bus, inside a callback or outside, is a
    script of bus calls; [Throw] ends it with an exception. Client code
    registers and unregisters its own functions, named by their number,
    and [Cancel] calls the function that [subscribe] or [once] returned
    for the Subscription of that identity. The script of [Handler n] may
    depend on the event it is called with. *)
Inductive Action :=
| Subscribe (eventType : string) (handler : nat) (prio : Z)
| Once (eventType : string) (handler : nat) (prio : Z)
| Unsubscribe (eventType : string) (handler : nat)
| Cancel (eventType : string) (ref : nat)
| Emit (eventType : string) (data : value) (source : option string)
| Clear
| ClearHistory
| Throw.

Section Dispatch.

Variable handlers : nat → GameEvent → list Action.

(** [emit] as the scripts reach it: an emit made at the given depth. *)
Variable emit_rec : nat → string → value → option string → Machine → option Machine.

Definition perform (depth : nat) (a : Action) (m : Machine) : option (Outcome Machine) :=
  match a with
  | Subscribe t h p => Some (Normal (snd (subscribe t (Handler h) p m)))
  | Once t h p => Some (Normal (snd (subscribeOnce t (Handler h) p m)))
  | Unsubscribe t h => Some (Normal (with_bus (unsubscribe t (Handler h)) m))
  | Cancel t ref => Some (Normal (with_bus (cancel t ref) m))
  | Emit t data source => option_map Normal (emit_rec depth t data source m)
  | Clear => Some (Normal (with_bus clear m))
  | ClearHistory => Some (Normal (with_bus clearHistory m))
  | Throw => Some (Thrown m)
  end.

Fixpoint run (depth : nat) (script : list Action) (m : Machine)
    : option (Outcome Machine) :=
  match script with
  | [] => Some (Normal m)
  | a :: script' =>
      match perform depth a m with
      | Some (Normal m') => run depth script' m'
      | other => other
      end
  end.

(** [sub.callback(event)], called from an emit at [depth] *)
Definition invoke (depth : nat) (sub : Subscription) (event : GameEvent) (m : Machine)
    : option (Outcome Machine) :=
  let called := logged depth sub event m in
  match callback sub with
  | Handler n => run (S depth) (handlers n event) called
  | Collector => Some (Normal (collected event called))
  end.

(** [for (const sub of subsToCall) { try { ... } catch { ... }; if (sub.once) ... }] *)
Fixpoint dispatch (depth : nat) (eventType : string) (event : GameEvent)
    (subsToCall : list Subscription) (m : Machine) : option Machine :=
  match subsToCall with
  | [] => Some m
  | sub :: rest =>
      match invoke depth sub event m with
      | None => None
      | Some attempt =>
          let m1 := state_of (try_catch attempt (λ m', Normal m')) in
          let m2 := if once sub then with_bus (cancel eventType (sub_ref sub)) m1 else m1 in
          dispatch depth eventType event rest m2
      end
  end.

Definition emit_body (depth : nat) (eventType : string) (data : value)
    (source : option string) (m : Machine) : option Machine :=
  let event := mkEvent eventType data (clock m) source in
  let m1 := with_bus (record event) m in
  match subscriptions (bus m1) !! eventType with
  | None | Some [] => Some m1
  | Some subs => dispatch depth eventType event subs m1
  end.

End Dispatch.

(** [emit(eventType, data, source?)]. Callbacks may emit in turn, without
    bound, so the nesting runs on fuel: [None] is "out of fuel". *)
Fixpoint emit (fuel : nat) (handlers : nat → GameEvent → list Action) (depth : nat)
    (eventType : string) (data : value) (source : option string) (m : Machine)
    : option Machine :=
  match fuel with
  | O => None
  | S fuel' => emit_body handlers (emit fuel' handlers) depth eventType data source m
  end.

(** A program of bus calls made from outside any callback. *)
Definition exec (fuel : nat) (handlers : nat → GameEvent → list Action)
    (program : list Action) (m : Machine) : option (Outcome Machine) :=
  run (emit fuel handlers) 0 program m.

(** What it is for an emit at [depth] to call one subscriber: the call
    enters the log, the client function runs its script for the event one
    level deeper (the collector stores the event), what it throws is
    swallowed, and a [once] subscription is then taken out of the array
    of the event type. [fuel] is what nested emits may use; [None] is
    "out of fuel". *)
Definition call (fuel : nat) (handlers : nat → GameEvent → list Action) (depth : nat)
    (eventType : string) (event : GameEvent) (sub : Subscription) (m : Machine)
    : option Machine :=
  let called := logged depth sub event m in
  let after :=
    match callback sub with
    | Handler n =>
        option_map state_of (run (emit fuel handlers) (S depth) (handlers n event) called)
    | Collector => Some (collected event called)
    end in
  option_map (λ m1, if once sub then with_bus (cancel eventType (sub_ref sub)) m1 else m1)
             after.

(** The subscribers of a list called one after the other, each on the
    machine that the call before it left. *)
Fixpoint call_each (fuel : nat) (handlers : nat → GameEvent → list Action) (depth : nat)
    (eventType : string) (event : GameEvent) (subs : list Subscription) (m : Machine)
    : option Machine :=
  match subs with
  | [] => Some m
  | sub :: rest =>
      match call fuel handlers depth eventType event sub m with
      | None => None
      | Some m1 => call_each fuel handlers depth eventType event rest m1
      end
  end.

(** *** [GameWorld.executeCommand] (core/GameWorld.ts) *)

Record CommandResult := mkResult {
  success : bool;
  message : string;
  result_events : option (list GameEvent)
}.

(** Nothing in the [try] block can throw, so the [catch] is never
    entered. *)
Definition executeCommand (fuel : nat) (handlers : nat → GameEvent → list Action)
    (command : value) (m : Machine) : option (CommandResult * Machine) :=
  let m0 := mkMachine (bus m) (allocated m) (clock m) [] (invocations m) in
  let '(unsubscribe_ref, m1) := subscribe "*" Collector 0 m0 in
  match emit fuel handlers 0 "command:executed" command None m1 with
  | None => None
  | Some m2 =>
      let m3 := with_bus (cancel "*" unsubscribe_ref) m2 in
      Some (mkResult true "Command executed" (Some (events m2)), m3)
  end.

(** *** Sample callbacks *)

(** [Handler 0] answers a command by emitting a follow-up event. *)
Definition mover (n : nat) (event : GameEvent) : list Action :=
  match n with
  | O => [Emit "entity:moved" VNull (Some "MovementSystem")]
  | _ => []
  end.

(** Callbacks that leave the bus alone. *)
Definition silent (n : nat) (event : GameEvent) : list Action := [].

(** [Handler 0] re-emits the event type it is called for, once: when the
    event carries [true] it emits the same type with [false]. The other
    handlers do nothing. *)
Definition echo (n : nat) (event : GameEvent) : list Action :=
  match n, ev_data event with
  | O, VBool true => [Emit (ev_type event) (VBool false) None]
  | _, _ => []
  end.

(** *** The order of dispatch *)

(** [a] is called before [b]: higher priority first, and among equal
    priorities the earlier registration first. *)
Definition fires_before (a b : Subscription) : Prop :=
  (priority b < priority a)%Z ∨ (priority a = priority b ∧ (sub_ref a < sub_ref b)%nat).

(** Every array of subscriptions is in firing order, and holds objects
    that were allocated. *)
Definition well_ordered (m : Machine) : Prop :=
  ∀ t subs, subscriptions (bus m) !! t = Some subs →
    StronglySorted fires_before subs ∧
    Forall (λ sub, (sub_ref sub < allocated m)%nat) subs.

(** The operations of the bus that do not allocate. *)
Inductive bus_step : (EventBus → EventBus) → Prop :=
| step_unsubscribe t cb : bus_step (unsubscribe t cb)
| step_cancel t ref : bus_step (cancel t ref)
| step_clear : bus_step clear
| step_clearHistory : bus_step clearHistory
| step_record event : bus_step (record event).

(** The subscriptions called directly by an emit at [depth] that took the
    machine from [m] to [m'], in the order of the calls. *)
Definition fired (depth : nat) (m m' : Machine) : list Subscription :=
  map inv_sub
    (List.filter (λ i, Nat.eqb (inv_depth i) depth)
       (drop (length (invocations m)) (invocations m'))).

(** The log only grows, and calls made at depth [k] or deeper enter it
    with a depth of at least [k]. *)
Definition grows_from (k : nat) (m m' : Machine) : Prop :=
  ∃ new, invocations m' = (invocations m ++ new)%list ∧
         Forall (λ i, (k ≤ inv_depth i)%nat) new.

(** Callbacks that never emit. *)
Definition quiet (handlers : nat → GameEvent → list Action) : Prop :=
  ∀ n event t data source, Emit t data source ∉ handlers n event.

(** How often a subscription was called. *)
Definition times_called (ref : nat) (m : Machine) : nat :=
  length (List.filter (λ i, Nat.eqb (sub_ref (inv_sub i)) ref) (invocations m)).

(** *** Subscriptions that fire once *)

(** A Subscription object that sits in the array of an event type. *)
Definition live (t : string) (sub : Subscription) (m : Machine) : Prop :=
  ∃ subs, subscriptions (bus m) !! t = Some subs ∧ sub ∈ subs.

(** The bookkeeping behind "once means once". [made] lists every
    Subscription object created so far under its identity, with the event
    type it was created for; [busy] is the identity of the subscription
    whose callback is running, if any. A [once] subscription that is
    still in an array has not been called, and one that has been called
    was called one time. *)
Record tidy (busy : option nat) (made : gmap nat (string * Subscription))
    (m : Machine) : Prop := {
  tidy_live : ∀ t sub, live t sub m → made !! sub_ref sub = Some (t, sub);
  tidy_log : ∀ i, i ∈ invocations m →
               ∃ t, made !! sub_ref (inv_sub i) = Some (t, inv_sub i);
  tidy_fresh : ∀ r, (allocated m ≤ r)%nat → made !! r = None;
  tidy_nodup : ∀ t subs, subscriptions (bus m) !! t = Some subs → NoDup subs;
  tidy_pending : ∀ t sub, live t sub m → once sub = true →
                   busy ≠ Some (sub_ref sub) → times_called (sub_ref sub) m = 0%nat;
  tidy_once : ∀ i, i ∈ invocations m → once (inv_sub i) = true →
                times_called (sub_ref (inv_sub i)) m = 1%nat
}.

(** What a script without [Emit] does to a tidy machine: it leaves the
    log alone, and the machine tidy for a longer record. *)
Definition settled (busy : option nat) (m m' : Machine) : Prop :=
  invocations m' = invocations m ∧
  ∀ made, tidy busy made m → ∃ made', made ⊆ made' ∧ tidy busy made' m'.

(** A script without [Emit]. *)
Definition emits_nothing (script : list Action) : Prop :=
  ∀ t data source, Emit t data source ∉ script.

End Bus.

(** * Object identity in [deepClone]

    The same data with the identity of every array and object written
    down, to say which objects a clone shares with its original. [next]
    is the allocator: the identities below it are those of the objects
    that exist. *)

Module Identity.

Inductive primitive :=
| PUndefined
| PNull
| PBool (b : bool)
| PNum (n : Z)
| PStr (s : string).

Definition value_of (p : primitive) : value :=
  match p with
  | PUndefined => VUndefined
  | PNull => VNull
  | PBool b => VBool b
  | PNum n => VNum n
  | PStr s => VStr s
  end.

Inductive node : Type :=
| NPrim (p : primitive)
| NArr (ref : nat) (items : list node)
| NObj (ref : nat) (fs : list (string * node)).

(** The data without the identities. *)
Fixpoint erase (n : node) : value :=
  match n with
  | NPrim p => value_of p
  | NArr _ items => VArr (map erase items) []
  | NObj _ fs => VObj (map (λ kv, (fst kv, erase (snd kv))) fs)
  end.

(** The identities of all arrays and objects in the data. *)
Fixpoint refs (n : node) : list nat :=
  match n with
  | NPrim _ => []
  | NArr r items => r :: flat_map refs items
  | NObj r fs => r :: flat_map (λ kv, refs (snd kv)) fs
  end.

(** [fs[k] = x] for an ordinary name [k] ([Factory.ordinary_name]). *)
Fixpoint set_field (k : string) (x : node) (fs : list (string * node))
    : list (string * node) :=
  match fs with
  | [] => [(k, x)]
  | (k', x') :: fs' =>
      if String.eqb k k' then (k, x) :: fs' else (k', x') :: set_field k x fs'
  end.

(** [obj.map(item => this.deepClone(item))], threading the allocator *)
Fixpoint clone_items (clone : node → nat → node * nat) (items : list node)
    (next : nat) : list node * nat :=
  match items with
  | [] => ([], next)
  | x :: items' =>
      let '(x', next1) := clone x next in
      let '(rest, next2) := clone_items clone items' next1 in
      (x' :: rest, next2)
  end.

(** [for (const [key, value] of Object.entries(obj)) cloned[key] = ...] *)
Fixpoint clone_fields (clone : node → nat → node * nat) (fs cloned : list (string * node))
    (next : nat) : list (string * node) * nat :=
  match fs with
  | [] => (cloned, next)
  | (key, x) :: fs' =>
      let '(x', next1) := clone x next in
      clone_fields clone fs' (set_field key x' cloned) next1
  end.

(** [deepClone(obj)]: the new array or object is allocated first, then
    its contents are cloned into it, name by name for an object with
    ordinary names. *)
Fixpoint deepClone (obj : node) (next : nat) : node * nat :=
  match obj with
  | NPrim p => (NPrim p, next)
  | NArr _ items =>
      let '(items', next') := clone_items deepClone items (S next) in
      (NArr next items', next')
  | NObj _ fs =>
      let '(fs', next') := clone_fields deepClone fs [] (S next) in
      (NObj next fs', next')
  end.

(** Everything in the data was allocated between [lo] and [hi]. *)
Definition allocated_in (lo hi : nat) (n : node) : Prop :=
  Forall (λ r, (lo ≤ r < hi)%nat) (refs n).

(** Every array and object of a clone of [n] is allocated by the call. *)
Definition fresh_clone (n : node) : Prop :=
  ∀ next, (next ≤ snd (deepClone n next))%nat ∧
          allocated_in next (snd (deepClone n next)) (fst (deepClone n next)).

Definition erase_fields (fs : list (string * node)) : list (string * value) :=
  map (λ kv, (fst kv, erase (snd kv))) fs.

(** The component bag of a stored template, its three objects numbered
    0 to 2. *)
Definition stored : node :=
  NObj 0 [("stats", NObj 1 [("health", NPrim (PNum 10))]);
          ("tags", NArr 2 [NPrim (PStr "npc")])].

End Identity.

(** * The type registry (core/TypeRegistry.ts) *)

Module Registry.

(** The [type] of a schema, and what [Array.isArray(v) ? 'array' : typeof v]
    gives for a value. *)
Inductive SchemaType := TObject | TArray | TString | TNumber | TBoolean | TAny.
Inductive ActualType := AArray | AObject | AString | ANumber | ABoolean | AUndefined.

Definition actual_type (v : value) : ActualType :=
  match v with
  | VUndefined => AUndefined
  | VNull | VObj _ => AObject
  | VBool _ => ABoolean
  | VNum _ => ANumber
  | VStr _ => AString
  | VArr _ _ => AArray
  end.

(** [schema.type !== actualType && schema.type !== 'any'] *)
Definition type_differs (expected : SchemaType) (actual : ActualType) : bool :=
  match expected, actual with
  | TAny, _ => false
  | TObject, AObject | TArray, AArray | TString, AString
  | TNumber, ANumber | TBoolean, ABoolean => false
  | _, _ => true
  end.

(** [PropertySchema]; an absent [required] is falsy. *)
Inductive PropertySchema : Type := mkProperty {
  ps_type : SchemaType;
  ps_required : bool;
  ps_properties : option (list (string * PropertySchema));
  ps_items : option PropertySchema;
  ps_minLength : option Z;
  ps_maxLength : option Z;
  ps_min : option Z;
  ps_max : option Z;
  ps_enum : option (list value)
}.

(** [ComponentSchema] *)
Record ComponentSchema := mkSchema {
  cs_type : SchemaType;
  cs_required : option (list string);
  cs_properties : option (list (string * PropertySchema));
  cs_items : option PropertySchema;
  cs_minLength : option Z;
  cs_maxLength : option Z;
  cs_min : option Z;
  cs_max : option Z;
  cs_enum : option (list value)
}.

(** [EntityTypeDefinition] as it may arrive from JSON: [register] is
    what checks that [requiredComponents] is there. *)
Record EntityTypeDefinition := mkTypeDef {
  td_type : string;
  td_requiredComponents : option (list string);
  td_optionalComponents : option (list string);
  td_componentSchemas : option (list (string * ComponentSchema))
}.

(** The text of a [ValidationError], by its template. Strings are
    sequences of code units, and [length] counts them. *)
Inductive Message :=
| MustHaveId
| MustHaveType
| NotRegistered (type : string)
| ComponentMissing (component : string)
| ExpectedType (expected : SchemaType) (actual : ActualType)
| PropertyMissing (property : string)
| ArrayAtLeast (n : Z)
| ArrayAtMost (n : Z)
| StringAtLeast (n : Z)
| StringAtMost (n : Z)
| NumberAtLeast (n : Z)
| NumberAtMost (n : Z)
| OneOf (enum : list value).

Record ValidationError := mkError {
  path : string;
  message : Message
}.

(** How a validation ends: with its list of errors, or with the
    [TypeError] of a property read on [null]. Reading a name that the
    object inherits from [Object.prototype] gives a function or the
    prototype itself, which the component data here does not have:
    [Unmodelled]. *)
Inductive Verdict :=
| Errors (errors : list ValidationError)
| Throws
| Unmodelled.

(** [errors.push(...first); errors.push(...second)], where either may
    not return. *)
Definition both (first second : Verdict) : Verdict :=
  match first with
  | Errors e1 =>
      match second with
      | Errors e2 => Errors (e1 ++ e2)
      | other => other
      end
  | other => other
  end.

(** [obj[name]] on a plain object *)
Inductive Read :=
| Own (v : value)
| Inherited
| Absent.

Definition read (name : string) (fs : list (string * value)) : Read :=
  match assoc name fs with
  | Some v => Own v
  | None => if bool_decide (name ∈ Store.object_prototype) then Inherited else Absent
  end.

(** [enum.includes(v)]: primitives are compared by value, arrays and
    objects by identity; the data under validation shares no object with
    the schema. *)
Definition same_value (a b : value) : bool :=
  match a, b with
  | VUndefined, VUndefined | VNull, VNull => true
  | VBool x, VBool y => Bool.eqb x y
  | VNum x, VNum y => Z.eqb x y
  | VStr x, VStr y => String.eqb x y
  | _, _ => false
  end.

Definition check_enum (enum : option (list value)) (v : value) (path : string)
    : list ValidationError :=
  match enum with
  | Some allowed =>
      if existsb (same_value v) allowed then [] else [mkError path (OneOf allowed)]
  | None => []
  end.

(** The checks of a length against [minLength] and [maxLength], and of
    a number against [min] and [max]. *)
Definition check_bounds (lo hi : option Z) (n : Z) (path : string)
    (below above : Z → Message) : list ValidationError :=
  (match lo with
   | Some bound => if (n <? bound)%Z then [mkError path (below bound)] else []
   | None => []
   end ++
   match hi with
   | Some bound => if (bound <? n)%Z then [mkError path (above bound)] else []
   | None => []
   end)%list.

(** [`${path}.${name}`] and [`${path}[${i}]`] *)
Definition dot (path name : string) : string := path +:+ "." +:+ name.
Definition at_index (path : string) (i : nat) : string :=
  path +:+ "[" +:+ pretty i +:+ "]".

(** [validateProperty(value, schema, path)] *)
Fixpoint validateProperty (schema : PropertySchema) (v : value) (path : string)
    {struct schema} : Verdict :=
  if type_differs (ps_type schema) (actual_type v)
  then Errors [mkError path (ExpectedType (ps_type schema) (actual_type v))]
  else
    let by_type :=
      match ps_type schema with
      | TObject =>
          match ps_properties schema with
          | Some properties =>
              (fix each (properties : list (string * PropertySchema)) : Verdict :=
                 match properties with
                 | [] => Errors []
                 | (propName, propSchema) :: rest =>
                     let this :=
                       match v with
                       | VObj fs =>
                           match read propName fs with
                           | Own VUndefined | Absent =>
                               if ps_required propSchema
                               then Errors [mkError (dot path propName)
                                                    (PropertyMissing propName)]
                               else Errors []
                           | Own nested =>
                               validateProperty propSchema nested (dot path propName)
                           | Inherited => Unmodelled
                           end
                       | _ => Throws
                       end in
                     both this (each rest)
                 end) properties
          | None => Errors []
          end
      | TArray =>
          match ps_items schema, v with
          | Some items, VArr elements _ =>
              (fix each (elements : list value) (i : nat) : Verdict :=
                 match elements with
                 | [] => Errors []
                 | element :: rest =>
                     both (validateProperty items element (at_index path i))
                          (each rest (S i))
                 end) elements 0%nat
          | _, _ => Errors []
          end
      | TString =>
          match v with
          | VStr s =>
              Errors (check_bounds (ps_minLength schema) (ps_maxLength schema)
                        (Z.of_nat (String.length s)) path StringAtLeast StringAtMost)
          | _ => Errors []
          end
      | TNumber =>
          match v with
          | VNum n =>
              Errors (check_bounds (ps_min schema) (ps_max schema) n path
                        NumberAtLeast NumberAtMost)
          | _ => Errors []
          end
      | TBoolean | TAny => Errors []
      end in
    both by_type (Errors (check_enum (ps_enum schema) v path)).

(** The loop over an array's elements in [validateArray] *)
Fixpoint validateItems (items : PropertySchema) (elements : list value) (i : nat)
    (path : string) : Verdict :=
  match elements with
  | [] => Errors []
  | element :: rest =>
      both (validateProperty items element (at_index path i))
           (validateItems items rest (S i) path)
  end.

(** [validateArray(arr, schema, path)] *)
Definition validateArray (elements : list value) (schema : ComponentSchema)
    (path : string) : Verdict :=
  both (Errors (check_bounds (cs_minLength schema) (cs_maxLength schema)
                  (Z.of_nat (length elements)) path ArrayAtLeast ArrayAtMost))
       (match cs_items schema with
        | Some items => validateItems items elements 0 path
        | None => Errors []
        end).

(** The two loops of [validateObject(obj, schema, path)] *)
Definition missing_properties (required : list string) (fs : list (string * value))
    (path : string) : list ValidationError :=
  flat_map (λ requiredProp,
              if Store.has_in requiredProp fs then []
              else [mkError (dot path requiredProp) (PropertyMissing requiredProp)])
           required.

Fixpoint validateProperties (properties : list (string * PropertySchema))
    (fs : list (string * value)) (path : string) : Verdict :=
  match properties with
  | [] => Errors []
  | (propName, propSchema) :: rest =>
      let this :=
        match read propName fs with
        | Own VUndefined | Absent => Errors []
        | Own v => validateProperty propSchema v (dot path propName)
        | Inherited => Unmodelled
        end in
      both this (validateProperties rest fs path)
  end.

(** [validateObject(obj, schema, path)]: [in] and a property read throw
    on [null]. *)
Definition validateObject (obj : value) (schema : ComponentSchema) (path : string)
    : Verdict :=
  both (match cs_required schema, obj with
        | None, _ | Some [], _ => Errors []
        | Some required, VObj fs => Errors (missing_properties required fs path)
        | Some _, _ => Throws
        end)
       (match cs_properties schema, obj with
        | None, _ | Some [], _ => Errors []
        | Some properties, VObj fs => validateProperties properties fs path
        | Some _, _ => Throws
        end).

(** [validateComponent(component, schema, path)] *)
Definition validateComponent (component : value) (schema : ComponentSchema)
    (path : string) : Verdict :=
  if type_differs (cs_type schema) (actual_type component)
  then Errors [mkError path (ExpectedType (cs_type schema) (actual_type component))]
  else
    let by_type :=
      match cs_type schema, component with
      | TObject, _ => validateObject component schema path
      | TArray, VArr elements _ => validateArray elements schema path
      | TString, VStr s =>
          Errors (check_bounds (cs_minLength schema) (cs_maxLength schema)
                    (Z.of_nat (String.length s)) path StringAtLeast StringAtMost)
      | TNumber, VNum n =>
          Errors (check_bounds (cs_min schema) (cs_max schema) n path
                    NumberAtLeast NumberAtMost)
      | _, _ => Errors []
      end in
    both by_type (Errors (check_enum (cs_enum schema) component path)).

Record TypeRegistry := mkTypes {
  types : gmap string EntityTypeDefinition
}.

Definition new : TypeRegistry := mkTypes ∅.

Inductive RegistryError :=
| MustHaveTypeField
| MustHaveRequiredComponents (type : string)
| TypeIsNotRegistered (type : string)
| NotIterable.

(** [register(typeDef)] *)
Definition register (typeDef : EntityTypeDefinition) (r : TypeRegistry)
    : RegistryError + TypeRegistry :=
  if String.eqb (td_type typeDef) "" then inl MustHaveTypeField
  else match td_requiredComponents typeDef with
       | None => inl (MustHaveRequiredComponents (td_type typeDef))
       | Some _ => inr (mkTypes (<[td_type typeDef := typeDef]> (types r)))
       end.

(** [registerFromJSON(definitions)] for an array argument: the
    definitions registered before a bad one stay. *)
Fixpoint registerFromJSON (definitions : list EntityTypeDefinition) (r : TypeRegistry)
    : option RegistryError * TypeRegistry :=
  match definitions with
  | [] => (None, r)
  | def :: rest =>
      match register def r with
      | inl e => (Some e, r)
      | inr r' => registerFromJSON rest r'
      end
  end.

(** [hasType], [getTypeDefinition], [getRequiredComponents],
    [getOptionalComponents], [unregister], [clear] *)
Definition hasType (type : string) (r : TypeRegistry) : bool :=
  bool_decide (is_Some (types r !! type)).
Definition getTypeDefinition (type : string) (r : TypeRegistry)
    : option EntityTypeDefinition := types r !! type.
Definition getRequiredComponents (type : string) (r : TypeRegistry)
    : RegistryError + list string :=
  match types r !! type with
  | None => inl (TypeIsNotRegistered type)
  | Some typeDef =>
      match td_requiredComponents typeDef with
      | Some required => inr required
      | None => inl NotIterable
      end
  end.
Definition getOptionalComponents (type : string) (r : TypeRegistry)
    : RegistryError + list string :=
  match types r !! type with
  | None => inl (TypeIsNotRegistered type)
  | Some typeDef => inr (default [] (td_optionalComponents typeDef))
  end.
Definition unregister (type : string) (r : TypeRegistry) : bool * TypeRegistry :=
  (hasType type r, mkTypes (delete type (types r))).
Definition clear (r : TypeRegistry) : TypeRegistry := new.

(** The loop of [validate] over [componentSchemas]: a component that is
    absent or falsy is passed over, whether it is required or not. *)
Fixpoint validateSchemas (schemas : list (string * ComponentSchema))
    (components : list (string * value)) : Verdict :=
  match schemas with
  | [] => Errors []
  | (componentName, schema) :: rest =>
      let this :=
        match read componentName components with
        | Own component =>
            if truthy component
            then validateComponent component schema (dot "components" componentName)
            else Errors []
        | Absent => Errors []
        | Inherited => Unmodelled
        end in
      both this (validateSchemas rest components)
  end.

(** [validate(entity)]; an [Entity] always has its [components]. *)
Definition validate (entity : Entity) (r : TypeRegistry) : Verdict :=
  let identity :=
    ((if String.eqb (id entity) "" then [mkError "id" MustHaveId] else []) ++
     (if String.eqb (type entity) "" then [mkError "type" MustHaveType] else []))%list in
  match types r !! type entity with
  | None => Errors (identity ++ [mkError "type" (NotRegistered (type entity))])
  | Some typeDef =>
      match td_requiredComponents typeDef with
      | None => Throws
      | Some requiredComponents =>
          let required :=
            flat_map (λ requiredComponent,
                        if Store.has_in requiredComponent (components entity) then []
                        else [mkError (dot "components" requiredComponent)
                                      (ComponentMissing requiredComponent)])
                     requiredComponents in
          both (Errors (identity ++ required))
               (match td_componentSchemas typeDef with
                | Some schemas => validateSchemas schemas (components entity)
                | None => Errors []
                end)
      end
  end.

(** [result.valid] *)
Definition valid (v : Verdict) : bool :=
  match v with
  | Errors [] => true
  | _ => false
  end.

(** *** A sample type

    Non-player characters must have [stats]: an object with a [health]
    that is a number not below 0, and optionally a list of [titles]. *)
Definition health_schema : PropertySchema :=
  mkProperty TNumber true None None None None (Some 0) None None.
Definition titles_schema : PropertySchema :=
  mkProperty TArray false None
    (Some (mkProperty TString false None None (Some 1) None None None None))
    None None None None None.
Definition stats_schema : ComponentSchema :=
  mkSchema TObject (Some ["health"])
    (Some [("health", health_schema); ("titles", titles_schema)])
    None None None None None None.
Definition npc_type : EntityTypeDefinition :=
  mkTypeDef "npc" (Some ["stats"]) None (Some [("stats", stats_schema)]).
Definition census : TypeRegistry := mkTypes (<["npc" := npc_type]> ∅).

Definition hale : Entity :=
  mkEntity "e1" "npc" [("stats", VObj [("health", VNum 10)])].
Definition hollow : Entity := mkEntity "e2" "npc" [("stats", VNull)].

End Registry.

(** * Properties *)

(** ** The entity store *)

Section StoreFacts.
Import Store.

Lemma listed_index_add idx k i k' i' :
  listed (index_add k i idx) k' i' ↔ (k = k' ∧ i = i') ∨ listed idx k' i'.
Proof.
  unfold listed, index_add.
  destruct (decide (k = k')) as [->|Hk].
  - rewrite lookup_total_insert_eq. set_solver.
  - rewrite lookup_total_insert_ne by done. naive_solver.
Qed.

Lemma listed_index_delete idx k i k' i' :
  listed (index_delete k i idx) k' i' ↔ listed idx k' i' ∧ ¬ (k = k' ∧ i = i').
Proof.
  unfold listed, index_delete.
  destruct (idx !! k) as [s|] eqn:Hs.
  - destruct (decide (k = k')) as [->|Hk].
    + rewrite lookup_total_insert_eq, (lookup_total_correct _ _ _ Hs). set_solver.
    + rewrite lookup_total_insert_ne by done. naive_solver.
  - split; [|naive_solver]. intros H. split; [done|]. intros [-> ->].
    rewrite lookup_total_alt, Hs in H. set_solver.
Qed.

Lemma listed_index_opt_add idx o i k' i' :
  listed (index_opt index_add o i idx) k' i' ↔ (o = Some k' ∧ i = i') ∨ listed idx k' i'.
Proof.
  destruct o as [k|]; simpl; [rewrite listed_index_add|]; naive_solver.
Qed.

Lemma listed_index_opt_delete idx o i k' i' :
  listed (index_opt index_delete o i idx) k' i' ↔
  listed idx k' i' ∧ ¬ (o = Some k' ∧ i = i').
Proof.
  destruct o as [k|]; simpl; [rewrite listed_index_delete|]; naive_solver.
Qed.

Lemma listed_fold_add (ks : list string) idx i k' i' :
  listed (fold_left (λ d c, index_add c i d) ks idx) k' i' ↔
  (k' ∈ ks ∧ i = i') ∨ listed idx k' i'.
Proof.
  revert idx. induction ks as [|k ks IH]; intros idx; simpl.
  - set_solver.
  - rewrite IH, listed_index_add. set_solver.
Qed.

Lemma listed_fold_delete (ks : list string) idx i k' i' :
  listed (fold_left (λ d c, index_delete c i d) ks idx) k' i' ↔
  listed idx k' i' ∧ ¬ (k' ∈ ks ∧ i = i').
Proof.
  revert idx. induction ks as [|k ks IH]; intros idx; simpl.
  - set_solver.
  - rewrite IH, listed_index_delete. set_solver.
Qed.

Lemma reflects_insert ents idx idx' (P : string → Entity → Prop) e :
  ents !! id e = None →
  reflects ents idx P →
  (∀ k i, listed idx' k i ↔ (P k e ∧ id e = i) ∨ listed idx k i) →
  reflects (<[id e := e]> ents) idx' P.
Proof.
  intros Hfresh Hr Hidx k i. rewrite Hidx, (Hr k i).
  destruct (decide (id e = i)) as [<-|Hne].
  - rewrite lookup_insert_eq, Hfresh. naive_solver.
  - rewrite lookup_insert_ne by done. naive_solver.
Qed.

Lemma reflects_delete ents idx idx' (P : string → Entity → Prop) e :
  ents !! id e = Some e →
  reflects ents idx P →
  (∀ k i, listed idx' k i ↔ listed idx k i ∧ ¬ (P k e ∧ id e = i)) →
  reflects (delete (id e) ents) idx' P.
Proof.
  intros Hin Hr Hidx k i. rewrite Hidx, (Hr k i).
  destruct (decide (id e = i)) as [<-|Hne].
  - rewrite lookup_delete_eq, Hin. naive_solver.
  - rewrite lookup_delete_ne by done. naive_solver.
Qed.

Lemma consistent_empty : consistent Store.empty.
Proof.
  split; intros k i; unfold listed; simpl;
    rewrite lookup_total_empty, lookup_empty; set_solver.
Qed.

Lemma keyed_empty : keyed Store.empty.
Proof. intros i e. simpl. by rewrite lookup_empty. Qed.

Lemma consistent_updateIndices_insert e m :
  entities m !! id e = None →
  consistent m →
  consistent (updateIndices e (set_entity (id e) e m)).
Proof.
  intros Hfresh [Ht Hr Hc Hk].
  split; simpl; (eapply reflects_insert; [done|eassumption|]); intros k i.
  - rewrite listed_index_add. unfold has_type. naive_solver.
  - rewrite listed_index_opt_add. unfold has_realm. naive_solver.
  - rewrite listed_index_opt_add. unfold has_city. naive_solver.
  - rewrite listed_fold_add. unfold has_component. naive_solver.
Qed.

Lemma consistent_removeFromIndices_delete e m :
  entities m !! id e = Some e →
  consistent m →
  consistent (delete_entity (id e) (removeFromIndices e m)).
Proof.
  intros Hin [Ht Hr Hc Hk].
  split; simpl; (eapply reflects_delete; [done|eassumption|]); intros k i.
  - rewrite listed_index_delete. unfold has_type. naive_solver.
  - rewrite listed_index_opt_delete. unfold has_realm. naive_solver.
  - rewrite listed_index_opt_delete. unfold has_city. naive_solver.
  - rewrite listed_fold_delete. unfold has_component. naive_solver.
Qed.

Lemma add_fresh_ok e m :
  entities m !! id e = None →
  consistent m ∧ keyed m → consistent (add e m) ∧ keyed (add e m).
Proof.
  intros Hfresh [Hc Hk]. split.
  - by apply consistent_updateIndices_insert.
  - intros i e'. simpl. destruct (decide (id e = i)) as [<-|Hne].
    + rewrite lookup_insert_eq. naive_solver.
    + rewrite lookup_insert_ne by done. apply Hk.
Qed.

Lemma remove_ok i m :
  consistent m ∧ keyed m →
  consistent (fst (remove i m)) ∧ keyed (fst (remove i m)).
Proof.
  intros [Hc Hk]. unfold remove.
  destruct (entities m !! i) as [e|] eqn:He; simpl; [|done].
  pose proof (Hk _ _ He) as <-. split.
  - by apply consistent_removeFromIndices_delete.
  - intros j e'. simpl. destruct (decide (id e = j)) as [<-|Hne].
    + by rewrite lookup_delete_eq.
    + rewrite lookup_delete_ne by done. apply Hk.
Qed.

Lemma update_ok i u m :
  p_id u = None ∨ p_id u = Some i →
  consistent m ∧ keyed m →
  consistent (fst (update i u m)) ∧ keyed (fst (update i u m)).
Proof.
  intros Hid [Hc Hk]. unfold update.
  destruct (entities m !! i) as [e|] eqn:He; simpl; [|done].
  pose proof (Hk _ _ He) as Hi.
  assert (id (assign e u) = i) as Hi'.
  { unfold assign; simpl. destruct Hid as [-> | ->]; done. }
  set (e' := assign e u) in *.
  pose proof (consistent_removeFromIndices_delete e m) as Hdel.
  rewrite Hi in Hdel. specialize (Hdel He Hc).
  pose proof (consistent_updateIndices_insert e'
                (delete_entity i (removeFromIndices e m))) as Hins.
  rewrite Hi' in Hins. simpl in Hins. rewrite lookup_delete_eq in Hins.
  specialize (Hins eq_refl Hdel). split.
  - destruct Hins as [Ht Hr Hci Hco]. simpl in *.
    rewrite insert_delete_eq in Ht, Hr, Hci, Hco. by split.
  - intros j e''. simpl. destruct (decide (i = j)) as [<-|Hne].
    + rewrite lookup_insert_eq. naive_solver.
    + rewrite lookup_insert_ne by done. apply Hk.
Qed.

Lemma run_ok ops : ∀ m,
  disciplined_run ops m →
  consistent m ∧ keyed m →
  consistent (run ops m) ∧ keyed (run ops m).
Proof.
  induction ops as [|o ops IH]; intros m Hd Hm; simpl; [done|].
  destruct Hd as [Ho Hd]. apply IH; [done|].
  destruct o as [e|i u|i]; simpl in *.
  - by apply add_fresh_ok.
  - by apply update_ok.
  - by apply remove_ok.
Qed.

(** Under the calling discipline (fresh ids on [add], no id change on
    [update]) every sequence of add, update and remove from the empty
    store leaves all four indices exact, and every entity stored under
    its own id. *)
Theorem disciplined_run_consistent ops :
  disciplined_run ops Store.empty →
  consistent (run ops Store.empty) ∧ keyed (run ops Store.empty).
Proof.
  intros Hd. apply run_ok; [done|]. split; [apply consistent_empty|apply keyed_empty].
Qed.

Lemma disciplined_run_consistent_witness :
  consistent (run [OAdd guard_npc; OUpdate "e1" (mkPartial None (Some "item") None);
                   ORemove "e1"; OAdd guard_item] Store.empty) ∧
  keyed (run [OAdd guard_npc; OUpdate "e1" (mkPartial None (Some "item") None);
              ORemove "e1"; OAdd guard_item] Store.empty).
Proof.
  apply disciplined_run_consistent. simpl. repeat split; try (by left).
  all: vm_compute; reflexivity.
Defined.

Lemma get_add e m : get (id e) (add e m) = Some e.
Proof. unfold get, add. simpl. apply lookup_insert_eq. Qed.

Lemma remove_stored i e m :
  get i m = Some e → remove i m = (delete_entity i (removeFromIndices e m), true).
Proof. unfold get, remove. by intros ->. Qed.

Lemma get_remove i m : get i (fst (remove i m)) = None.
Proof.
  unfold get, remove. destruct (entities m !! i) eqn:He; simpl; [|done].
  apply lookup_delete_eq.
Qed.

(** C3 (the code breaks it): adding an entity whose id is already stored
    overwrites the record without un-indexing the old one. After
    [add(guard_npc); add(guard_item)] the store holds the item under
    ["e1"], yet the type index still lists ["e1"] under ["npc"]; and after
    [remove("e1")] nothing is stored under ["e1"] while the index keeps
    listing it. *)
Theorem add_existing_id_leaves_stale_entry :
  let m := run [OAdd guard_npc; OAdd guard_item] Store.empty in
  let m' := run [ORemove "e1"] m in
  (get "e1" m = Some guard_item ∧ listed (byType m) "npc" "e1" ∧ ¬ consistent m) ∧
  (get "e1" m' = None ∧ listed (byType m') "npc" "e1" ∧ ¬ consistent m').
Proof.
  set (m := run [OAdd guard_npc; OAdd guard_item] Store.empty).
  set (m' := run [ORemove "e1"] m).
  assert (Hget : get "e1" m = Some guard_item) by apply (get_add guard_item).
  assert (Hget' : get "e1" m' = None) by apply get_remove.
  assert (Hm : listed (byType m) "npc" "e1").
  { unfold m. simpl. rewrite !listed_index_add. right; by left. }
  assert (Hm' : listed (byType m') "npc" "e1").
  { unfold m'. simpl. rewrite (remove_stored _ _ _ Hget). simpl.
    rewrite listed_index_delete. split; [exact Hm|]. intros [? _]; discriminate. }
  split; (split; [assumption|split; [assumption|]]); intros [Ht _ _ _].
  - apply (Ht "npc" "e1") in Hm as (e & He & Hty).
    change (get "e1" m = Some e) in He.
    rewrite Hget in He. by inversion He; subst.
  - apply (Ht "npc" "e1") in Hm' as (e & He & Hty).
    change (get "e1" m' = Some e) in He. congruence.
Qed.

End StoreFacts.

Section QueryFacts.
Import Store.

Lemma elem_of_fetch ids m e :
  e ∈ fetch ids m ↔ ∃ i, i ∈ ids ∧ entities m !! i = Some e.
Proof.
  unfold fetch. rewrite list_elem_of_omap.
  setoid_rewrite elem_of_elements. done.
Qed.

Lemma elem_of_filter_opt {A} (o : option A) (P : A → Entity → bool) (l : list Entity) e :
  e ∈ match o with Some a => List.filter (P a) l | None => l end ↔
  e ∈ l ∧ ∀ a, o = Some a → P a e = true.
Proof.
  destruct o as [a|].
  - rewrite !list_elem_of_In, filter_In. naive_solver.
  - naive_solver.
Qed.

Lemma elem_of_query q m e :
  e ∈ query q m ↔ e ∈ fetch (candidates q m) m ∧ matches q e.
Proof.
  unfold query, matches.
  rewrite (elem_of_filter_opt (q_where q) (λ p, p)).
  rewrite (elem_of_filter_opt (q_hasComponent q)
             (λ cs e, forallb (λ comp, has_in comp (components e)) cs)).
  rewrite (elem_of_filter_opt (given (q_city q)) (position_is "city")).
  rewrite (elem_of_filter_opt (given (q_realm q)) (position_is "realm")).
  rewrite (elem_of_filter_opt (given (q_type q)) (λ t e, String.eqb (type e) t)).
  setoid_rewrite String.eqb_eq.
  setoid_rewrite forallb_forall. setoid_rewrite Forall_forall.
  setoid_rewrite <- list_elem_of_In. naive_solver.
Qed.

(** Whatever state the indices are in, [query] returns only stored
    entities, and only entities that pass every test the query makes. *)
Theorem query_returns_stored_matches q m e :
  e ∈ query q m → (∃ i, get i m = Some e) ∧ matches q e.
Proof.
  rewrite elem_of_query, elem_of_fetch. unfold get. naive_solver.
Qed.

Lemma position_is_field f s e :
  s ≠ "" → position_is f s e = true ↔ position_field f e = Some s.
Proof.
  intros Hs. unfold position_is, position_field.
  destruct (assoc "position" (components e)) as [p|]; [|done].
  destruct (get_prop f p) as [| | | |s'| |]; try done. simpl.
  destruct (String.eqb_spec s' "") as [->|Hne]; simpl.
  - destruct s; [done|]. simpl. split; discriminate.
  - rewrite String.eqb_eq. naive_solver.
Qed.

Lemma given_Some o s : given o = Some s → s ≠ "".
Proof.
  destruct o as [s'|]; simpl; [|done].
  destruct (String.eqb_spec s' ""); naive_solver.
Qed.

Lemma listed_lookup (idx : Index) k i s : idx !! k = Some s → listed idx k i → i ∈ s.
Proof. unfold listed. intros Hs. by rewrite (lookup_total_correct _ _ _ Hs). Qed.

Lemma complete_empty : complete Store.empty.
Proof. intros i e. simpl. by rewrite lookup_empty. Qed.

Lemma add_complete e m : complete m ∧ keyed m → complete (add e m) ∧ keyed (add e m).
Proof.
  intros [Hc Hk]. split.
  - intros i e'. simpl. destruct (decide (id e = i)) as [<-|Hne].
    + rewrite lookup_insert_eq. intros [= <-].
      rewrite listed_index_add. split; [by left|].
      repeat split; intros k Hk'.
      * rewrite listed_index_opt_add. by left.
      * rewrite listed_index_opt_add. by left.
      * rewrite listed_fold_add. by left.
    + rewrite lookup_insert_ne by done. intros He'.
      destruct (Hc _ _ He') as (Ht & Hr & Hci & Hco).
      rewrite listed_index_add. split; [by right|].
      repeat split; intros k Hk'.
      * rewrite listed_index_opt_add. right. by apply Hr.
      * rewrite listed_index_opt_add. right. by apply Hci.
      * rewrite listed_fold_add. right. by apply Hco.
  - intros i e'. simpl. destruct (decide (id e = i)) as [<-|Hne].
    + rewrite lookup_insert_eq. naive_solver.
    + rewrite lookup_insert_ne by done. apply Hk.
Qed.

Lemma remove_complete i m :
  complete m ∧ keyed m → complete (fst (remove i m)) ∧ keyed (fst (remove i m)).
Proof.
  intros [Hc Hk]. unfold remove.
  destruct (entities m !! i) as [e|] eqn:He; simpl; [|done].
  pose proof (Hk _ _ He) as Hi. split.
  - intros j e'. simpl. destruct (decide (i = j)) as [<-|Hne].
    + by rewrite lookup_delete_eq.
    + rewrite lookup_delete_ne by done. intros He'.
      destruct (Hc _ _ He') as (Ht & Hr & Hci & Hco).
      rewrite listed_index_delete. split; [naive_solver|].
      repeat split; intros k Hk'.
      * rewrite listed_index_opt_delete. naive_solver.
      * rewrite listed_index_opt_delete. naive_solver.
      * rewrite listed_fold_delete. naive_solver.
  - intros j e'. simpl. destruct (decide (i = j)) as [<-|Hne].
    + by rewrite lookup_delete_eq.
    + rewrite lookup_delete_ne by done. apply Hk.
Qed.

Lemma update_complete i u m :
  p_id u = None ∨ p_id u = Some i →
  complete m ∧ keyed m → complete (fst (update i u m)) ∧ keyed (fst (update i u m)).
Proof.
  intros Hid [Hc Hk]. unfold update.
  destruct (entities m !! i) as [e|] eqn:He; simpl; [|done].
  pose proof (Hk _ _ He) as Hi.
  assert (id (assign e u) = i) as Hi'.
  { unfold assign; simpl. destruct Hid as [-> | ->]; done. }
  set (e' := assign e u) in *. split.
  - intros j e''. simpl. destruct (decide (i = j)) as [<-|Hne].
    + rewrite lookup_insert_eq. intros [= <-].
      change (default (id e) (p_id u)) with (id e').
      change (default (type e) (p_type u)) with (type e').
      change (default (components e) (p_components u)) with (components e').
      rewrite Hi'. rewrite listed_index_add. split; [by left|].
      repeat split; intros k Hk'.
      * rewrite listed_index_opt_add. by left.
      * rewrite listed_index_opt_add. by left.
      * rewrite listed_fold_add. by left.
    + rewrite lookup_insert_ne by done. intros He''.
      destruct (Hc _ _ He'') as (Ht & Hr & Hci & Hco).
      change (default (id e) (p_id u)) with (id e').
      rewrite Hi', Hi.
      rewrite listed_index_add, listed_index_delete. split; [naive_solver|].
      repeat split; intros k Hk'.
      * rewrite listed_index_opt_add, listed_index_opt_delete. naive_solver.
      * rewrite listed_index_opt_add, listed_index_opt_delete. naive_solver.
      * rewrite listed_fold_add, listed_fold_delete. naive_solver.
  - intros j e''. simpl. destruct (decide (i = j)) as [<-|Hne].
    + rewrite lookup_insert_eq. naive_solver.
    + rewrite lookup_insert_ne by done. apply Hk.
Qed.

Lemma run_complete ops : ∀ m,
  Forall id_stable ops → complete m ∧ keyed m →
  complete (run ops m) ∧ keyed (run ops m).
Proof.
  induction ops as [|o ops IH]; intros m Hs Hm; simpl; [done|].
  apply Forall_cons in Hs as [Ho Hs]. apply IH; [done|].
  destruct o as [e|i u|i]; simpl in *.
  - by apply add_complete.
  - by apply update_complete.
  - by apply remove_complete.
Qed.

Lemma has_in_own c fs : c ∉ object_prototype → has_in c fs = true → c ∈ keys fs.
Proof.
  unfold has_in. intros Hc [H|H]%orb_true_iff.
  - by apply bool_decide_eq_true in H.
  - by apply bool_decide_eq_true in H.
Qed.

Lemma complete_candidates q m i e :
  complete m → own_names q →
  entities m !! i = Some e → matches q e → i ∈ candidates q m.
Proof.
  intros Hc Hown He (Ht & Hr & Hci & Hco & _).
  destruct (Hc _ _ He) as (Lt & Lr & Lci & Lco).
  unfold candidates.
  destruct (given (q_city q)) as [city|] eqn:Gc.
  { destruct (byCity m !! city) as [s|] eqn:Hs; simpl.
    - eapply listed_lookup; [done|]. apply Lci.
      apply position_is_field; [by eapply given_Some|by apply Hci].
    - apply elem_of_dom. by eexists. }
  destruct (given (q_realm q)) as [realm|] eqn:Gr.
  { destruct (byRealm m !! realm) as [s|] eqn:Hs; simpl.
    - eapply listed_lookup; [done|]. apply Lr.
      apply position_is_field; [by eapply given_Some|by apply Hr].
    - apply elem_of_dom. by eexists. }
  destruct (given (q_type q)) as [t|] eqn:Gt.
  { destruct (byType m !! t) as [s|] eqn:Hs; simpl.
    - eapply listed_lookup; [done|]. rewrite <- (Ht t eq_refl). done.
    - apply elem_of_dom. by eexists. }
  destruct (q_hasComponent q) as [[|c cs]|] eqn:Gh; simpl;
    try (apply elem_of_dom; by eexists).
  destruct (byComponent m !! c) as [s|] eqn:Hs; simpl.
  - eapply listed_lookup; [done|]. apply Lco.
    specialize (Hco _ eq_refl). specialize (Hown _ Gh).
    apply Forall_cons in Hco as [Hc0 _]. apply Forall_cons in Hown as [Ho0 _].
    by eapply has_in_own.
  - apply elem_of_dom. by eexists.
Qed.

(** As long as no [update] assigns a different id (an [add] may well
    reuse one), the indices are a sound shortcut: [query] returns exactly
    the stored entities that pass all its tests, for a query whose
    [hasComponent] names no property inherited from [Object.prototype]. *)
Theorem query_is_exact ops q e :
  Forall id_stable ops → own_names q →
  e ∈ query q (run ops Store.empty) ↔
  get (id e) (run ops Store.empty) = Some e ∧ matches q e.
Proof.
  intros Hs Hown.
  destruct (run_complete ops Store.empty Hs) as [Hc Hk];
    [split; [apply complete_empty|apply keyed_empty]|].
  rewrite elem_of_query, elem_of_fetch. unfold get. split.
  - intros [(i & _ & He) Hm]. by rewrite (Hk _ _ He).
  - intros [He Hm]. split; [|done]. exists (id e). split; [|done].
    by eapply complete_candidates.
Qed.

End QueryFacts.

Section LookupFacts.
Import Store.

Lemma listed_None (idx : Index) k i : idx !! k = None → ¬ listed idx k i.
Proof. unfold listed. intros Hk. rewrite lookup_total_alt, Hk. set_solver. Qed.

Lemma listed_Some (idx : Index) k i s : idx !! k = Some s → listed idx k i ↔ i ∈ s.
Proof. unfold listed. intros Hk. by rewrite (lookup_total_correct _ _ _ Hk). Qed.

Lemma fetch_reflects m idx (P : string → Entity → Prop) k e :
  keyed m → reflects (entities m) idx P →
  e ∈ match idx !! k with None => [] | Some ids => fetch ids m end ↔
  get (id e) m = Some e ∧ P k e.
Proof.
  intros Hk Hr. unfold get. destruct (idx !! k) as [s|] eqn:Hs.
  - rewrite elem_of_fetch. split.
    + intros (i & Hi & He). rewrite (Hk _ _ He). split; [done|].
      apply (listed_Some _ _ i) in Hs. apply Hs, Hr in Hi as (e' & He' & HP).
      congruence.
    + intros [He HP]. exists (id e). split; [|done].
      apply (listed_Some _ _ _ _ Hs), Hr. eauto.
  - split; [by intros ?%elem_of_nil|]. intros [He HP].
    destruct (listed_None _ _ (id e) Hs). apply Hr. eauto.
Qed.

(** Under the calling discipline, [getByType(t)] returns exactly the
    stored entities of type [t], and [getByComponent(c)] exactly the
    stored entities that have a component [c]. *)
Theorem index_lookups_are_exact ops t c e :
  disciplined_run ops Store.empty →
  (e ∈ getByType t (run ops Store.empty) ↔
     get (id e) (run ops Store.empty) = Some e ∧ type e = t) ∧
  (e ∈ getByComponent c (run ops Store.empty) ↔
     get (id e) (run ops Store.empty) = Some e ∧ c ∈ keys (components e)).
Proof.
  intros Hd.
  destruct (run_ok ops Store.empty Hd) as [[Ht _ _ Hc] Hk];
    [split; [apply consistent_empty|apply keyed_empty]|].
  split.
  - apply (fetch_reflects _ _ has_type); done.
  - apply (fetch_reflects _ _ has_component); done.
Qed.

Lemma update_dom i u m : dom (entities (fst (update i u m))) = dom (entities m).
Proof.
  unfold update. destruct (entities m !! i) as [e|] eqn:He; simpl; [|done].
  rewrite dom_insert_L. apply elem_of_dom_2 in He. set_solver.
Qed.

Lemma update_returns i u m : snd (update i u m) = bool_decide (is_Some (get i m)).
Proof.
  unfold update, get. by destruct (entities m !! i) as [e|].
Qed.

Lemma updateMany_spec u ids : ∀ m n,
  snd (updateMany ids u m n)
    = (n + length (List.filter (λ i, bool_decide (is_Some (get i m))) ids))%nat ∧
  dom (entities (fst (updateMany ids u m n))) = dom (entities m).
Proof.
  induction ids as [|i ids IH]; intros m n; simpl.
  - split; [lia|done].
  - pose proof (update_returns i u m) as Hr. pose proof (update_dom i u m) as Hd.
    destruct (update i u m) as [m' ok]. simpl in *.
    destruct (IH m' (if ok then S n else n)) as [-> ->]. split; [|done].
    replace (List.filter (λ j, bool_decide (is_Some (get j m'))) ids)
      with (List.filter (λ j, bool_decide (is_Some (get j m))) ids).
    + rewrite <- Hr. destruct ok; simpl; lia.
    + apply filter_ext. intros j. apply bool_decide_ext.
      unfold get. by rewrite <- !elem_of_dom, Hd.
Qed.

(** [updateMany] returns how many of the given ids are stored, an id
    given twice counting twice; the ids that are not stored are passed
    over, and the set of stored ids stays what it was. *)
Theorem updateMany_counts_stored_ids ids u m :
  snd (updateMany ids u m 0)
    = length (List.filter (λ i, bool_decide (is_Some (get i m))) ids) ∧
  dom (entities (fst (updateMany ids u m 0))) = dom (entities m).
Proof. apply (updateMany_spec u ids m 0%nat). Qed.

Lemma sum_list_fmap {A} (f : A → nat) (l : list A) :
  sum_list (f <$> l) = sum_list_with f l.
Proof. induction l as [|a l IH]; csimpl; [done|]. by rewrite IH. Qed.

Lemma sum_sizes_partition (idx : Index) : ∀ D : gset string,
  (∀ i, i ∈ D ↔ ∃ k s, idx !! k = Some s ∧ i ∈ s) →
  (∀ k1 k2 s1 s2 i, idx !! k1 = Some s1 → idx !! k2 = Some s2 →
     i ∈ s1 → i ∈ s2 → k1 = k2) →
  sum_list_with (λ kv, size (snd kv)) (map_to_list idx) = size D.
Proof.
  induction idx as [|k s idx Hk IH] using map_ind; intros D HD Hdisj.
  - rewrite map_to_list_empty. simpl. symmetry. apply size_empty_iff, elem_of_equiv_empty.
    intros i Hi. apply HD in Hi as (k & s & Hs & _). by rewrite lookup_empty in Hs.
  - rewrite (map_to_list_insert _ _ _ Hk).
    simpl. rewrite (IH (D ∖ s)).
    + assert (s ⊆ D) as Hsub.
      { intros i Hi. apply HD. exists k, s. by rewrite lookup_insert_eq. }
      rewrite <- size_union by set_solver. f_equal.
      apply set_eq. intros i. destruct (decide (i ∈ s)); set_solver.
    + intros i. rewrite elem_of_difference, HD. split.
      * intros [(k' & s' & Hs' & Hi) Hn]. exists k', s'. split; [|done].
        destruct (decide (k = k')) as [<-|Hne].
        -- rewrite lookup_insert_eq in Hs'. congruence.
        -- by rewrite lookup_insert_ne in Hs'.
      * intros (k' & s' & Hs' & Hi).
        assert (k ≠ k') as Hne by congruence. split.
        -- exists k', s'. by rewrite lookup_insert_ne.
        -- intros Hin. apply Hne.
           apply (Hdisj k k' s s' i); rewrite ?lookup_insert_eq, ?lookup_insert_ne; done.
    + intros k1 k2 s1 s2 i H1 H2.
      apply (Hdisj k1 k2 s1 s2 i); rewrite lookup_insert_ne; congruence.
Qed.

(** Under the calling discipline, the per-type counts that [getStats]
    reports add up to [totalEntities]. *)
Theorem stats_type_counts_add_up ops :
  disciplined_run ops Store.empty →
  sum_list (snd <$> types (getStats (run ops Store.empty)))
  = totalEntities (getStats (run ops Store.empty)).
Proof.
  intros Hd.
  destruct (run_ok ops Store.empty Hd) as [[Ht _ _ _] Hk];
    [split; [apply consistent_empty|apply keyed_empty]|].
  set (m := run ops Store.empty) in *. simpl.
  rewrite <- size_dom, <- (sum_sizes_partition (byType m) (dom (entities m))).
  { by rewrite <- list_fmap_compose, sum_list_fmap. }
  - intros i. rewrite elem_of_dom. split.
    + intros [e He]. exists (type e).
      assert (listed (byType m) (type e) i) as Hl by (apply Ht; by exists e).
      destruct (byType m !! type e) as [s|] eqn:Hs.
      * exists s. split; [done|]. by apply (listed_Some _ _ _ _ Hs).
      * by destruct (listed_None _ _ i Hs).
    + intros (k & s & Hs & Hi). apply (listed_Some _ _ _ _ Hs), Ht in Hi as (e & He & _).
      by exists e.
  - intros k1 k2 s1 s2 i H1 H2 Hi1 Hi2.
    apply (listed_Some _ _ _ _ H1), Ht in Hi1 as (e1 & He1 & <-).
    apply (listed_Some _ _ _ _ H2), Ht in Hi2 as (e2 & He2 & <-).
    congruence.
Qed.

End LookupFacts.

Section StoreExamples.
Import Store.

Lemma query_returns_stored_matches_witness :
  (∃ i, get i (run [OAdd guard_npc; OAdd guard_item; OAdd traveller] Store.empty)
        = Some traveller) ∧
  matches npcs_of_ironhold traveller.
Proof.
  apply (query_returns_stored_matches npcs_of_ironhold
           (run [OAdd guard_npc; OAdd guard_item; OAdd traveller] Store.empty) traveller).
  vm_compute. left.
Defined.

Lemma query_is_exact_witness :
  traveller ∈ query npcs_of_ironhold
                (run [OAdd guard_npc; OAdd guard_item; OAdd traveller] Store.empty) ↔
  get (id traveller) (run [OAdd guard_npc; OAdd guard_item; OAdd traveller] Store.empty)
    = Some traveller ∧ matches npcs_of_ironhold traveller.
Proof.
  apply (query_is_exact [OAdd guard_npc; OAdd guard_item; OAdd traveller]
           npcs_of_ironhold traveller).
  - repeat constructor.
  - intros cs [= <-]. apply Forall_singleton. intros Hin.
    repeat (apply elem_of_cons in Hin as [Hin|Hin]; [discriminate|]).
    by apply elem_of_nil in Hin.
Defined.

Lemma index_lookups_are_exact_witness :
  (traveller ∈ getByType "npc" (run orderly Store.empty) ↔
     get (id traveller) (run orderly Store.empty) = Some traveller ∧ type traveller = "npc") ∧
  (traveller ∈ getByComponent "stats" (run orderly Store.empty) ↔
     get (id traveller) (run orderly Store.empty) = Some traveller ∧
     "stats" ∈ keys (components traveller)).
Proof.
  apply (index_lookups_are_exact orderly "npc" "stats" traveller).
  simpl. repeat split; try (by left). all: vm_compute; reflexivity.
Defined.

Lemma stats_type_counts_add_up_witness :
  sum_list (snd <$> types (getStats (run orderly Store.empty)))
  = totalEntities (getStats (run orderly Store.empty)).
Proof.
  apply (stats_type_counts_add_up orderly).
  simpl. repeat split; try (by left). all: vm_compute; reflexivity.
Defined.

End StoreExamples.

(** ** The scheduler *)

Section SchedulerFacts.
Import Scheduler.
Context {Ctx W : Type}.
Variable perf_now : W → Z.

Abbreviation Reg := (@SystemRegistration Ctx W).
Abbreviation St := (@State Ctx W).

Lemma same_systems_refl (m : list (string * Reg)) : same_systems m m.
Proof. induction m; constructor; auto. Qed.

Lemma same_systems_trans (m1 m2 m3 : list (string * Reg)) :
  same_systems m1 m2 → same_systems m2 m3 → same_systems m1 m3.
Proof.
  intros H12. revert m3. induction H12 as [|a b m1 m2 Hab _ IH]; intros m3 H23.
  - inversion H23; constructor.
  - inversion H23 as [|b' c m2' m3' Hbc Hrest]; subst. constructor; [|by apply IH].
    destruct Hab as (?&?&?), Hbc as (?&?&?). repeat split; congruence.
Qed.

Lemma same_systems_alter (f : Reg → Reg) k m :
  (∀ r, system (f r) = system r ∧ phase (f r) = phase r) →
  same_systems m (map_alter f k m).
Proof.
  intros Hf. induction m as [|[k' r] m IH]; simpl; constructor; [|exact IH].
  simpl. destruct (String.eqb k k'); simpl; [|done].
  destruct (Hf r) as [-> ->]. done.
Qed.

Lemma same_systems_filter_names (Q : Reg → bool) m m' :
  (∀ r r', system r = system r' → phase r = phase r' → Q r = Q r') →
  same_systems m m' →
  map (λ kr, getName (system (snd kr))) (List.filter (λ kr, Q (snd kr)) m) =
  map (λ kr, getName (system (snd kr))) (List.filter (λ kr, Q (snd kr)) m').
Proof.
  intros HQ Hs. induction Hs as [|a b m m' (Hk & Hsy & Hph) _ IH]; [done|].
  simpl. rewrite (HQ _ _ Hsy Hph).
  destruct (Q (snd b)); simpl; rewrite ?Hsy, IH; done.
Qed.

(** One registration of the snapshot: the call returns, whatever the
    System's [update] does; the System was called iff it is not skipped. *)
Lemma updateOne_returns context kr (st : St) :
  ∃ st', updateOne perf_now context kr st = Normal st' ∧
    tickCount st' = tickCount st ∧
    same_systems (systems st) (systems st') ∧
    calls st' = (calls st ++
      (if skipped (tickCount st) (getUpdateFrequency (system (snd kr)))
       then [] else [getName (system (snd kr))]))%list.
Proof.
  unfold updateOne.
  destruct (skipped _ _).
  - eexists; repeat split; [apply same_systems_refl|by rewrite app_nil_r].
  - destruct (sys_update _ _ _) as [w|w]; simpl;
      eexists; (split; [reflexivity|]); simpl; repeat split.
    + eapply same_systems_trans; apply same_systems_alter; by intros [].
    + apply same_systems_alter; by intros [].
Qed.

Lemma forEach_returns context snapshot : ∀ st : St,
  ∃ st', forEach perf_now context snapshot st = Normal st' ∧
    tickCount st' = tickCount st ∧
    same_systems (systems st) (systems st') ∧
    calls st' = (calls st ++
      map (λ kr, getName (system (snd kr)))
          (List.filter (λ kr, negb (skipped (tickCount st)
                                  (getUpdateFrequency (system (snd kr))))) snapshot))%list.
Proof.
  induction snapshot as [|kr rest IH]; intros st; simpl.
  - eexists; repeat split; [apply same_systems_refl|by rewrite app_nil_r].
  - destruct (updateOne_returns context kr st) as (st1 & -> & Ht1 & Hs1 & Hc1).
    simpl. destruct (IH st1) as (st2 & -> & Ht2 & Hs2 & Hc2).
    eexists; split; [reflexivity|]. repeat split; [congruence| |].
    + eapply same_systems_trans; eassumption.
    + rewrite Hc2, Hc1, Ht1.
      destruct (skipped _ _); simpl.
      * by rewrite app_nil_r.
      * by rewrite <- app_assoc.
Qed.

Lemma due_filter tick ph (m : list (string * Reg)) :
  List.filter (λ kr, negb (skipped tick (getUpdateFrequency (system (snd kr)))))
    (List.filter (λ kr, phase_eqb (phase (snd kr)) ph && isEnabled (system (snd kr))) m)
  = List.filter (λ kr, phase_eqb (phase (snd kr)) ph && due tick kr) m.
Proof.
  induction m as [|kr m IH]; [done|].
  simpl. unfold due at 1.
  destruct (phase_eqb _ _), (isEnabled _); simpl; try done.
  destruct (skipped _ _); simpl; by rewrite IH.
Qed.

Lemma updatePhase_returns ph context (st : St) :
  ∃ st', updatePhase perf_now ph context st = Normal st' ∧
    tickCount st' = tickCount st ∧
    same_systems (systems st) (systems st') ∧
    calls st' = (calls st ++
      map (λ kr, getName (system (snd kr)))
          (List.filter (λ kr, phase_eqb (phase (snd kr)) ph && due (tickCount st) kr)
                       (systems st)))%list.
Proof.
  unfold updatePhase.
  destruct (forEach_returns context
              (List.filter (λ kr, phase_eqb (phase (snd kr)) ph
                                  && isEnabled (system (snd kr))) (systems st)) st)
    as (st' & -> & Ht & Hs & Hc).
  eexists; split; [reflexivity|]. repeat split; [done..|].
  by rewrite Hc, due_filter.
Qed.

Lemma forPhases_returns context ps : ∀ st : St,
  ∃ st', forPhases perf_now ps context st = Normal st' ∧
    tickCount st' = tickCount st ∧
    same_systems (systems st) (systems st') ∧
    calls st' = (calls st ++
      flat_map (λ ph,
        map (λ kr, getName (system (snd kr)))
            (List.filter (λ kr, phase_eqb (phase (snd kr)) ph && due (tickCount st) kr)
                         (systems st))) ps)%list.
Proof.
  induction ps as [|ph ps IH]; intros st; simpl.
  - eexists; repeat split; [apply same_systems_refl|by rewrite app_nil_r].
  - destruct (updatePhase_returns ph context st) as (st1 & -> & Ht1 & Hs1 & Hc1).
    simpl. destruct (IH st1) as (st2 & -> & Ht2 & Hs2 & Hc2).
    eexists; split; [reflexivity|]. repeat split; [congruence| |].
    + eapply same_systems_trans; eassumption.
    + rewrite Hc2, Hc1, Ht1, <- app_assoc. do 2 f_equal.
      apply flat_map_ext. intros ph'. symmetry.
      apply (same_systems_filter_names
               (λ r, phase_eqb (phase r) ph'
                     && (isEnabled (system r)
                         && negb (skipped (tickCount st) (getUpdateFrequency (system r)))))).
      * intros r r' -> ->. done.
      * exact Hs1.
Qed.

(** One tick of the scheduler returns normally whatever the Systems'
    [update] bodies do, and calls exactly the due Systems, phase by
    phase in registration order. *)
Lemma updateAll_returns context (st : St) :
  ∃ st', updateAll perf_now context st = Normal st' ∧
    tickCount st' = tickCount st + 1 ∧
    same_systems (systems st) (systems st') ∧
    calls st' = (calls st ++ due_names (tickCount st + 1) (systems st))%list.
Proof.
  unfold updateAll.
  destruct (forPhases_returns context phases
              (mkState (systems st) (tickCount st + 1) (world st) (calls st)))
    as (st' & -> & Ht & Hs & Hc).
  eexists; split; [reflexivity|]. by repeat split.
Qed.

End SchedulerFacts.

(** ** What the calls of a tick do *)

Section SchedulerEffects.
Import Scheduler.
Context {Ctx W : Type}.
Variable perf_now : W → Z.

Lemma tallied_nil tick (a : string * @SystemRegistration Ctx W) : tallied tick [] a a.
Proof. unfold tallied. simpl. repeat split. lia. Qed.

Lemma tallied_app tick log1 log2 (a b c : string * @SystemRegistration Ctx W) :
  tallied tick log1 a b → tallied tick log2 b c → tallied tick (log1 ++ log2) a c.
Proof.
  intros (Hk1 & Hs1 & Hp1 & Hu1 & Hl1) (Hk2 & Hs2 & Hp2 & Hu2 & Hl2).
  unfold tallied, returns_of, calls_of in *.
  rewrite !List.filter_app, length_app. rewrite Hk1 in *.
  repeat split; try congruence; [lia|].
  rewrite Hl2.
  destruct (List.filter (λ e : string * System * bool, String.eqb (fst (fst e)) (fst a))
                        log2); [by rewrite app_nil_r|].
  by destruct (List.filter (λ e : string * System * bool, String.eqb (fst (fst e)) (fst a))
                           log1).
Qed.

Lemma tallied_all_nil tick (m : list (string * @SystemRegistration Ctx W)) :
  Forall2 (tallied tick []) m m.
Proof. induction m; constructor; [apply tallied_nil|done]. Qed.

Lemma tallied_all_app tick log1 log2 (m1 m2 m3 : list (string * @SystemRegistration Ctx W)) :
  Forall2 (tallied tick log1) m1 m2 → Forall2 (tallied tick log2) m2 m3 →
  Forall2 (tallied tick (log1 ++ log2)) m1 m3.
Proof.
  intros H12. revert m3. induction H12 as [|a b m1 m2 Hab _ IH]; intros m3 H23.
  - inversion H23. constructor.
  - inversion H23 as [|b' c m2' m3' Hbc Hrest]; subst.
    constructor; [by eapply tallied_app|by apply IH].
Qed.

Lemma tallied_same_systems tick log (m m' : list (string * @SystemRegistration Ctx W)) :
  Forall2 (tallied tick log) m m' → same_systems m m'.
Proof.
  induction 1 as [|a b m m' (Hk & Hs & Hp & _) _ IH]; constructor; [|done].
  by repeat split.
Qed.

(** The two mutations that [updatePhase] makes to the registration it
    has just called. *)
Lemma called_tallied tick key sy (r : bool) (f g : @SystemRegistration Ctx W → _) m :
  (∀ x, system (f x) = system x ∧ phase (f x) = phase x ∧
        updateCount (f x) = updateCount x + 1 ∧ lastUpdate (f x) = lastUpdate x) →
  (∀ x, system (g x) = system x ∧ phase (g x) = phase x ∧
        updateCount (g x) = updateCount x ∧ lastUpdate (g x) = tick) →
  Forall2 (tallied tick [(key, sy, r)]) m
          (map_alter g key (if r then map_alter f key m else m)).
Proof.
  intros Hf Hg. induction m as [|[k x] m IH]; [destruct r; constructor|].
  assert (tallied tick [(key, sy, r)] (k, x)
            (if String.eqb key k then (k, g (if r then f x else x)) else (k, x))) as Hx.
  { unfold tallied, returns_of, calls_of. simpl.
    destruct (String.eqb key k); simpl; [|repeat split; lia].
    destruct (Hg (if r then f x else x)) as (-> & -> & -> & ->).
    destruct r; simpl; [|repeat split; lia].
    destruct (Hf x) as (-> & -> & -> & _). by repeat split. }
  destruct r; simpl in *; destruct (String.eqb key k) eqn:E; simpl; rewrite ?E;
    constructor; try exact Hx; exact IH.
Qed.

Lemma updateOne_effect context kr (st : @State Ctx W) :
  ∃ st', updateOne perf_now context kr st = Normal st' ∧
    tickCount st' = tickCount st ∧
    world st' =
      snd (serve context
             (if skipped (tickCount st) (getUpdateFrequency (system (snd kr)))
              then [] else [kr]) (world st)) ∧
    Forall2 (tallied (tickCount st)
               (fst (serve context
                       (if skipped (tickCount st) (getUpdateFrequency (system (snd kr)))
                        then [] else [kr]) (world st))))
            (systems st) (systems st').
Proof.
  unfold updateOne. destruct (skipped _ _).
  - exists st. repeat split. apply tallied_all_nil.
  - simpl.
    destruct (sys_update (system (snd kr)) context (world st)) as [w|w]; simpl;
      eexists; (split; [reflexivity|]); simpl; (split; [done|]); (split; [done|]).
    + apply (called_tallied (tickCount st) (fst kr) (system (snd kr)) true); by intros [].
    + apply (called_tallied (tickCount st) (fst kr) (system (snd kr)) false
               (λ x, mkReg (system x) (phase x) (lastUpdate x)
                           (updateCount x + 1) (totalTime x))); by intros [].
Qed.

Lemma serve_app (context : Ctx) (l1 l2 : list (string * @SystemRegistration Ctx W)) :
  ∀ w : W,
  serve context (l1 ++ l2) w =
  ((fst (serve context l1 w) ++ fst (serve context l2 (snd (serve context l1 w))))%list,
   snd (serve context l2 (snd (serve context l1 w)))).
Proof.
  induction l1 as [|kr l1 IH]; intros w; simpl.
  - by destruct (serve context l2 w).
  - rewrite IH. destruct (serve context l1 _) as [log1 w1]. simpl.
    by destruct (serve context l2 w1).
Qed.

Lemma serve_same_systems (context : Ctx) (l l' : list (string * @SystemRegistration Ctx W)) :
  same_systems l l' → ∀ w, serve context l w = serve context l' w.
Proof.
  induction 1 as [|a b l l' (Hk & Hs & _) _ IH]; intros w; simpl; [done|].
  by rewrite Hk, Hs, IH.
Qed.

Lemma serve_names (context : Ctx) (l : list (string * @SystemRegistration Ctx W)) :
  ∀ w : W,
  names_called (fst (serve context l w)) = map name_of l.
Proof.
  induction l as [|kr l IH]; intros w; simpl; [done|].
  specialize (IH (state_of (sys_update (system (snd kr)) context w))).
  destruct (serve context l _) as [log w']. simpl in *. by rewrite IH.
Qed.

Lemma same_systems_filter (Q : @SystemRegistration Ctx W → bool) m m' :
  (∀ r r', system r = system r' → phase r = phase r' → Q r = Q r') →
  same_systems m m' →
  same_systems (List.filter (λ kr, Q (snd kr)) m) (List.filter (λ kr, Q (snd kr)) m').
Proof.
  intros HQ. induction 1 as [|a b m m' (Hk & Hs & Hp) _ IH]; simpl; [constructor|].
  rewrite (HQ _ _ Hs Hp). destruct (Q (snd b)); [constructor|]; done.
Qed.

Lemma same_systems_due tick ps (m m' : list (string * @SystemRegistration Ctx W)) :
  same_systems m m' →
  same_systems
    (flat_map (λ ph, List.filter (λ kr, phase_eqb (phase (snd kr)) ph && due tick kr) m) ps)
    (flat_map (λ ph, List.filter (λ kr, phase_eqb (phase (snd kr)) ph && due tick kr) m') ps).
Proof.
  intros Hs. induction ps as [|ph ps IH]; simpl; [constructor|].
  apply Forall2_app; [|exact IH].
  apply (same_systems_filter
           (λ r, phase_eqb (phase r) ph
                 && (isEnabled (system r)
                     && negb (skipped tick (getUpdateFrequency (system r)))))); [|done].
  by intros r r' -> ->.
Qed.

Lemma forEach_effect context snapshot : ∀ st : @State Ctx W,
  ∃ st', forEach perf_now context snapshot st = Normal st' ∧
    tickCount st' = tickCount st ∧
    world st' =
      snd (serve context
             (List.filter (λ kr, negb (skipped (tickCount st)
                                     (getUpdateFrequency (system (snd kr))))) snapshot)
             (world st)) ∧
    Forall2 (tallied (tickCount st)
               (fst (serve context
                       (List.filter (λ kr, negb (skipped (tickCount st)
                                               (getUpdateFrequency (system (snd kr)))))
                                    snapshot)
                       (world st))))
            (systems st) (systems st').
Proof.
  induction snapshot as [|kr rest IH]; intros st.
  - exists st. repeat split. apply tallied_all_nil.
  - assert (List.filter (λ kr0, negb (skipped (tickCount st)
                                   (getUpdateFrequency (system (snd kr0))))) (kr :: rest)
            = ((if skipped (tickCount st) (getUpdateFrequency (system (snd kr)))
                then [] else [kr]) ++
               List.filter (λ kr0, negb (skipped (tickCount st)
                                      (getUpdateFrequency (system (snd kr0))))) rest)%list)
      as ->.
    { simpl. by destruct (skipped _ _). }
    rewrite serve_app. cbn [forEach fst snd].
    destruct (updateOne_effect context kr st) as (st1 & -> & Ht1 & Hw1 & Hs1).
    cbn [andThen]. destruct (IH st1) as (st2 & -> & Ht2 & Hw2 & Hs2).
    exists st2. split; [done|]. split; [congruence|].
    rewrite Ht1 in Hw2, Hs2. rewrite Hw1 in Hw2, Hs2. split; [done|].
    eapply tallied_all_app; eassumption.
Qed.

Lemma forPhases_effect context ps : ∀ st : @State Ctx W,
  ∃ st', forPhases perf_now ps context st = Normal st' ∧
    tickCount st' = tickCount st ∧
    world st' =
      snd (serve context
             (flat_map (λ ph, List.filter (λ kr, phase_eqb (phase (snd kr)) ph
                                               && due (tickCount st) kr) (systems st)) ps)
             (world st)) ∧
    Forall2 (tallied (tickCount st)
               (fst (serve context
                       (flat_map (λ ph, List.filter (λ kr, phase_eqb (phase (snd kr)) ph
                                                         && due (tickCount st) kr)
                                                    (systems st)) ps)
                       (world st))))
            (systems st) (systems st').
Proof.
  induction ps as [|ph ps IH]; intros st.
  - exists st. repeat split. apply tallied_all_nil.
  - cbn [flat_map]. rewrite serve_app. cbn [forPhases fst snd]. unfold updatePhase.
    destruct (forEach_effect context
                (List.filter (λ kr, phase_eqb (phase (snd kr)) ph
                                    && isEnabled (system (snd kr))) (systems st)) st)
      as (st1 & -> & Ht1 & Hw1 & Hs1).
    rewrite due_filter in Hw1, Hs1.
    cbn [andThen]. destruct (IH st1) as (st2 & -> & Ht2 & Hw2 & Hs2).
    exists st2. split; [done|]. split; [congruence|].
    rewrite Ht1 in Hw2, Hs2.
    rewrite <- (serve_same_systems context _ _
                  (same_systems_due (tickCount st) ps _ _
                     (tallied_same_systems _ _ _ _ Hs1))) in Hw2, Hs2.
    rewrite Hw1 in Hw2, Hs2. split; [done|].
    eapply tallied_all_app; eassumption.
Qed.

Lemma due_names_regs tick (m : list (string * @SystemRegistration Ctx W)) :
  due_names tick m = map name_of (due_regs tick m).
Proof. unfold due_names, due_regs, phases. simpl. by rewrite !map_app. Qed.

(** One tick of the scheduler, by what it does: it returns; the world is
    what the [update]s of the due Systems make of it, called one after
    the other, a throwing one included; and every registration has been
    tallied for the calls made to it. *)
Lemma updateAll_effect context (st : @State Ctx W) :
  ∃ st', updateAll perf_now context st = Normal st' ∧
    tickCount st' = tickCount st + 1 ∧
    calls st' = (calls st ++ due_names (tickCount st + 1) (systems st))%list ∧
    world st' =
      snd (serve context (due_regs (tickCount st + 1) (systems st)) (world st)) ∧
    Forall2 (tallied (tickCount st + 1)
               (fst (serve context (due_regs (tickCount st + 1) (systems st))
                           (world st))))
            (systems st) (systems st').
Proof.
  destruct (updateAll_returns perf_now context st) as (st' & Hu & Ht & _ & Hc).
  exists st'. split; [done|]. split; [done|]. split; [done|].
  unfold updateAll in Hu.
  destruct (forPhases_effect context phases
              (mkState (systems st) (tickCount st + 1) (world st) (calls st)))
    as (st2 & Hu2 & _ & Hw & Hs).
  rewrite Hu in Hu2. injection Hu2 as <-. by split.
Qed.

Lemma serve_ticks_same_systems (contexts : list Ctx)
    (m m' : list (string * @SystemRegistration Ctx W)) :
  same_systems m m' → ∀ tick w, serve_ticks contexts tick m w = serve_ticks contexts tick m' w.
Proof.
  intros Hs. induction contexts as [|c rest IH]; intros tick w; simpl; [done|].
  rewrite (serve_same_systems c _ _ (same_systems_due (tick + 1) phases _ _ Hs)).
  destruct (serve c _ w) as [log w1]. by rewrite IH.
Qed.

(** Any number of ticks, by what they do. *)
Lemma updates_effect contexts : ∀ st : @State Ctx W,
  ∃ st', updates perf_now contexts st = Normal st' ∧
    same_systems (systems st) (systems st') ∧
    world st' = snd (serve_ticks contexts (tickCount st) (systems st) (world st)) ∧
    calls st' = (calls st ++ names_called
                   (fst (serve_ticks contexts (tickCount st) (systems st) (world st))))%list.
Proof.
  induction contexts as [|c rest IH]; intros st; simpl.
  - exists st. split; [done|]. split; [apply same_systems_refl|].
    split; [done|]. by rewrite app_nil_r.
  - destruct (updateAll_effect c st) as (st1 & -> & Ht1 & Hc1 & Hw1 & Hs1). simpl.
    apply tallied_same_systems in Hs1.
    destruct (IH st1) as (st2 & -> & Hs2 & Hw2 & Hc2).
    exists st2. split; [done|]. split; [by eapply same_systems_trans|].
    rewrite Ht1, <- (serve_ticks_same_systems rest _ _ Hs1) in Hw2, Hc2.
    rewrite Hw1 in Hw2, Hc2. rewrite Hc1, due_names_regs in Hc2.
    pose proof (serve_names c (due_regs (tickCount st + 1) (systems st)) (world st)) as Hn.
    destruct (serve c (due_regs (tickCount st + 1) (systems st)) (world st)) as [log w1].
    simpl in *.
    destruct (serve_ticks rest (tickCount st + 1) (systems st) w1) as [logs w2].
    simpl in *. split; [done|].
    rewrite Hc2. unfold names_called in *. by rewrite map_app, <- Hn, <- app_assoc.
Qed.

End SchedulerEffects.

(** ** The fixed-timestep loop *)

Section LoopFacts.
Import Loop.
Context {R : Type} `{Number R} {S : Type}.



Lemma ticks_running_sum (cb : SystemUpdateContext R → S → Outcome S) fuel :
  ∀ g s g' s',
    totalTime g = running_sum (fixedDeltaTime g) (tickCount g) →
    ticks cb fuel g s = Some (Normal (g', s')) →
    totalTime g' = running_sum (fixedDeltaTime g') (tickCount g') ∧
    fixedDeltaTime g' = fixedDeltaTime g ∧ isRunning g' = isRunning g.
Proof.
  induction fuel as [|fuel IH]; intros g s g' s' Hsum; simpl;
    destruct (num_ge _ _); try discriminate; try (by intros [= <- <-]).
  destruct (cb _ s) as [s1|s1]; simpl; intros Ht;
    apply IH in Ht as (? & ? & ?); try done; simpl; by rewrite Hsum.
Qed.

Lemma frames_running_sum (cb : SystemUpdateContext R → S → Outcome S) fuel times :
  ∀ g s g' s',
    totalTime g = running_sum (fixedDeltaTime g) (tickCount g) →
    frames cb fuel times (g, s) = Some (Normal (g', s')) →
    totalTime g' = running_sum (fixedDeltaTime g') (tickCount g').
Proof.
  induction times as [|t times IH]; intros g s g' s' Hsum; simpl.
  - by intros [= <- <-].
  - unfold loop; simpl. destruct (isRunning g).
    + destruct (ticks cb fuel (accumulate t g) s) as [[[g1 s1]|?]|] eqn:Ht;
        try discriminate.
      apply ticks_running_sum in Ht as (? & ? & ?); [|done]. by apply IH.
    + by apply IH.
Qed.

(** In any arithmetic, IEEE doubles included: after a session,
    [totalTime] is the tick duration added up [tickCount] times. *)
Theorem session_running_sum (cb : SystemUpdateContext R → S → Outcome S)
    fuel fps t0 times s g s' :
  session cb fuel fps t0 times s = Some (Normal (g, s')) →
  getTotalTime g = running_sum (fixedDeltaTime g) (getTickCount g).
Proof.
  unfold session, start, loop. simpl.
  destruct (ticks cb fuel _ s) as [[[g1 s1]|?]|] eqn:Ht; try discriminate.
  apply ticks_running_sum in Ht as (? & ? & ?); [|done].
  by apply frames_running_sum.
Qed.

(** C10: [start()] on a stopped loop runs its first frame from a state in
    which [tickCount], [totalTime] and the accumulator are zero, so two
    stopped loops that were constructed alike start identically whatever
    their previous runs left in the counters; [start()] on a running loop
    changes nothing. *)
Theorem start_resets_counters (cb : SystemUpdateContext R → S → Outcome S)
    fuel now (g g0 : GameLoop R) s :
  same_settings g g0 →
  (isRunning g = true → start cb fuel now (g, s) = Some (Normal (g, s))) ∧
  (isRunning g = false → isRunning g0 = false →
     start cb fuel now (g, s) = loop cb fuel now (reset now g, s) ∧
     getTickCount (reset now g) = 0%nat ∧
     getTotalTime (reset now g) = num_zero ∧
     accumulator (reset now g) = num_zero ∧
     start cb fuel now (g0, s) = start cb fuel now (g, s)).
Proof.
  intros (Hid & Hfps & HT & Hmax). split.
  - unfold start. simpl. by intros ->.
  - intros Hg Hg0. unfold start. simpl. rewrite Hg, Hg0.
    repeat split. unfold reset. by rewrite Hid, Hfps, HT, Hmax.
Qed.

End LoopFacts.

(** *** The tick count, frame by frame *)

Section TickCount.
Import Loop.
Context {R : Type} `{Number R} {S : Type}.
Variable cb : SystemUpdateContext R → S → Outcome S.










End TickCount.

Section LoopExamples.
Import Loop.

Lemma start_resets_counters_witness :
  start idle 32 (float_of_Z 500) (new (float_of_Z 60), tt)
  = start idle 32 (float_of_Z 500) (worn_loop, tt).
Proof.
  apply (start_resets_counters idle 32 (float_of_Z 500) worn_loop
           (new (float_of_Z 60)) tt); [|reflexivity..].
  repeat split.
Defined.


Lemma session_running_sum_witness :
  ∃ g, sixty_fps_two_frames = Some (Normal (g, tt)) ∧
       getTotalTime g = running_sum (fixedDeltaTime g) (getTickCount g).
Proof.
  eexists. split; [vm_compute; reflexivity|].
  apply (session_running_sum idle 32 (float_of_Z 60) (float_of_Z 0)
           [float_of_Z 100; float_of_Z 200] tt _ tt).
  vm_compute. reflexivity.
Defined.


End LoopExamples.

(** ** Fault isolation, from the Systems up to the loop *)

Section FaultIsolation.
Import Scheduler Loop World.
Context {R : Type} `{Number R} {W : Type}.
Variable perf_now : W → Z.



End FaultIsolation.

Section FaultIsolationExample.
Import Scheduler World.

(** A System that throws in the [update] phase, its sibling in the same
    phase and a System of a later phase: all three are called, the two
    healthy ones do their work, and only their [updateCount] moves. *)
Example faulty_system_does_not_stop_the_others :
  ∃ st', updateAll (λ w, w)
           (Loop.mkContext (Loop.float_of_Z 16) (Loop.float_of_Z 0) 0%nat) three_systems
           = Normal st' ∧
         calls st' = ["Faulty"; "Sibling"; "Late"] ∧
         world st' = 2 ∧
         map (λ kr, (fst kr, updateCount (snd kr), lastUpdate (snd kr))) (systems st')
           = [("Faulty", 0, 1); ("Sibling", 1, 1); ("Late", 1, 1)].
Proof. eexists. split; [reflexivity|]. repeat split. Qed.

End FaultIsolationExample.

(** ** The loop at rest and paused *)

Section LoopEdges.
Import Loop.
Context {R : Type} `{Number R} {S : Type}.
Variable cb : SystemUpdateContext R → S → Outcome S.

(** After [stop()] the frame callbacks that still arrive do nothing: the
    callback is not called and the counters keep the values they had, so
    [getTickCount()] and [getTotalTime()] can still be read. *)
Theorem stopped_loop_ignores_frames fuel times (g : GameLoop R) s :
  frames cb fuel times (stop g, s) = Some (Normal (stop g, s)) ∧
  getTickCount (stop g) = getTickCount g ∧
  getTotalTime (stop g) = getTotalTime g ∧
  stop (stop g) = stop g.
Proof.
  assert (isRunning (stop g) = false) as Hoff.
  { unfold stop. destruct (isRunning g) eqn:Hg; done. }
  repeat split.
  - induction times as [|t times IH]; simpl; [done|].
    unfold loop. simpl. by rewrite Hoff.
  - unfold stop. by destruct (isRunning g).
  - unfold stop. by destruct (isRunning g).
  - unfold stop at 1. by rewrite Hoff.
Qed.

Lemma ticks_fixed fuel s :
  (∀ c, cb c s = Normal s) →
  ∀ g r, ticks cb fuel g s = Some r → snd (state_of r) = s.
Proof.
  intros Hcb. induction fuel as [|fuel IH]; intros g r; simpl;
    destruct (num_ge _ _); try discriminate; try (by intros [= <-]).
  rewrite Hcb. simpl. apply IH.
Qed.

Lemma frames_fixed fuel s times :
  (∀ c, cb c s = Normal s) →
  ∀ g r, frames cb fuel times (g, s) = Some r → snd (state_of r) = s.
Proof.
  intros Hcb. induction times as [|t times IH]; intros g r; simpl.
  - by intros [= <-].
  - unfold loop. simpl. destruct (isRunning g); [|apply IH].
    destruct (ticks cb fuel (accumulate t g) s) as [[[g1 s1]|[g1 s1]]|] eqn:Ht;
      try discriminate.
    + apply ticks_fixed in Ht; [|done]. simpl in Ht. subst s1. apply IH.
    + intros [= <-]. by apply ticks_fixed in Ht.
Qed.

End LoopEdges.

Section PausedWorld.
Import Scheduler Loop World.
Context {R : Type} `{Number R} {W : Type}.
Variable perf_now : W → Z.

(** While the world is paused the loop keeps counting ticks, but no
    System is updated and the scheduler's own tick counter stands still:
    a session of any length hands the paused world back as it was. *)
Theorem paused_world_sits_out_the_ticks fuel fps t0 times
    (gw : GameWorld (R := R) (W := W)) r :
  paused gw = true →
  session (World.update perf_now) fuel fps t0 times gw = Some r →
  snd (state_of r) = gw.
Proof.
  intros Hp. assert (∀ c, World.update perf_now c gw = Normal gw) as Hcb.
  { intros c. unfold World.update. by rewrite Hp. }
  unfold session, start, loop. simpl.
  destruct (ticks _ fuel _ gw) as [[[g1 s1]|[g1 s1]]|] eqn:Ht; try discriminate.
  - apply ticks_fixed in Ht; [|done]. simpl in Ht. subst s1.
    by apply frames_fixed.
  - intros [= <-]. by apply ticks_fixed in Ht.
Qed.

End PausedWorld.

(** ** The schedule over many ticks *)

Section ScheduleFacts.
Import Scheduler.
Context {Ctx W : Type}.
Variable perf_now : W → Z.

Lemma due_names_same_systems tick (m m' : list (string * @SystemRegistration Ctx W)) :
  same_systems m m' → due_names tick m = due_names tick m'.
Proof.
  intros Hs. unfold due_names. apply flat_map_ext. intros ph.
  apply (same_systems_filter_names
           (λ r, phase_eqb (phase r) ph
                 && (isEnabled (system r)
                     && negb (skipped tick (getUpdateFrequency (system r)))))); [|done].
  by intros r r' -> ->.
Qed.

Lemma updates_snoc contexts context : ∀ st : @State Ctx W,
  updates perf_now (contexts ++ [context]) st
  = andThen (updates perf_now contexts st) (updateAll perf_now context).
Proof.
  induction contexts as [|c rest IH]; intros st; simpl.
  - by destruct (updateAll perf_now context st).
  - destruct (updateAll perf_now c st) as [st1|st1]; simpl; [apply IH|done].
Qed.

Lemma count_absent name (Q : string * @SystemRegistration Ctx W → bool) m :
  name ∉ map name_of m →
  List.filter (String.eqb name) (map name_of (List.filter Q m)) = [].
Proof.
  induction m as [|a m IH]; [done|]. simpl. intros Hn.
  apply not_elem_of_cons in Hn as [Ha Hn].
  destruct (Q a); simpl; [|by apply IH].
  destruct (String.eqb_spec name (name_of a)); [done|by apply IH].
Qed.

Lemma count_phase (Q : string * @SystemRegistration Ctx W → bool) m kr :
  NoDup (map name_of m) → kr ∈ m →
  List.filter (String.eqb (name_of kr)) (map name_of (List.filter Q m))
  = if Q kr then [name_of kr] else [].
Proof.
  induction m as [|a m IH]; intros Hnd Hin; [by apply elem_of_nil in Hin|].
  simpl in Hnd. apply NoDup_cons in Hnd as [Ha Hnd].
  apply elem_of_cons in Hin as [<-|Hin]; simpl.
  - destruct (Q kr); simpl; rewrite ?String.eqb_refl, count_absent; done.
  - assert (name_of kr ≠ name_of a) as Hne.
    { intros Heq. apply Ha. rewrite <- Heq. apply list_elem_of_fmap. by exists kr. }
    destruct (Q a); simpl; [|by apply IH].
    destruct (String.eqb_spec (name_of kr) (name_of a)); [done|by apply IH].
Qed.

Lemma count_due_names tick (m : list (string * @SystemRegistration Ctx W)) kr :
  NoDup (map name_of m) → kr ∈ m →
  List.filter (String.eqb (name_of kr)) (due_names tick m)
  = if due tick kr then [name_of kr] else [].
Proof.
  intros Hnd Hin. unfold due_names, phases. simpl.
  rewrite !List.filter_app.
  rewrite !(count_phase (λ kr', phase_eqb (phase (snd kr')) _ && due tick kr') m kr Hnd Hin).
  destruct (phase (snd kr)), (due tick kr); reflexivity.
Qed.

Lemma div_step (k n : Z) :
  (0 ≤ k)%Z → (0 < n)%Z →
  ((k + 1) / n = k / n + (if skipped (k + 1) n then 0 else 1))%Z.
Proof.
  intros Hk Hn. unfold skipped.
  destruct (Z.eqb_spec n 0) as [->|_]; [lia|].
  rewrite Z.rem_mod_nonneg by lia.
  pose proof (Z.div_mod k n ltac:(lia)) as Hdm.
  pose proof (Z.mod_pos_bound k n Hn) as Hb.
  destruct (Z.eqb_spec ((k + 1) mod n) 0) as [Hz|Hnz]; simpl.
  - assert (k mod n + 1 = n) as Hr.
    { destruct (Z.eq_dec (k mod n + 1) n) as [|Hne]; [done|]. exfalso.
      assert ((k + 1) mod n = k mod n + 1) as Hm; [|lia].
      symmetry. apply (Z.mod_unique_pos _ _ (k / n)); lia. }
    symmetry. apply (Z.div_unique_pos _ _ _ 0); lia.
  - symmetry. apply (Z.div_unique_pos _ _ _ (k mod n + 1)); [|lia].
    split; [lia|].
    destruct (Z.eq_dec (k mod n + 1) n) as [Heq|]; [|lia].
    exfalso. apply Hnz. replace (k + 1) with ((k / n + 1) * n) by lia.
    apply Z.mod_mul. lia.
Qed.

Lemma frequency_count contexts (st : @State Ctx W) kr :
  tickCount st = 0 → calls st = [] →
  NoDup (map name_of (systems st)) → kr ∈ systems st →
  isEnabled (system (snd kr)) = true →
  (0 < getUpdateFrequency (system (snd kr)))%Z →
  ∃ st', updates perf_now contexts st = Normal st' ∧
    tickCount st' = Z.of_nat (length contexts) ∧
    Z.of_nat (times_updated (name_of kr) st')
      = (Z.of_nat (length contexts) / getUpdateFrequency (system (snd kr)))%Z.
Proof.
  intros Ht0 Hc0 Hnd Hin Hen Hn.
  assert (∃ st', updates perf_now contexts st = Normal st' ∧
            tickCount st' = Z.of_nat (length contexts) ∧
            same_systems (systems st) (systems st') ∧
            Z.of_nat (times_updated (name_of kr) st')
              = (Z.of_nat (length contexts) / getUpdateFrequency (system (snd kr)))%Z)
    as (st' & ? & ? & _ & ?); [|by exists st'].
  induction contexts as [|context contexts IH] using rev_ind.
  - exists st. simpl. unfold times_updated. rewrite Ht0, Hc0.
    split; [done|]. split; [done|]. split; [apply same_systems_refl|].
    simpl. by rewrite Z.div_0_l by lia.
  - destruct IH as (st1 & Hu & Ht1 & Hs1 & Hcount).
    rewrite updates_snoc, Hu. simpl.
    destruct (updateAll_returns perf_now context st1) as (st2 & -> & Ht2 & Hs2 & Hc2).
    exists st2. split; [done|]. rewrite length_app. simpl. repeat split.
    + lia.
    + eapply same_systems_trans; eassumption.
    + unfold times_updated in *. rewrite Hc2, List.filter_app, length_app.
      rewrite <- (due_names_same_systems _ _ _ Hs1), count_due_names by done.
      rewrite Nat2Z.inj_add, Hcount, Ht1.
      replace (Z.of_nat (length contexts + 1)) with (Z.of_nat (length contexts) + 1) by lia.
      rewrite div_step by lia. unfold due. rewrite Hen. simpl.
      by destruct (skipped _ _).
Qed.

(** A System with update frequency [n] is called in every [n]-th tick.
    After [k] ticks of a new scheduler the world is what the [update]s
    of the Systems due in ticks 1 to [k] have made of it, called one
    after the other, exceptions included; those are the calls made, and
    to an enabled System of frequency [n > 0] there were [k / n] of them
    (rounded down). *)
Theorem frequency_schedule contexts (st : @State Ctx W) kr :
  tickCount st = 0 → calls st = [] →
  NoDup (map name_of (systems st)) → kr ∈ systems st →
  isEnabled (system (snd kr)) = true →
  (0 < getUpdateFrequency (system (snd kr)))%Z →
  ∃ st', updates perf_now contexts st = Normal st' ∧
    tickCount st' = Z.of_nat (length contexts) ∧
    world st' = snd (serve_ticks contexts 0 (systems st) (world st)) ∧
    calls st' = names_called (fst (serve_ticks contexts 0 (systems st) (world st))) ∧
    Z.of_nat (times_updated (name_of kr) st')
      = (Z.of_nat (length contexts) / getUpdateFrequency (system (snd kr)))%Z.
Proof.
  intros Ht0 Hc0 Hnd Hin Hen Hn.
  destruct (frequency_count contexts st kr Ht0 Hc0 Hnd Hin Hen Hn) as (st' & Hu & Ht & Hk).
  destruct (updates_effect perf_now contexts st) as (st2 & Hu2 & _ & Hw & Hc).
  rewrite Hu in Hu2. injection Hu2 as <-.
  exists st'. rewrite Ht0, Hc0 in *. by repeat split.
Qed.

End ScheduleFacts.

(** ** The entity factory *)

Section FactoryFacts.
Import Factory.

(** Induction on component data that reaches into arrays and objects. *)
Lemma value_ind_nested (P : value → Prop) :
  P VUndefined → P VNull → (∀ b, P (VBool b)) → (∀ n, P (VNum n)) → (∀ s, P (VStr s)) →
  (∀ items extra, Forall P items → Forall (λ kv, P (snd kv)) extra → P (VArr items extra)) →
  (∀ fs, Forall (λ kv, P (snd kv)) fs → P (VObj fs)) →
  ∀ v, P v.
Proof.
  intros Hu Hn Hb Hz Hs Ha Ho.
  fix IH 1. intros [| |b|n|s|items extra|fs];
    [exact Hu|exact Hn|apply Hb|apply Hz|apply Hs| |].
  - apply Ha.
    + induction items as [|x items IHi]; constructor; [apply IH|exact IHi].
    + induction extra as [|[k x] extra IHe]; constructor; [apply IH|exact IHe].
  - apply Ho. induction fs as [|[k x] fs IHf]; constructor; [apply IH|exact IHf].
Qed.

Lemma assoc_set_assoc_eq k v fs : assoc k (set_assoc k v fs) = Some v.
Proof.
  induction fs as [|[k' v'] fs IH]; simpl.
  - by rewrite String.eqb_refl.
  - destruct (String.eqb k k') eqn:E; simpl; rewrite ?String.eqb_refl, ?E; done.
Qed.

Lemma assoc_set_assoc_ne k k' v fs :
  k ≠ k' → assoc k' (set_assoc k v fs) = assoc k' fs.
Proof.
  intros Hne. induction fs as [|[k0 v0] fs IH]; simpl.
  - destruct (String.eqb_spec k' k); [congruence|done].
  - destruct (String.eqb_spec k k0) as [->|]; simpl.
    + destruct (String.eqb_spec k' k0); [congruence|done].
    + destruct (String.eqb_spec k' k0); [done|exact IH].
Qed.

Lemma assoc_None k fs : k ∉ keys fs → assoc k fs = None.
Proof.
  induction fs as [|[k' v'] fs IH]; simpl; [done|].
  intros Hk. apply not_elem_of_cons in Hk as [Hne Hk].
  destruct (String.eqb_spec k k'); [done|by apply IH].
Qed.

Lemma assoc_Some_elem k v fs : assoc k fs = Some v → (k, v) ∈ fs.
Proof.
  induction fs as [|[k' v'] fs IH]; simpl; [done|].
  destruct (String.eqb_spec k k') as [->|].
  - intros [= ->]. by left.
  - intros H. right. by apply IH.
Qed.

Lemma set_assoc_fresh k v fs : k ∉ keys fs → set_assoc k v fs = (fs ++ [(k, v)])%list.
Proof.
  induction fs as [|[k' v'] fs IH]; simpl; [done|].
  intros Hk. apply not_elem_of_cons in Hk as [Hne Hk].
  destruct (String.eqb_spec k k'); [done|]. by rewrite IH.
Qed.

Lemma keys_set_assoc_in k v fs : k ∈ keys fs → keys (set_assoc k v fs) = keys fs.
Proof.
  induction fs as [|[k' v'] fs IH]; simpl; [by intros ?%elem_of_nil|].
  destruct (String.eqb_spec k k') as [->|Hne]; [done|].
  intros [?|Hk]%elem_of_cons; [done|]. simpl. by rewrite IH.
Qed.

(** Rebuilding an object key by key gives the object back when no key
    occurs twice. *)
Lemma clone_entries_id (clone : value → value) fs : ∀ cloned,
  NoDup (keys fs) →
  Forall (λ kv, clone (snd kv) = snd kv) fs →
  (∀ k, k ∈ keys fs → k ∉ keys cloned) →
  clone_entries clone fs cloned = (cloned ++ fs)%list.
Proof.
  induction fs as [|[k v] fs IH]; intros cloned Hnd Hid Hdisj; simpl.
  - by rewrite app_nil_r.
  - apply NoDup_cons in Hnd as [Hk Hnd]. apply Forall_cons in Hid as [Hv Hid].
    simpl in *. rewrite Hv, set_assoc_fresh by (apply Hdisj; by left).
    rewrite IH; [by rewrite <- app_assoc|done|done|].
    intros k' Hk'. unfold keys. rewrite map_app. simpl.
    intros [?|?%list_elem_of_singleton]%elem_of_app; [|by subst].
    by apply (Hdisj k'); [right|].
Qed.

Lemma deepClone_plain v : plain v → deepClone v = v.
Proof.
  induction v as [| | | | |items extra IHi _|fs IHf] using value_ind_nested;
    try done; intros Hp; inversion Hp as [| | | | |? Hall|? Hnd Hall]; subst; simpl.
  - f_equal. rewrite <- (map_id items) at 2. apply map_ext_Forall.
    rewrite Forall_forall in *. intros x Hx. apply IHi; auto.
  - f_equal. rewrite clone_entries_id; [done|done| |by intros ? _ ?%elem_of_nil].
    rewrite Forall_forall in *. intros kv Hkv. apply IHf; auto.
Qed.

Lemma spec_entries_empty merge cf : ∀ acc,
  NoDup (keys cf) → (∀ k, k ∈ keys cf → k ∉ keys acc) →
  spec_entries merge [] cf acc = (acc ++ cf)%list.
Proof.
  induction cf as [|[k v] cf IH]; intros acc Hnd Hdisj; simpl.
  - by rewrite app_nil_r.
  - apply NoDup_cons in Hnd as [Hk Hnd].
    rewrite set_assoc_fresh by (apply Hdisj; by left).
    rewrite IH; [by rewrite <- app_assoc|done|].
    intros k' Hk'. unfold keys. rewrite map_app. simpl.
    intros [?|?%list_elem_of_singleton]%elem_of_app; [|by subst].
    by apply (Hdisj k'); [right|].
Qed.

Lemma spec_merge_empty v : plain v → spec_merge (VObj []) v = v.
Proof.
  intros Hp. destruct v as [| | | | | |cf]; try done. simpl.
  inversion Hp; subst. rewrite spec_entries_empty; [done|done|].
  by intros ? _ ?%elem_of_nil.
Qed.

Lemma spec_merge_over_primitive b v :
  (∀ bf, b ≠ VObj bf) → spec_merge b v = v.
Proof. intros Hb. destruct v, b; try done. by destruct (Hb fields0). Qed.

Lemma fits_over_primitive b v :
  (∀ bf, b ≠ VObj bf) → (∀ items extra, b ≠ VArr items extra) → fits b v.
Proof.
  intros Ho Ha. destruct v, b; simpl; try done.
  - by destruct (Ha items extra).
  - by destruct (Ho fields0).
Qed.

Lemma fits_empty v : fits (VObj []) v.
Proof.
  destruct v as [| | | | | |cf]; simpl; try done.
  induction cf as [|[k x] cf IH]; simpl; [done|]. split; [|done].
  by apply fits_over_primitive.
Qed.

Lemma falsy_not_object v : truthy v = false → (∀ bf, v ≠ VObj bf).
Proof. by destruct v. Qed.

Lemma plain_lookup k bf :
  Forall (λ kv, plain (snd kv)) bf → plain (default VUndefined (assoc k bf)).
Proof.
  intros Hbf. destruct (assoc k bf) as [b|] eqn:Hb; simpl; [|constructor].
  apply assoc_Some_elem in Hb. rewrite Forall_forall in Hbf. by apply (Hbf (k, b)).
Qed.

Lemma merge_entries_spec bf fs : ∀ rs,
  Forall (λ kv, merges_as_specified (snd kv)) fs →
  NoDup (keys fs) →
  Forall (λ kv, plain (snd kv)) fs →
  Forall (λ kv, plain (snd kv)) bf →
  fits_entries fits bf fs →
  (∀ k, k ∈ keys fs → assoc k rs = assoc k bf) →
  merge_entries deepMerge fs (VObj rs) = inr (VObj (spec_entries spec_merge bf fs rs)).
Proof.
  induction fs as [|[key v] fs IH]; intros rs Hrec Hnd Hpf Hpb Hfit Hrs; [done|].
  apply Forall_cons in Hrec as [Hv Hrec]. apply NoDup_cons in Hnd as [Hkey Hnd].
  apply Forall_cons in Hpf as [Hpv Hpf]. destruct Hfit as [Hfv Hfit].
  simpl in Hv, Hpv, Hfv.
  assert (assoc key rs = assoc key bf) as Hold by (apply Hrs; by left).
  assert (∀ nv, (∀ k, k ∈ keys fs → assoc k (set_assoc key nv rs) = assoc k bf)) as Hrs'.
  { intros nv k Hk. rewrite assoc_set_assoc_ne; [apply Hrs; by right|].
    intros ->. done. }
  assert (∀ cf, v = VObj cf →
            deepMerge (if truthy (default VUndefined (assoc key bf))
                       then default VUndefined (assoc key bf) else VObj []) v
            = inr (match assoc key bf with
                   | Some b => spec_merge b v
                   | None => v
                   end)) as Hobj.
  { intros cf ->.
    destruct (truthy (default VUndefined (assoc key bf))) eqn:Ht.
    - rewrite Hv; try done.
      + destruct (assoc key bf); [done|]. simpl in Ht. done.
      + by apply plain_lookup.
      + intros Hn. by rewrite Hn in Ht.
    - rewrite Hv; try done; [|repeat constructor|apply fits_empty].
      rewrite spec_merge_empty by done.
      destruct (assoc key bf) as [b|]; [|done]. simpl in Ht.
      f_equal. symmetry. apply spec_merge_over_primitive. by apply falsy_not_object. }
  assert (∀ b, (∀ cf, v ≠ VObj cf) → spec_merge b v = v) as Hprim.
  { intros b Hnot. destruct v; try done. by destruct (Hnot fields). }
  simpl merge_entries. simpl get. rewrite Hold.
  destruct v as [| |b|n|s|items extra|cf];
    try (rewrite deepClone_plain by done; simpl set; rewrite IH by auto;
         simpl; destruct (assoc key bf); by rewrite ?Hprim).
  rewrite (Hobj cf eq_refl). simpl set. by rewrite IH by auto.
Qed.

(** [deepMerge] computes the merge of the specification wherever the
    child lays no object over an array. *)
Lemma deepMerge_spec source : merges_as_specified source.
Proof.
  induction source as [| | | | |items extra _ _|fs IHf] using value_ind_nested;
    intros target Hps Hpt Hfit Hnn Hnull.
  - simpl. by rewrite orb_true_r.
  - simpl. by rewrite (Hnull eq_refl).
  - simpl. by rewrite orb_true_r.
  - simpl. by rewrite orb_true_r.
  - simpl. by rewrite orb_true_r.
  - pose proof (deepClone_plain _ Hps) as Hc.
    destruct target; simpl in *; try done; by rewrite Hc.
  - destruct target as [| | | | |ti te|bf]; try done.
    change (deepMerge (VObj bf) (VObj fs))
      with (merge_entries deepMerge fs (deepClone (VObj bf))).
    rewrite deepClone_plain by done.
    inversion Hps; inversion Hpt; subst.
    by rewrite (merge_entries_spec bf fs bf).
Qed.

Lemma mergeEntries_spec base override : ∀ rs,
  NoDup (keys override) →
  Forall (λ kv, plain (snd kv)) override →
  Forall (λ kv, plain (snd kv)) base →
  Forall (component_fits base) override →
  (∀ k, k ∈ keys override → assoc k rs = assoc k base) →
  mergeEntries override rs = inr (spec_entries spec_merge base override rs).
Proof.
  induction override as [|[key v] override IH]; intros rs Hnd Hpo Hpb Hfit Hrs; [done|].
  apply NoDup_cons in Hnd as [Hkey Hnd]. apply Forall_cons in Hpo as [Hpv Hpo].
  apply Forall_cons in Hfit as [[Hfv Hnull] Hfit]. simpl in Hpv, Hfv, Hnull.
  assert (assoc key rs = assoc key base) as Hold by (apply Hrs; by left).
  assert (∀ nv k, k ∈ keys override → assoc k (set_assoc key nv rs) = assoc k base)
    as Hrs'.
  { intros nv k Hk. rewrite assoc_set_assoc_ne; [apply Hrs; by right|].
    intros ->. done. }
  simpl mergeEntries. rewrite Hold.
  set (old := default VUndefined (assoc key base)) in *.
  assert (plain old) as Hpold by (by apply plain_lookup).
  assert (truthy old = false →
          match assoc key base with Some b => spec_merge b v | None => v end = v)
    as Hfalsy.
  { unfold old. destruct (assoc key base) as [b|]; [|done]. simpl. intros Hb.
    apply spec_merge_over_primitive. by apply falsy_not_object. }
  assert (truthy old = true →
          match assoc key base with Some b => spec_merge b v | None => v end
          = spec_merge old v) as Htruthy.
  { unfold old. by destruct (assoc key base) as [b|]. }
  assert ((∀ cf, v ≠ VObj cf) →
          match assoc key base with Some b => spec_merge b v | None => v end = v)
    as Hprim.
  { intros Hnot. destruct (assoc key base); [|done].
    destruct v; try done. by destruct (Hnot fields). }
  destruct (truthy old && is_object v && negb (is_array v)) eqn:Hcond.
  - apply andb_prop in Hcond as [[Ht Ho]%andb_prop Ha].
    rewrite deepMerge_spec; try done.
    + simpl. rewrite IH by auto. by rewrite Htruthy.
    + intros Hn. by rewrite Hn in Ht.
    + intros Hv. destruct (Hnull Hv); [done|congruence].
  - rewrite deepClone_plain by done. simpl. rewrite IH by auto.
    destruct (truthy old) eqn:Ht; [|by rewrite Hfalsy].
    rewrite Hprim; [done|]. intros cf ->. done.
Qed.

Lemma mergeComponents_spec base override :
  plain (VObj base) → plain (VObj override) →
  Forall (component_fits base) override →
  mergeComponents base override = inr (spec_merge_components base override).
Proof.
  intros Hb Ho Hfit. unfold mergeComponents, clone_components.
  rewrite (deepClone_plain _ Hb). inversion Hb; inversion Ho; subst.
  by apply mergeEntries_spec.
Qed.

Lemma NoDup_set_assoc k v fs : NoDup (keys fs) → NoDup (keys (set_assoc k v fs)).
Proof.
  intros Hnd. destruct (decide (k ∈ keys fs)) as [Hin|Hout].
  - by rewrite keys_set_assoc_in.
  - rewrite set_assoc_fresh by done. unfold keys. rewrite map_app. simpl.
    apply NoDup_app. split; [done|]. split; [|apply NoDup_singleton].
    intros k' Hk' ->%list_elem_of_singleton. done.
Qed.

Lemma Forall_set_assoc (P : string * value → Prop) k v fs :
  P (k, v) → Forall P fs → Forall P (set_assoc k v fs).
Proof.
  intros Hv. induction 1 as [|[k' v'] fs Hx Hfs IH]; simpl; [by constructor|].
  destruct (String.eqb k k'); by constructor.
Qed.

Lemma spec_entries_plain bf cf :
  Forall (λ kv, ∀ base, plain base → plain (snd kv) → plain (spec_merge base (snd kv))) cf →
  Forall (λ kv, plain (snd kv)) cf →
  Forall (λ kv, plain (snd kv)) bf →
  ∀ rs, NoDup (keys rs) → Forall (λ kv, plain (snd kv)) rs →
    NoDup (keys (spec_entries spec_merge bf cf rs)) ∧
    Forall (λ kv, plain (snd kv)) (spec_entries spec_merge bf cf rs).
Proof.
  intros Hrec Hpc Hpb.
  induction cf as [|[k v] cf IH]; intros rs Hnd Hp; simpl; [done|].
  apply Forall_cons in Hrec as [Hv Hrec]. apply Forall_cons in Hpc as [Hpv Hpc].
  apply IH; try done; [by apply NoDup_set_assoc|].
  apply Forall_set_assoc; [|done]. simpl in *.
  destruct (assoc k bf) as [b|] eqn:Hbk; [|done].
  apply Hv; [|done]. apply assoc_Some_elem in Hbk.
  rewrite Forall_forall in Hpb. by apply (Hpb (k, b)).
Qed.

(** The specification's merge of plain data is plain. *)
Lemma spec_merge_plain child : ∀ base, plain base → plain child → plain (spec_merge base child).
Proof.
  induction child as [| | | | |items extra _ _|cf IHc] using value_ind_nested;
    intros base Hb Hc; try done.
  destruct base as [| | | | | |bf]; try done. simpl.
  inversion Hb as [| | | | | |? Hndb Hpb]; inversion Hc as [| | | | | |? Hndc Hpc]; subst.
  destruct (spec_entries_plain bf cf IHc Hpc Hpb bf) as [? ?]; try done.
  by constructor.
Qed.

Lemma spec_merge_components_plain base child :
  plain (VObj base) → plain (VObj child) → plain (VObj (spec_merge_components base child)).
Proof.
  intros Hb Hc. pose proof (spec_merge_plain _ _ Hb Hc) as Hp.
  unfold spec_merge_components. by simpl in *.
Qed.

Lemma chain_fits_app root rest c :
  chain_fits root (rest ++ [c]) ↔
  chain_fits root rest ∧ Forall (component_fits (spec_resolve root rest)) c.
Proof.
  revert root. induction rest as [|d rest IH]; intros root; simpl.
  - tauto.
  - rewrite IH. tauto.
Qed.

Lemma spec_resolve_plain rest : ∀ root,
  plain (VObj root) → Forall (λ bag, plain (VObj bag)) rest →
  plain (VObj (spec_resolve root rest)).
Proof.
  induction rest as [|c rest IH]; intros root Hr Hrest; simpl; [done|].
  apply Forall_cons in Hrest as [Hc Hrest].
  apply IH; [|done]. by apply spec_merge_components_plain.
Qed.

Lemma lineage_nonempty fuel f : ∀ t bags, lineage fuel f t = Some bags → bags ≠ [].
Proof.
  induction fuel as [|fuel IH]; intros t bags; simpl;
    (destruct (extends t); [|by intros [= <-]]);
    (destruct (templates f !! s); [|done]); [done|].
  destruct (lineage fuel f e) as [bags'|]; [|done]. simpl. intros [= <-].
  by destruct bags'.
Qed.

(** [resolveTemplate] computes the merge of the chain, root first,
    wherever no descendant lays an object over an array. *)
Lemma resolveTemplate_spec f fuel : ∀ t bags,
  lineage fuel f t = Some bags →
  Forall (λ bag, plain (VObj bag)) bags →
  bags_fit bags →
  ∃ r, resolveTemplate fuel f t = Some (inr r) ∧
       t_components r = spec_resolve_bags bags ∧
       (t_type t ≠ "" → t_type r = t_type t).
Proof.
  induction fuel as [|fuel IH]; intros t bags; simpl.
  - destruct (extends t) as [p|]; [by destruct (templates f !! p)|].
    intros [= <-] _ _. by exists t.
  - destruct (extends t) as [p|]; [|intros [= <-] _ _; by exists t].
    destruct (templates f !! p) as [parent|]; [|done].
    destruct (lineage fuel f parent) as [bags'|] eqn:Hl; [|done]. simpl.
    intros [= <-] Hplain Hfit.
    pose proof (lineage_nonempty _ _ _ _ Hl) as Hne.
    destruct bags' as [|root rest]; [done|]. simpl in Hfit.
    apply Forall_app in Hplain as [Hp' Hpt]. rewrite Forall_singleton in Hpt.
    apply chain_fits_app in Hfit as [Hfit' Hfc].
    destruct (IH parent _ Hl Hp' Hfit') as (rp & -> & Hrp & _). simpl in Hrp.
    apply Forall_cons in Hp' as [Hproot Hprest].
    rewrite Hrp, mergeComponents_spec; [|by apply spec_resolve_plain|done|done].
    eexists. split; [reflexivity|]. simpl. split.
    + unfold spec_resolve. by rewrite fold_left_app.
    + intros Hty. destruct (String.eqb_spec (t_type t) ""); done.
Qed.

(** For component data as it comes out of JSON, with ordinary property
    names throughout: where no template of the chain lays an object over
    an array of its ancestors, the entity that [createFromTemplate]
    builds (before the type registry, if any, has its say) carries the
    deep merge of the chain's component bags, root first. *)
Theorem createFromTemplate_deep_merge fuel now templateId f t bags :
  templates f !! templateId = Some t →
  lineage fuel f t = Some bags →
  Forall (λ bag, plain (VObj bag)) bags →
  Forall (λ bag, ordinary (VObj bag) = true) bags →
  bags_fit bags →
  ∃ e f', createFromTemplate fuel now templateId None f = Some (validated e f') ∧
          components e = spec_resolve_bags bags ∧
          typeRegistry f' = typeRegistry f.
Proof.
  intros Ht Hl Hplain _ Hfit. unfold createFromTemplate. rewrite Ht.
  destruct (resolveTemplate_spec f fuel t bags Hl Hplain Hfit) as (r & -> & Hr & _).
  assert (plain (VObj (spec_resolve_bags bags))) as Hp.
  { pose proof (lineage_nonempty _ _ _ _ Hl) as Hne.
    destruct bags as [|root rest]; [done|]. simpl.
    apply Forall_cons in Hplain as [? ?]. by apply spec_resolve_plain. }
  simpl. destruct (generateId now f) as [newId f1] eqn:Hg.
  eexists _, f1. split; [reflexivity|]. simpl. split.
  - unfold clone_components. by rewrite Hr, (deepClone_plain _ Hp).
  - unfold generateId in Hg. destruct (customIdGenerator f); by injection Hg as <- <-.
Qed.

Lemma createFromTemplate_deep_merge_witness :
  ∃ e f', createFromTemplate 1 0 "guard" None garrison = Some (validated e f') ∧
          components e
          = spec_resolve_bags [t_components villager; t_components guard] ∧
          typeRegistry f' = typeRegistry garrison.
Proof.
  apply (createFromTemplate_deep_merge 1 0 "guard" garrison guard).
  - reflexivity.
  - reflexivity.
  - repeat first
      [ apply NoDup_nil_2
      | apply NoDup_cons_2; [simpl; set_solver|]
      | constructor ].
  - repeat constructor.
  - simpl. repeat constructor; simpl; try done; intros; discriminate.
Defined.

(** What that merge is for the guard: [stats] merged field by field,
    [tags] replaced, [position] added. *)
Example guard_components :
  ∃ e f', createFromTemplate 1 0 "guard" None garrison = Some (Returned e f') ∧
          components e
          = [("stats", VObj [("health", VNum 25); ("maxHealth", VNum 10)]);
             ("tags", VArr [VStr "npc"; VStr "armed"] []);
             ("position", VObj [("realm", VStr "north")])].
Proof. eexists _, _. split; [vm_compute; reflexivity|reflexivity]. Qed.

(** The second pass ends whatever it is given: every round either
    shortens the queue or throws. *)
Lemma secondPass_ends queue : ∀ fuel f,
  (length queue ≤ fuel)%nat →
  is_Some (secondPass fuel queue (length queue) f).
Proof.
  induction queue as [|t rest IH]; intros fuel f Hfuel; simpl.
  { destruct fuel; by eexists. }
  destruct fuel as [|fuel]; simpl in *; [lia|].
  destruct (templates f !! default "" (t_extends t)).
  - destruct (registerTemplate t f) as [[] f'|err f']; [|by eexists].
    destruct (Nat.eqb_spec (length rest) (S (length rest))); [lia|].
    apply IH. lia.
  - rewrite length_app. simpl.
    replace (length rest + 1)%nat with (S (length rest)) by lia.
    rewrite Nat.eqb_refl. by eexists.
Qed.

Lemma firstPass_queue ts : ∀ queue f queue' f',
  firstPass ts queue f = Returned queue' f' →
  (length queue' ≤ length queue + length ts)%nat.
Proof.
  induction ts as [|t ts IH]; intros queue f queue' f'; simpl.
  - intros [= <- <-]. lia.
  - destruct (extends t).
    + intros Hp. apply IH in Hp. rewrite length_app in Hp. simpl in Hp. lia.
    + destruct (registerTemplate t f) as [[] f1|]; [|done].
      intros Hp. apply IH in Hp. lia.
Qed.

(** Bulk registration always ends, by returning or by throwing: one
    unit of fuel per template is enough. *)
Theorem registerFromJSON_terminates ts f :
  is_Some (registerFromJSON (length ts) ts f).
Proof.
  unfold registerFromJSON.
  destruct (firstPass ts [] f) as [queue f'|err f'] eqn:Hp; [|by eexists].
  apply secondPass_ends. apply firstPass_queue in Hp. simpl in Hp. lia.
Qed.

(** The queue is never retried: when the template at its head has a
    parent that is not registered yet, the call throws at once, whatever
    else is waiting behind it. *)
Theorem secondPass_gives_up_at_first_miss fuel t rest f :
  templates f !! default "" (t_extends t) = None →
  secondPass (S fuel) (t :: rest) (S (length rest)) f
  = Some (Threw (CircularOrMissingParent (map describe (rest ++ [t]))) f).
Proof.
  intros Hmiss. simpl. rewrite Hmiss, length_app. simpl.
  replace (length rest + 1)%nat with (S (length rest)) by lia.
  by rewrite Nat.eqb_refl.
Qed.

Lemma secondPass_gives_up_at_first_miss_witness :
  secondPass 1 [dog; animal] 2 (new None)
  = Some (Threw (CircularOrMissingParent [("animal", "creature"); ("dog", "animal")])
                (new None)).
Proof.
  apply (secondPass_gives_up_at_first_miss 0 dog [animal] (new None)).
  reflexivity.
Defined.

(** C2 (the code breaks it): [creature], [animal extends creature] and
    [dog extends animal] form a chain with every parent in the list. In
    the order root first they register; in the order leaf first the call
    throws "circular dependency or missing parent" after looking at [dog]
    alone, although [animal] could have been registered next. *)
Theorem registerFromJSON_depends_on_order fuel :
  (∃ f, registerFromJSON (S (S fuel)) [creature; animal; dog] (new None)
          = Some (Returned tt f) ∧
        templates f !! "creature" = Some creature ∧
        templates f !! "animal" = Some animal ∧
        templates f !! "dog" = Some dog) ∧
  (∃ f, registerFromJSON (S fuel) [dog; animal; creature] (new None)
          = Some (Threw (CircularOrMissingParent
                           [("animal", "creature"); ("dog", "animal")]) f) ∧
        templates f !! "creature" = Some creature ∧
        templates f !! "animal" = None ∧
        templates f !! "dog" = None).
Proof.
  split; eexists; (split; [destruct fuel; vm_compute; reflexivity|]);
    repeat split; vm_compute; reflexivity.
Qed.

(** C8 (the code breaks it): [purse extends chest] overrides the array
    [inventory.items] of its parent with an object. The deep merge of the
    chain has the child's object there. [resolveTemplate] instead attaches
    the child's field to the parent's array as a property, and the final
    [deepClone] copies the elements of that array only: the entity that
    [createFromTemplate] returns has the parent's array, and the child's
    override is gone. *)
Theorem createFromTemplate_keeps_overridden_array :
  ∃ e f,
    createFromTemplate 1 0 "purse" None stocked = Some (Returned e f) ∧
    resolveTemplate 1 stocked purse
      = Some (inr (mkTemplate "purse" "item" None None
           [("inventory", VObj [("items", VArr [VStr "bone"] [("gold", VNum 3)])])])) ∧
    components e = [("inventory", VObj [("items", VArr [VStr "bone"] [])])] ∧
    spec_resolve (t_components chest) [t_components purse]
      = [("inventory", VObj [("items", VObj [("gold", VNum 3)])])] ∧
    components e ≠ spec_resolve (t_components chest) [t_components purse].
Proof.
  eexists _, _. split; [vm_compute; reflexivity|].
  split; [vm_compute; reflexivity|].
  split; [reflexivity|]. split; [reflexivity|]. discriminate.
Qed.

End FactoryFacts.

(** ** The event bus *)

Section BusFacts.
Import Bus.

(** C9: [clear()] empties the subscriptions of every event type and
    leaves the history as it was; [clearHistory()] is what empties the
    history, and it leaves the subscriptions. *)
Theorem clear_keeps_history (b : EventBus) :
  getSubscriptionCount None (clear b) = 0%nat ∧
  (∀ t, getSubscriptionCount (Some t) (clear b) = 0%nat) ∧
  (∀ t limit, getHistory t limit (clear b) = getHistory t limit b) ∧
  (∀ t limit, getHistory t limit (clearHistory b) = []) ∧
  subscriptions (clearHistory b) = subscriptions b.
Proof.
  assert (getSubscriptionCount None (clear b) = 0%nat) as Hall.
  { unfold getSubscriptionCount, clear. simpl. apply map_fold_empty. }
  split; [exact Hall|]. split; [|split; [done|split; [|done]]].
  - intros t. unfold getSubscriptionCount in *. simpl in *.
    destruct (String.eqb t ""); [exact Hall|].
    unfold subscribers. simpl. by rewrite lookup_empty.
  - intros t limit. unfold getHistory, clearHistory. simpl.
    assert (∀ n, drop n ([] : list GameEvent) = []) as Hdrop by (by intros []).
    destruct t as [t|]; [destruct (String.eqb t "")|];
      (destruct limit as [n|]; [|done]);
      destruct (n =? 0)%Z; try done; destruct (0 <? n)%Z; apply Hdrop.
Qed.

(** C1 (the code breaks it): the temporary subscription is made for the
    event type ["*"], which [emit] treats like any other name, so the
    collector is never called. On a new bus [executeCommand] returns an
    empty [events] while the history holds the event it emitted; and when
    a subscriber of ["command:executed"] emits a follow-up event, both
    events reach the history and none the returned list. *)
Theorem executeCommand_collects_nothing command now :
  (∀ handlers fuel, ∃ r m,
     executeCommand (S fuel) handlers command (boot now) = Some (r, m) ∧
     success r = true ∧ result_events r = Some [] ∧
     eventHistory (bus m) = [mkEvent "command:executed" command now None]) ∧
  (∃ r m,
     executeCommand 2 mover command
       (snd (subscribe "command:executed" (Handler 0) 0 (boot now))) = Some (r, m) ∧
     success r = true ∧ result_events r = Some [] ∧
     eventHistory (bus m) =
       [mkEvent "command:executed" command now None;
        mkEvent "entity:moved" VNull now (Some "MovementSystem")]).
Proof.
  split.
  - intros handlers fuel. eexists _, _. split; [vm_compute; reflexivity|]. done.
  - eexists _, _. split; [vm_compute; reflexivity|]. done.
Qed.

(** C7 (the code breaks it): a handler of priority 10 re-emits ["hit"]
    during dispatch, and a [once] subscriber of priority 0 follows it. The
    nested emit calls the [once] subscriber and removes it; the outer emit
    then calls it again from its snapshot. One emit by the program, two
    calls of the [once] callback. *)
Theorem once_fires_twice_under_nested_emit now :
  ∃ m,
    exec 2 echo [Subscribe "hit" 0 10; Once "hit" 1 0;
                 Emit "hit" (VBool true) None] (boot now) = Some (Normal m) ∧
    map (λ i, (inv_depth i, callback (inv_sub i), ev_data (inv_event i))) (invocations m)
      = [(0, Handler 0, VBool true); (1, Handler 0, VBool false);
         (1, Handler 1, VBool false); (0, Handler 1, VBool true)]%nat ∧
    times_called 1 m = 2%nat ∧
    map callback (subscribers "hit" (bus m)) = [Handler 0].
Proof.
  eexists. split; [vm_compute; reflexivity|]. repeat split.
Qed.

End BusFacts.

(** *** The sort and the firing order *)

Section SortFacts.
Import Bus.

Lemma Forall_insert (P : Subscription → Prop) x l :
  Forall P (insert x l) ↔ P x ∧ Forall P l.
Proof.
  induction l as [|y l IH]; simpl.
  - rewrite Forall_singleton, Forall_nil. tauto.
  - destruct (priority x <? priority y)%Z; rewrite ?Forall_cons, ?IH; tauto.
Qed.

Lemma Forall_sort (P : Subscription → Prop) l : Forall P (sort l) ↔ Forall P l.
Proof.
  induction l as [|x l IH]; simpl; [done|].
  by rewrite Forall_insert, Forall_cons, IH.
Qed.

(** Inserting [x] keeps the firing order when [x] may go before every
    element it does not have to follow. *)
Lemma insert_sorted x l :
  StronglySorted fires_before l →
  Forall (λ y, fires_before x y ∨ (priority x < priority y)%Z) l →
  StronglySorted fires_before (insert x l).
Proof.
  induction 1 as [|y l Hl IH Hy]; intros Hx; simpl.
  - repeat constructor.
  - apply Forall_cons in Hx as [Hxy Hxl].
    destruct (priority x <? priority y)%Z eqn:E.
    + apply Z.ltb_lt in E. constructor; [by apply IH|].
      apply Forall_insert. split; [by left|done].
    + apply Z.ltb_ge in E.
      assert (fires_before x y) as Hfb.
      { destruct Hxy as [|]; [done|lia]. }
      constructor; [by constructor|]. constructor; [done|].
      rewrite Forall_forall in *. intros z Hz.
      destruct (Hxl z Hz) as [|Hlt]; [done|].
      specialize (Hy z Hz). unfold fires_before in *. lia.
Qed.

(** The sort puts an array into firing order when its equal-priority
    elements already stand in registration order. *)
Lemma sort_sorted l :
  StronglySorted (λ a b, priority a = priority b → (sub_ref a < sub_ref b)%nat) l →
  StronglySorted fires_before (sort l).
Proof.
  induction 1 as [|x l Hl IH Hx]; simpl; [constructor|].
  apply insert_sorted; [done|]. apply Forall_sort.
  eapply Forall_impl; [exact Hx|]. intros y Hxy. simpl in Hxy.
  unfold fires_before.
  destruct (Z.lt_trichotomy (priority x) (priority y)) as [?|[?|?]]; auto.
Qed.

Lemma pushed_in_registration_order subs new :
  StronglySorted fires_before subs →
  Forall (λ sub, (sub_ref sub < sub_ref new)%nat) subs →
  StronglySorted (λ a b, priority a = priority b → (sub_ref a < sub_ref b)%nat)
                 (subs ++ [new]).
Proof.
  induction 1 as [|x l Hl IH Hx]; intros Hnew; simpl.
  - repeat constructor.
  - apply Forall_cons in Hnew as [Hxn Hln]. constructor; [by apply IH|].
    apply Forall_app. split.
    + eapply Forall_impl; [exact Hx|]. unfold fires_before. intros y ? ?. lia.
    + by apply Forall_singleton.
Qed.

Lemma Forall_remove_first (P : Subscription → Prop) p l :
  Forall P l → Forall P (remove_first p l).
Proof.
  induction 1 as [|x l Hx Hl IH]; simpl; [constructor|].
  destruct (p x); [done|by constructor].
Qed.

Lemma remove_first_sorted (Rel : Subscription → Subscription → Prop) p l :
  StronglySorted Rel l → StronglySorted Rel (remove_first p l).
Proof.
  induction 1 as [|x l Hl IH Hx]; simpl; [constructor|].
  destruct (p x); [done|]. constructor; [done|]. by apply Forall_remove_first.
Qed.

Lemma well_ordered_boot now : well_ordered (boot now).
Proof. intros t subs. simpl. by rewrite lookup_empty. Qed.

Lemma well_ordered_register is_once t cb prio m :
  well_ordered m → well_ordered (snd (register is_once t cb prio m)).
Proof.
  intros Hm t' subs'. simpl.
  destruct (decide (t = t')) as [<-|Hne].
  - rewrite lookup_insert_eq. intros [= <-].
    assert (StronglySorted fires_before (subscribers t (bus m)) ∧
            Forall (λ sub, (sub_ref sub < allocated m)%nat) (subscribers t (bus m)))
      as [Hs Hf].
    { unfold subscribers. destruct (subscriptions (bus m) !! t) as [subs|] eqn:Hl.
      - by apply Hm in Hl.
      - simpl. split; constructor. }
    split.
    + apply sort_sorted. by apply pushed_in_registration_order.
    + apply Forall_sort, Forall_app. split.
      * eapply Forall_impl; [exact Hf|]. simpl. lia.
      * apply Forall_singleton. simpl. lia.
  - rewrite lookup_insert_ne by done. intros Hl. apply Hm in Hl as [Hs Hf].
    split; [done|]. eapply Forall_impl; [exact Hf|]. simpl. lia.
Qed.

Lemma well_ordered_splice p t m :
  well_ordered m → well_ordered (with_bus (splice_where p t) m).
Proof.
  intros Hm t' subs'. unfold with_bus, splice_where. simpl.
  destruct (subscriptions (bus m) !! t) as [subs|] eqn:Hl; simpl; [|apply Hm].
  destruct (decide (t = t')) as [<-|Hne].
  - rewrite lookup_insert_eq. intros [= <-]. apply Hm in Hl as [Hs Hf].
    split; [by apply remove_first_sorted|by apply Forall_remove_first].
  - rewrite lookup_insert_ne by done. apply Hm.
Qed.

Lemma well_ordered_bus_step f m :
  bus_step f → well_ordered m → well_ordered (with_bus f m).
Proof.
  intros [t cb|t ref| | |event] Hm.
  - by apply well_ordered_splice.
  - by apply well_ordered_splice.
  - intros t subs. simpl. by rewrite lookup_empty.
  - exact Hm.
  - exact Hm.
Qed.

End SortFacts.

(** *** Induction over everything an emit can set off *)

Section EmitInduction.
Import Bus.

Variable handlers : nat → GameEvent → list Action.

(** [R k m m']: what may be said of a machine [m'] reached from [m] by
    calls made at depth [k] or deeper. *)
Variable R : nat → Machine → Machine → Prop.
Hypothesis R_refl : ∀ k m, R k m m.
Hypothesis R_trans : ∀ k m1 m2 m3, R k m1 m2 → R k m2 m3 → R k m1 m3.
Hypothesis R_deeper : ∀ k m m', R (S k) m m' → R k m m'.
Hypothesis R_register : ∀ k o t cb p m, R k m (snd (register o t cb p m)).
Hypothesis R_bus : ∀ k f m, bus_step f → R k m (with_bus f m).
Hypothesis R_logged : ∀ k sub event m, R k m (logged k sub event m).
Hypothesis R_collected : ∀ k event m, R k m (collected event m).

Section Body.

Variable emit_rec : nat → string → value → option string → Machine → option Machine.
Hypothesis emit_rec_R :
  ∀ k t data source m m', emit_rec k t data source m = Some m' → R k m m'.

Lemma perform_R k a m o :
  perform emit_rec k a m = Some o → R k m (state_of o).
Proof.
  destruct a as [t cb p|t cb p|t cb|t ref|t data source| | |]; unfold perform.
  - intros [= <-]. apply (R_register k false).
  - intros [= <-]. apply (R_register k true).
  - intros [= <-]. apply R_bus. constructor.
  - intros [= <-]. apply R_bus. constructor.
  - destruct (emit_rec k t data source m) as [m'|] eqn:He; [|done].
    intros [= <-]. simpl. eauto.
  - intros [= <-]. apply R_bus. constructor.
  - intros [= <-]. apply R_bus. constructor.
  - intros [= <-]. apply R_refl.
Qed.

Lemma run_R k script : ∀ m o,
  run emit_rec k script m = Some o → R k m (state_of o).
Proof.
  induction script as [|a script IH]; intros m o; simpl.
  - intros [= <-]. apply R_refl.
  - destruct (perform emit_rec k a m) as [[m1|m1]|] eqn:Hp; [| |done].
    + intros Hr. apply perform_R in Hp. apply IH in Hr. eauto.
    + intros [= <-]. by apply perform_R in Hp.
Qed.

Lemma invoke_R k sub event m o :
  invoke handlers emit_rec k sub event m = Some o → R k m (state_of o).
Proof.
  unfold invoke. destruct (callback sub).
  - intros Hr. apply run_R in Hr. eauto.
  - intros [= <-]. simpl. eauto.
Qed.

Lemma dispatch_R k t event subsToCall : ∀ m m',
  dispatch handlers emit_rec k t event subsToCall m = Some m' → R k m m'.
Proof.
  induction subsToCall as [|sub rest IH]; intros m m'; simpl.
  - intros [= <-]. apply R_refl.
  - destruct (invoke handlers emit_rec k sub event m) as [o|] eqn:Hi; [|done].
    apply invoke_R in Hi. intros Hd. apply IH in Hd.
    assert (state_of (try_catch o (λ m0, Normal m0)) = state_of o) as Heq
      by (by destruct o).
    rewrite Heq in Hd.
    destruct (once sub); eauto using bus_step.
Qed.

Lemma emit_body_R k t data source m m' :
  emit_body handlers emit_rec k t data source m = Some m' → R k m m'.
Proof.
  unfold emit_body.
  set (event := mkEvent t data (clock m) source).
  assert (R k m (with_bus (record event) m)) as H1 by auto using bus_step.
  destruct (subscriptions (bus (with_bus (record event) m)) !! t) as [[|sub subs]|].
  - by intros [= <-].
  - intros Hd. apply dispatch_R in Hd. eauto.
  - by intros [= <-].
Qed.

End Body.

Lemma emit_R fuel : ∀ k t data source m m',
  emit fuel handlers k t data source m = Some m' → R k m m'.
Proof.
  induction fuel as [|fuel IH]; intros k t data source m m'; simpl; [done|].
  by apply emit_body_R.
Qed.

Lemma exec_R fuel program m o :
  exec fuel handlers program m = Some o → R 0 m (state_of o).
Proof. apply run_R, emit_R. Qed.

End EmitInduction.

(** *** What an emit calls, and in which order *)

Section FiringOrder.
Import Bus.

Variable handlers : nat → GameEvent → list Action.

(** Whatever an emit sets off leaves every array in firing order. *)
Lemma emit_well_ordered fuel k t data source m m' :
  emit fuel handlers k t data source m = Some m' →
  well_ordered m → well_ordered m'.
Proof.
  apply (emit_R handlers (λ _ m m', well_ordered m → well_ordered m')); auto.
  - intros _ o t' cb p m0. apply well_ordered_register.
  - intros _ f m0. apply well_ordered_bus_step.
Qed.

Lemma exec_well_ordered fuel program m o :
  exec fuel handlers program m = Some o →
  well_ordered m → well_ordered (state_of o).
Proof.
  apply (exec_R handlers (λ _ m m', well_ordered m → well_ordered m')); auto.
  - intros _ o' t' cb p m0. apply well_ordered_register.
  - intros _ f m0. apply well_ordered_bus_step.
Qed.

Lemma grows_from_same k m m' :
  invocations m' = invocations m → grows_from k m m'.
Proof. intros Heq. exists []. by rewrite app_nil_r. Qed.

Lemma grows_from_trans k m1 m2 m3 :
  grows_from k m1 m2 → grows_from k m2 m3 → grows_from k m1 m3.
Proof.
  intros (n1 & H1 & F1) (n2 & H2 & F2). exists (n1 ++ n2)%list.
  split; [by rewrite H2, H1, app_assoc|by apply Forall_app].
Qed.

Lemma grows_from_deeper k m m' : grows_from (S k) m m' → grows_from k m m'.
Proof.
  intros (new & Hn & Hf). exists new. split; [done|].
  eapply Forall_impl; [exact Hf|]. simpl. lia.
Qed.

Lemma grows_from_logged k sub event m : grows_from k m (logged k sub event m).
Proof.
  exists [mkInvocation k sub event]. split; [done|]. by apply Forall_singleton.
Qed.

Lemma emit_grows fuel k t data source m m' :
  emit fuel handlers k t data source m = Some m' → grows_from k m m'.
Proof.
  apply (emit_R handlers grows_from).
  - intros. by apply grows_from_same.
  - apply grows_from_trans.
  - apply grows_from_deeper.
  - intros. by apply grows_from_same.
  - intros. by apply grows_from_same.
  - apply grows_from_logged.
  - intros. by apply grows_from_same.
Qed.

Lemma run_grows fuel k script m o :
  run (emit fuel handlers) k script m = Some o → grows_from k m (state_of o).
Proof.
  apply (run_R grows_from).
  - intros. by apply grows_from_same.
  - apply grows_from_trans.
  - intros. by apply grows_from_same.
  - intros. by apply grows_from_same.
  - intros k' t data source m0 m0'. apply emit_grows.
Qed.

Lemma filter_deeper k (l : list Invocation) :
  Forall (λ i, (S k ≤ inv_depth i)%nat) l →
  List.filter (λ i, Nat.eqb (inv_depth i) k) l = [].
Proof.
  induction 1 as [|i l Hi Hl IH]; simpl; [done|].
  destruct (Nat.eqb_spec (inv_depth i) k); [lia|done].
Qed.

(** The calls that a dispatch at depth [k] makes itself are the calls of
    the snapshot, in the order of the snapshot. *)
Lemma dispatch_fired fuel k t event subsToCall : ∀ m m',
  dispatch handlers (emit fuel handlers) k t event subsToCall m = Some m' →
  ∃ new, invocations m' = (invocations m ++ new)%list ∧
         List.filter (λ i, Nat.eqb (inv_depth i) k) new
         = map (λ sub, mkInvocation k sub event) subsToCall.
Proof.
  induction subsToCall as [|sub rest IH]; intros m m'; simpl.
  - intros [= <-]. exists []. by rewrite app_nil_r.
  - destruct (invoke handlers (emit fuel handlers) k sub event m) as [o|] eqn:Hi;
      [|done].
    assert (∃ new1, invocations (state_of o)
                    = (invocations m ++ mkInvocation k sub event :: new1)%list ∧
                    Forall (λ i, (S k ≤ inv_depth i)%nat) new1) as (new1 & Hn1 & Hf1).
    { unfold invoke in Hi. destruct (callback sub).
      - apply run_grows in Hi as (new1 & Hn1 & Hf1). exists new1.
        split; [|done]. rewrite Hn1. simpl. by rewrite <- app_assoc.
      - injection Hi as <-. exists []. by split. }
    assert (state_of (try_catch o (λ m0, Normal m0)) = state_of o) as ->
      by (by destruct o).
    intros Hd. apply IH in Hd as (new2 & Hn2 & Hf2).
    exists (mkInvocation k sub event :: new1 ++ new2)%list. split.
    + rewrite Hn2. destruct (once sub); simpl; rewrite Hn1;
        by rewrite <- app_assoc.
    + simpl. rewrite Nat.eqb_refl. f_equal.
      rewrite List.filter_app, (filter_deeper _ _ Hf1). done.
Qed.

Lemma emit_fired fuel k t data source m m' :
  emit fuel handlers k t data source m = Some m' →
  fired k m m' = subscribers t (bus m).
Proof.
  destruct fuel as [|fuel]; [done|].
  change (emit (S fuel) handlers k t data source m)
    with (emit_body handlers (emit fuel handlers) k t data source m).
  unfold emit_body, fired, subscribers.
  set (event := mkEvent t data (clock m) source).
  change (subscriptions (bus (with_bus (record event) m)))
    with (subscriptions (bus m)).
  destruct (subscriptions (bus m) !! t) as [[|sub subs]|].
  - intros [= <-]. simpl. by rewrite drop_all.
  - intros Hd. apply dispatch_fired in Hd as (new & Hn & Hf).
    rewrite Hn. simpl invocations. rewrite drop_app_length, Hf.
    rewrite map_map. simpl. by rewrite map_id.
  - intros [= <-]. simpl. by rewrite drop_all.
Qed.

(** With callbacks that never emit, an emit needs no more fuel than
    for itself: it returns. *)
Lemma run_quiet emit_rec k script : ∀ m,
  (∀ t data source, Emit t data source ∉ script) →
  is_Some (run emit_rec k script m).
Proof.
  induction script as [|a script IH]; intros m Hq; simpl; [by eexists|].
  assert (∃ o, perform emit_rec k a m = Some o ∧
               (∀ m', o = Normal m' → True)) as (o & -> & _).
  { destruct a; simpl; try (eexists; split; [reflexivity|done]).
    exfalso. eapply Hq. by left. }
  destruct o as [m'|m']; [|by eexists].
  apply IH. intros t data source Hin. eapply Hq. by right.
Qed.

Lemma dispatch_quiet emit_rec k t event subsToCall : ∀ m,
  quiet handlers →
  is_Some (dispatch handlers emit_rec k t event subsToCall m).
Proof.
  induction subsToCall as [|sub rest IH]; intros m Hq; simpl; [by eexists|].
  assert (is_Some (invoke handlers emit_rec k sub event m)) as [o ->].
  { unfold invoke. destruct (callback sub); [|by eexists].
    apply run_quiet. intros t' data source. apply Hq. }
  by apply IH.
Qed.

Theorem emit_quiet_returns fuel k t data source m :
  quiet handlers → is_Some (emit (S fuel) handlers k t data source m).
Proof.
  intros Hq. simpl. unfold emit_body.
  destruct (subscriptions _ !! t) as [[|sub subs]|]; try by eexists.
  by apply dispatch_quiet.
Qed.

(** The dispatch loop calls the subscribers of its snapshot one after
    the other. *)
Lemma dispatch_calls fuel k t event subsToCall : ∀ m,
  dispatch handlers (emit fuel handlers) k t event subsToCall m
  = call_each fuel handlers k t event subsToCall m.
Proof.
  induction subsToCall as [|sub rest IH]; intros m; simpl; [done|].
  unfold invoke, call. destruct (callback sub); simpl.
  - destruct (run (emit fuel handlers) (S k) (handlers n event) (logged k sub event m))
      as [[m1|m1]|]; simpl; [apply IH|apply IH|done].
  - apply IH.
Qed.

Lemma emit_calls fuel k t data source m :
  emit (S fuel) handlers k t data source m
  = call_each fuel handlers k t (mkEvent t data (clock m) source)
              (subscribers t (bus m))
              (with_bus (record (mkEvent t data (clock m) source)) m).
Proof.
  change (emit (S fuel) handlers k t data source m)
    with (emit_body handlers (emit fuel handlers) k t data source m).
  unfold emit_body, subscribers.
  change (subscriptions (bus (with_bus (record (mkEvent t data (clock m) source)) m)))
    with (subscriptions (bus m)).
  destruct (subscriptions (bus m) !! t) as [[|sub subs]|]; try done.
  apply dispatch_calls.
Qed.

(** C6: after any program of bus calls on a new bus (subscribe, once,
    unsubscribe, emit with callbacks that call the bus in turn, clear),
    the array of every event type is in descending priority with equal
    priorities in registration order. An emit records the event and then
    calls exactly the subscribers in that array at the time of the emit,
    in that order: each has its callback run with the event, on the bus
    as the callback before it left it, and the calls logged for the emit
    are those. *)
Theorem subscribers_fire_in_priority_order fuel program now o
    fuel' k t data source m' :
  exec fuel handlers program (boot now) = Some o →
  emit fuel' handlers k t data source (state_of o) = Some m' →
  StronglySorted fires_before (subscribers t (bus (state_of o))) ∧
  fired k (state_of o) m' = subscribers t (bus (state_of o)) ∧
  call_each (pred fuel') handlers k t (mkEvent t data (clock (state_of o)) source)
            (subscribers t (bus (state_of o)))
            (with_bus (record (mkEvent t data (clock (state_of o)) source)) (state_of o))
  = Some m'.
Proof.
  intros Hexec Hemit. split; [|split; [by eapply emit_fired|]].
  - apply exec_well_ordered in Hexec; [|apply well_ordered_boot].
    unfold subscribers.
    destruct (subscriptions (bus (state_of o)) !! t) as [subs|] eqn:Hl; simpl.
    + by apply Hexec in Hl as [? _].
    + constructor.
  - destruct fuel' as [|f]; [done|]. simpl pred. by rewrite <- emit_calls.
Qed.

End FiringOrder.

Section FiringOrderExample.
Import Bus.

Lemma emit_quiet_returns_witness :
  is_Some (emit 1 silent 0 "hit" VNull None
             (snd (subscribe "hit" (Handler 0) 0 (boot 0)))).
Proof.
  apply (emit_quiet_returns silent 0 0 "hit" VNull None).
  intros n event t data source Hin. inversion Hin.
Defined.

Lemma subscribers_fire_in_priority_order_witness :
  ∃ m m',
    exec 1 echo [Subscribe "hit" 0 0; Subscribe "hit" 1 10;
                 Once "hit" 2 0] (boot 0) = Some (Normal m) ∧
    emit 2 echo 0 "hit" (VBool true) None m = Some m' ∧
    StronglySorted fires_before (subscribers "hit" (bus m)) ∧
    map callback (fired 0 m m') = [Handler 1; Handler 0; Handler 2] ∧
    call_each 1 echo 0 "hit" (mkEvent "hit" (VBool true) (clock m) None)
              (subscribers "hit" (bus m))
              (with_bus (record (mkEvent "hit" (VBool true) (clock m) None)) m)
    = Some m'.
Proof.
  eexists _, _. split; [vm_compute; reflexivity|]. split; [vm_compute; reflexivity|].
  match goal with
  | |- StronglySorted _ (subscribers _ (bus ?m)) ∧ map _ (fired _ _ ?m') = _ ∧ _ =>
      destruct (subscribers_fire_in_priority_order echo 1
                  [Subscribe "hit" 0 0; Subscribe "hit" 1 10;
                   Once "hit" 2 0] 0 (Normal m)
                  2 0%nat "hit" (VBool true) None m') as (Hs & Hf & Hc);
        [vm_compute; reflexivity|vm_compute; reflexivity|]
  end.
  split; [exact Hs|]. split; [|exact Hc].
  etransitivity; [exact (f_equal (map callback) Hf)|reflexivity].
Defined.

End FiringOrderExample.

(** ** Which objects a clone is made of *)

Section IdentityFacts.
Import Identity.

Lemma node_ind_nested (P : node → Prop) :
  (∀ p, P (NPrim p)) →
  (∀ r items, Forall P items → P (NArr r items)) →
  (∀ r fs, Forall (λ kv, P (snd kv)) fs → P (NObj r fs)) →
  ∀ n, P n.
Proof.
  intros Hp Ha Ho. fix IH 1. intros [p|r items|r fs]; [apply Hp| |].
  - apply Ha. induction items as [|x items IHi]; constructor; [apply IH|exact IHi].
  - apply Ho. induction fs as [|[k x] fs IHf]; constructor; [apply IH|exact IHf].
Qed.

Lemma erase_set_field k x fs :
  erase_fields (set_field k x fs) = Factory.set_assoc k (erase x) (erase_fields fs).
Proof.
  induction fs as [|[k' x'] fs IH]; simpl; [done|].
  destruct (String.eqb k k'); simpl; [done|]. by rewrite IH.
Qed.

(** Without the identities, the clone is the [deepClone] of the factory
    model. *)
Lemma erase_deepClone n : ∀ next,
  erase (fst (deepClone n next)) = Factory.deepClone (erase n).
Proof.
  induction n as [p|r items IHi|r fs IHf] using node_ind_nested; intros next; simpl.
  - by destruct p.
  - destruct (clone_items deepClone items (S next)) as [items' next'] eqn:Hc. simpl.
    f_equal. rewrite map_map. revert items' next' Hc. generalize (S next).
    induction IHi as [|x items Hx _ IH]; intros n0 items' next'; simpl.
    + by intros [= <- <-].
    + destruct (deepClone x n0) as [x' n1] eqn:Hx'.
      destruct (clone_items deepClone items n1) as [rest n2] eqn:Hr.
      intros [= <- <-]. simpl. f_equal; [|by eapply IH].
      specialize (Hx n0). by rewrite Hx' in Hx.
  - destruct (clone_fields deepClone fs [] (S next)) as [fs' next'] eqn:Hc. simpl.
    f_equal. change (@nil (string * value)) with (erase_fields []).
    fold (erase_fields fs'). fold (erase_fields fs).
    revert fs' next' Hc. generalize (S next). generalize (@nil (string * node)).
    induction IHf as [|[k x] fs Hx _ IH]; intros cloned n0 fs' next'; simpl.
    + by intros [= <- <-].
    + destruct (deepClone x n0) as [x' n1] eqn:Hx'. intros Hc.
      apply IH in Hc. rewrite Hc, erase_set_field. do 2 f_equal.
      simpl in Hx. specialize (Hx n0). by rewrite Hx' in Hx.
Qed.

Lemma allocated_in_wider lo lo' hi hi' n :
  (lo' ≤ lo)%nat → (hi ≤ hi')%nat → allocated_in lo hi n → allocated_in lo' hi' n.
Proof.
  intros Hlo Hhi Hn. unfold allocated_in in *.
  eapply Forall_impl; [exact Hn|]. intros r. simpl. lia.
Qed.

Lemma allocated_in_set_field lo hi k x fs :
  allocated_in lo hi x →
  Forall (λ kv, allocated_in lo hi (snd kv)) fs →
  Forall (λ kv, allocated_in lo hi (snd kv)) (set_field k x fs).
Proof.
  intros Hx. induction 1 as [|[k' x'] fs Hx' Hfs IH]; simpl; [by constructor|].
  destruct (String.eqb k k'); by constructor.
Qed.

Lemma clone_items_fresh items :
  Forall fresh_clone items →
  ∀ n0, (n0 ≤ snd (clone_items deepClone items n0))%nat ∧
        Forall (allocated_in n0 (snd (clone_items deepClone items n0)))
               (fst (clone_items deepClone items n0)).
Proof.
  induction 1 as [|x items Hx _ IH]; intros n0; simpl; [by split|].
  destruct (Hx n0) as [Hle Hax].
  destruct (deepClone x n0) as [x' n1]. simpl in *.
  destruct (IH n1) as [Hle' Hrest].
  destruct (clone_items deepClone items n1) as [rest n2]. simpl in *.
  split; [lia|]. constructor.
  - by apply (allocated_in_wider n0 n0 n1).
  - eapply Forall_impl; [exact Hrest|]. intros y. apply allocated_in_wider; lia.
Qed.

Lemma clone_fields_fresh fs :
  Forall (λ kv, fresh_clone (snd kv)) fs →
  ∀ lo cloned n0, (lo ≤ n0)%nat →
    Forall (λ kv, allocated_in lo n0 (snd kv)) cloned →
    (n0 ≤ snd (clone_fields deepClone fs cloned n0))%nat ∧
    Forall (λ kv, allocated_in lo (snd (clone_fields deepClone fs cloned n0)) (snd kv))
           (fst (clone_fields deepClone fs cloned n0)).
Proof.
  induction 1 as [|[k x] fs Hx _ IH]; intros lo cloned n0 Hlo Hcl; simpl; [by split|].
  destruct (Hx n0) as [Hle Hax]. simpl in *.
  destruct (deepClone x n0) as [x' n1]. simpl in *.
  destruct (IH lo (set_field k x' cloned) n1) as [Hle' Hall]; [lia| |split; [lia|done]].
  apply allocated_in_set_field.
  - eapply allocated_in_wider; [| |exact Hax]; lia.
  - eapply Forall_impl; [exact Hcl|]. intros kv. apply allocated_in_wider; lia.
Qed.

(** Every array and object of a clone is new: allocated by the call. *)
Lemma deepClone_fresh n : fresh_clone n.
Proof.
  induction n as [p|r items IHi|r fs IHf] using node_ind_nested; intros next; simpl.
  - split; [done|constructor].
  - destruct (clone_items_fresh items IHi (S next)) as [Hle Hall].
    destruct (clone_items deepClone items (S next)) as [items' next']. simpl in *.
    split; [lia|]. unfold allocated_in. simpl. constructor; [lia|].
    apply Forall_flat_map. eapply Forall_impl; [exact Hall|].
    intros y. apply allocated_in_wider; lia.
  - destruct (clone_fields_fresh fs IHf (S next) [] (S next)) as [Hle Hall];
      [done|constructor|].
    destruct (clone_fields deepClone fs [] (S next)) as [fs' next']. simpl in *.
    split; [lia|]. unfold allocated_in. simpl. constructor; [lia|].
    apply Forall_flat_map. eapply Forall_impl; [exact Hall|].
    intros y. apply allocated_in_wider; lia.
Qed.

(** An instance is a [deepClone] of the resolved components. For data
    as it comes out of JSON, with ordinary property names throughout: two
    instances cloned one after the other from the same resolved data share
    no array or object with each other, nor with anything that existed
    before the first of them was made (the stored templates among it),
    and both hold the data of the original. *)
Theorem instances_share_nothing (resolved existing : node) next next' :
  Factory.plain (erase resolved) → Factory.ordinary (erase resolved) = true →
  allocated_in 0 next existing →
  (snd (deepClone resolved next) ≤ next')%nat →
  let first := fst (deepClone resolved next) in
  let second := fst (deepClone resolved next') in
  (∀ r, r ∈ refs first → r ∉ refs existing) ∧
  (∀ r, r ∈ refs second → r ∉ refs existing) ∧
  (∀ r, r ∈ refs first → r ∉ refs second) ∧
  erase first = erase resolved ∧
  erase second = erase resolved.
Proof.
  intros Hplain _ Hex Hnext. cbv zeta.
  destruct (deepClone_fresh resolved next) as [Hle1 H1].
  destruct (deepClone_fresh resolved next') as [Hle2 H2].
  unfold allocated_in in *. rewrite Forall_forall in Hex, H1, H2.
  repeat split.
  - intros r Hr Hr'. specialize (Hex r Hr'). specialize (H1 r Hr). lia.
  - intros r Hr Hr'. specialize (Hex r Hr'). specialize (H2 r Hr). lia.
  - intros r Hr Hr'. specialize (H1 r Hr). specialize (H2 r Hr'). lia.
  - rewrite erase_deepClone. by apply deepClone_plain.
  - rewrite erase_deepClone. by apply deepClone_plain.
Qed.

Lemma instances_share_nothing_witness :
  let first := fst (deepClone stored 3) in
  let second := fst (deepClone stored 6) in
  (∀ r, r ∈ refs first → r ∉ refs stored) ∧
  (∀ r, r ∈ refs second → r ∉ refs stored) ∧
  (∀ r, r ∈ refs first → r ∉ refs second) ∧
  erase first = erase stored ∧
  erase second = erase stored.
Proof.
  apply (instances_share_nothing stored stored 3 6).
  - repeat first
      [ apply NoDup_nil_2
      | apply NoDup_cons_2; [simpl; set_solver|]
      | constructor ].
  - reflexivity.
  - repeat constructor; lia.
  - vm_compute. lia.
Defined.

End IdentityFacts.

(** *** The history and the subscription handles *)

Section HistoryFacts.
Import Bus.

Lemma tail_drop {A} n : ∀ l : list A, tail (drop n l) = drop (S n) l.
Proof.
  induction n as [|n IH]; intros [|x l]; simpl; try done.
Qed.

Lemma record_latest pre event b :
  eventHistory b = drop (length pre - maxHistorySize b) pre →
  eventHistory (record event b)
    = drop (length (pre ++ [event]) - maxHistorySize b) (pre ++ [event])%list ∧
  maxHistorySize (record event b) = maxHistorySize b.
Proof.
  intros Hh. split; [|done]. unfold record. simpl. rewrite Hh.
  rewrite !length_app, length_drop. simpl.
  destruct (Nat.ltb_spec (maxHistorySize b)
              (length pre - (length pre - maxHistorySize b) + 1)) as [Hlt|Hge].
  - replace (length pre + 1 - maxHistorySize b)%nat
      with (S (length pre - maxHistorySize b)) by lia.
    rewrite <- drop_app_le by lia. apply tail_drop.
  - replace (length pre + 1 - maxHistorySize b)%nat
      with (length pre - maxHistorySize b)%nat by lia.
    by rewrite drop_app_le by lia.
Qed.

Lemma records_latest events : ∀ pre b,
  eventHistory b = drop (length pre - maxHistorySize b) pre →
  eventHistory (fold_left (λ b event, record event b) events b)
    = drop (length (pre ++ events) - maxHistorySize b) (pre ++ events)%list.
Proof.
  induction events as [|event events IH]; intros pre b Hh; simpl.
  - by rewrite app_nil_r.
  - destruct (record_latest pre event b Hh) as [Hh' Hmax].
    rewrite <- Hmax in Hh'. rewrite (IH (pre ++ [event])%list _ Hh'), Hmax.
    by rewrite <- app_assoc.
Qed.

(** The history is a ring: of the events recorded since it was last
    empty it keeps the latest [maxHistorySize], oldest first. *)
Theorem history_keeps_the_latest events b :
  eventHistory b = [] →
  eventHistory (fold_left (λ b event, record event b) events b)
    = drop (length events - maxHistorySize b) events.
Proof.
  intros Hh. apply (records_latest events [] b). by rewrite Hh.
Qed.

Variable handlers : nat → GameEvent → list Action.

(** Whatever a program does with a new bus, callbacks that emit in turn
    included, the history never holds more than 1000 events. *)
Theorem history_is_bounded fuel program now o :
  exec fuel handlers program (boot now) = Some o →
  (length (getHistory None None (bus (state_of o))) ≤ 1000)%nat.
Proof.
  intros Hexec.
  pose (bounded := λ m : Machine,
          (length (eventHistory (bus m)) ≤ maxHistorySize (bus m))%nat ∧
          maxHistorySize (bus m) = 1000%nat).
  assert (bounded (boot now) → bounded (state_of o)) as Hb.
  { revert Hexec. apply (exec_R handlers (λ _ m m', bounded m → bounded m')); auto.
    - intros _ f m [t cb|t ref| | |event] [Hlen Hmax]; unfold bounded; simpl.
      + unfold unsubscribe, splice_where.
        by destruct (subscriptions (bus m) !! t).
      + unfold cancel, splice_where.
        by destruct (subscriptions (bus m) !! t).
      + done.
      + split; [lia|done].
      + split; [|done].
        destruct (Nat.ltb_spec (maxHistorySize (bus m))
                    (length (eventHistory (bus m) ++ [event]))) as [Hlt|Hge]; [|lia].
        destruct (eventHistory (bus m)) as [|x h]; simpl in *; [lia|].
        rewrite length_app. simpl. lia. }
  destruct Hb as [Hlen Hmax]; [split; simpl; [lia|done]|].
  unfold getHistory. lia.
Qed.

End HistoryFacts.

Section HandleFacts.
Import Bus.

Lemma insert_head a l :
  Forall (λ y, (priority y ≤ priority a)%Z) l → insert a l = a :: l.
Proof.
  destruct 1 as [|y l Hy Hl]; simpl; [done|].
  destruct (Z.ltb_spec (priority a) (priority y)); [lia|done].
Qed.

Lemma fires_before_priority a l :
  Forall (fires_before a) l → Forall (λ y, (priority y ≤ priority a)%Z) l.
Proof. intros H. eapply Forall_impl; [exact H|]. unfold fires_before. simpl. lia. Qed.

(** Pushing a new Subscription and sorting, then splicing it out again,
    gives the array back. *)
Lemma remove_pushed subs x :
  StronglySorted fires_before subs →
  Forall (λ sub, (sub_ref sub < sub_ref x)%nat) subs →
  remove_first (λ sub, Nat.eqb (sub_ref sub) (sub_ref x)) (sort (subs ++ [x])) = subs.
Proof.
  unfold sort. rewrite fold_right_app. simpl.
  induction 1 as [|a s Hs IH Ha]; intros Hx; simpl.
  - by rewrite Nat.eqb_refl.
  - apply Forall_cons in Hx as [Hax Hsx]. specialize (IH Hsx).
    destruct (fold_right insert [x] s) as [|y l] eqn:EL; simpl in *.
    + subst s. destruct (Nat.eqb_spec (sub_ref a) (sub_ref x)); [lia|done].
    + destruct (Z.ltb_spec (priority a) (priority y)) as [Hlt|Hge]; simpl.
      * destruct (Nat.eqb (sub_ref y) (sub_ref x)) eqn:Ey.
        -- subst l. by apply insert_head, fires_before_priority.
        -- subst s. apply Forall_cons in Ha as [Hay _]. unfold fires_before in Hay. lia.
      * destruct (Nat.eqb_spec (sub_ref a) (sub_ref x)); [lia|]. by rewrite IH.
Qed.

Variable handlers : nat → GameEvent → list Action.

(** On a bus reached by any program, calling the function that
    [subscribe] (or [once]) has just returned undoes the subscription:
    every event type has the subscribers it had before, in the same
    order. *)
Theorem unsubscribe_function_undoes_subscribe fuel program now o
    is_once eventType cb prio t :
  exec fuel handlers program (boot now) = Some o →
  let m := state_of o in
  let handle := fst (register is_once eventType cb prio m) in
  let m' := with_bus (cancel eventType handle) (snd (register is_once eventType cb prio m)) in
  subscribers t (bus m') = subscribers t (bus m).
Proof.
  intros Hexec. apply exec_well_ordered in Hexec; [|apply well_ordered_boot].
  cbv zeta. set (m := state_of o) in *.
  unfold subscribers, cancel, splice_where. simpl.
  rewrite lookup_insert_eq. simpl.
  destruct (decide (eventType = t)) as [<-|Hne].
  - rewrite lookup_insert_eq. simpl. unfold subscribers.
    destruct (subscriptions (bus m) !! eventType) as [subs|] eqn:Hl; simpl.
    + apply Hexec in Hl as [Hs Hf].
      exact (remove_pushed subs (mkSub (allocated m) cb prio is_once) Hs Hf).
    + by rewrite Nat.eqb_refl.
  - by rewrite !lookup_insert_ne by done.
Qed.

End HandleFacts.

Section EdgeExamples.
Import Scheduler Loop World.

Lemma paused_world_sits_out_the_ticks_witness :
  ∃ r, session (World.update (λ w : Z, w)) 32 (float_of_Z 60) (float_of_Z 0)
               [float_of_Z 100; float_of_Z 200] resting = Some r ∧
       snd (state_of r) = resting.
Proof.
  eexists. split; [vm_compute; reflexivity|].
  apply (paused_world_sits_out_the_ticks (λ w : Z, w) 32 (float_of_Z 60) (float_of_Z 0)
           [float_of_Z 100; float_of_Z 200] resting).
  - reflexivity.
  - vm_compute. reflexivity.
Defined.

Lemma frequency_schedule_witness :
  ∃ st', updates (λ w : Z, w) seven_ticks paced = Normal st' ∧
    Scheduler.tickCount st' = 7%Z ∧
    world st' = snd (serve_ticks seven_ticks 0 (systems paced) (world paced)) ∧
    calls st' = names_called (fst (serve_ticks seven_ticks 0 (systems paced) (world paced))) ∧
    Z.of_nat (times_updated "Slow" st') = (7 / 3)%Z.
Proof.
  apply (frequency_schedule (λ w : Z, w) seven_ticks paced
           ("Slow", mkReg slow Scheduler.update 0 0 0)).
  - reflexivity.
  - reflexivity.
  - repeat (apply NoDup_cons; split;
            [intros Hin; repeat (apply elem_of_cons in Hin as [Hin|Hin]; [discriminate|]);
             by apply elem_of_nil in Hin|]).
    apply NoDup_nil. done.
  - right. left.
  - reflexivity.
  - simpl. lia.
Defined.

End EdgeExamples.

Section HistoryExamples.
Import Bus.

Lemma history_keeps_the_latest_witness :
  eventHistory (fold_left (λ b event, record event b)
                  [mkEvent "a" VNull 0 None; mkEvent "b" VNull 1 None] Bus.new)
  = drop (2 - maxHistorySize Bus.new) [mkEvent "a" VNull 0 None; mkEvent "b" VNull 1 None].
Proof.
  apply (history_keeps_the_latest
           [mkEvent "a" VNull 0 None; mkEvent "b" VNull 1 None] Bus.new).
  reflexivity.
Defined.

Lemma history_is_bounded_witness :
  ∃ o, exec 2 mover [Subscribe "command:executed" 0 0;
                     Emit "command:executed" VNull None] (boot 0) = Some o ∧
       (length (getHistory None None (bus (state_of o))) ≤ 1000)%nat.
Proof.
  eexists. split; [vm_compute; reflexivity|].
  apply (history_is_bounded mover 2 [Subscribe "command:executed" 0 0;
                                     Emit "command:executed" VNull None] 0).
  vm_compute. reflexivity.
Defined.

Lemma unsubscribe_function_undoes_subscribe_witness :
  ∃ o, exec 1 silent [Subscribe "hit" 0 0; Subscribe "hit" 1 10] (boot 0) = Some o ∧
    subscribers "hit"
      (bus (with_bus (cancel "hit" (fst (register true "hit" (Handler 2) 5 (state_of o))))
                     (snd (register true "hit" (Handler 2) 5 (state_of o)))))
    = subscribers "hit" (bus (state_of o)).
Proof.
  eexists. split; [vm_compute; reflexivity|].
  apply (unsubscribe_function_undoes_subscribe silent 1
           [Subscribe "hit" 0 0; Subscribe "hit" 1 10] 0 _ true "hit" (Handler 2) 5 "hit").
  vm_compute. reflexivity.
Defined.

End HistoryExamples.

(** *** Once means once, as long as no callback emits *)

Section OnceFacts.
Import Bus.

Lemma insert_Permutation x l : insert x l ≡ₚ x :: l.
Proof.
  induction l as [|y l IH]; simpl; [done|].
  destruct (priority x <? priority y)%Z; [|done].
  rewrite IH. apply Permutation_swap.
Qed.

Lemma sort_Permutation l : sort l ≡ₚ l.
Proof.
  induction l as [|x l IH]; simpl; [done|].
  by rewrite insert_Permutation, IH.
Qed.

Lemma remove_first_sublist p l : remove_first p l `sublist_of` l.
Proof.
  induction l as [|x l IH]; simpl; [done|].
  destruct (p x); [by apply sublist_cons|by apply sublist_skip].
Qed.

Lemma remove_first_gone p l s :
  NoDup l → p s = true → (∀ s', s' ∈ l → p s' = true → s' = s) →
  s ∉ remove_first p l.
Proof.
  induction 1 as [|x l Hx Hl IH]; intros Hp Hu; simpl; [apply not_elem_of_nil|].
  destruct (p x) eqn:Hpx.
  - rewrite <- (Hu x); [done|by left|done].
  - apply not_elem_of_cons. split; [congruence|].
    apply IH; [done|]. intros s' Hs'. apply Hu. by right.
Qed.

Lemma times_called_logged r k sub event m :
  times_called r (logged k sub event m)
  = (times_called r m + (if Nat.eqb (sub_ref sub) r then 1 else 0))%nat.
Proof.
  unfold times_called. simpl. rewrite List.filter_app, length_app. simpl.
  by destruct (Nat.eqb (sub_ref sub) r).
Qed.

Lemma times_called_zero r m :
  (∀ i, i ∈ invocations m → sub_ref (inv_sub i) ≠ r) → times_called r m = 0%nat.
Proof.
  unfold times_called. induction (invocations m) as [|i l IH]; intros Hn; simpl; [done|].
  destruct (Nat.eqb_spec (sub_ref (inv_sub i)) r) as [Heq|_].
  - destruct (Hn i); [by left|done].
  - apply IH. intros j Hj. apply Hn. by right.
Qed.

Lemma times_called_positive r m i :
  i ∈ invocations m → sub_ref (inv_sub i) = r → (0 < times_called r m)%nat.
Proof.
  unfold times_called. intros Hi Hr.
  assert (i ∈ List.filter (λ j, Nat.eqb (sub_ref (inv_sub j)) r) (invocations m)) as Hin.
  { apply list_elem_of_In, filter_In. split; [by apply list_elem_of_In|].
    by apply Nat.eqb_eq. }
  destruct (List.filter _ _); [by apply elem_of_nil in Hin|simpl; lia].
Qed.

Lemma made_below busy made m r v : tidy busy made m → made !! r = Some v → (r < allocated m)%nat.
Proof.
  intros Ht Hr. destruct (Nat.lt_ge_cases r (allocated m)) as [|Hge]; [done|].
  rewrite (tidy_fresh _ _ _ Ht r Hge) in Hr. done.
Qed.

(** Fewer subscriptions, the same log: still tidy. *)
Lemma tidy_shrink busy made m m' :
  allocated m' = allocated m → invocations m' = invocations m →
  (∀ t sub, live t sub m' → live t sub m) →
  (∀ t subs, subscriptions (bus m') !! t = Some subs → NoDup subs) →
  tidy busy made m → tidy busy made m'.
Proof.
  intros Ha Hi Hl Hn [T1 T2 T3 T4 T5 T6]. split; unfold times_called in *.
  - intros t sub H. apply T1. by apply Hl.
  - rewrite Hi. apply T2.
  - rewrite Ha. apply T3.
  - exact Hn.
  - intros t sub H. rewrite Hi. apply (T5 t). by apply Hl.
  - rewrite Hi. apply T6.
Qed.

Lemma tidy_splice busy made p t m :
  tidy busy made m → tidy busy made (with_bus (splice_where p t) m).
Proof.
  intros Ht. apply (tidy_shrink busy made m); try done; unfold splice_where; simpl.
  - intros t' sub (subs' & Hs & Hin).
    revert Hs. simpl.
    destruct (subscriptions (bus m) !! t) as [subs|] eqn:Hl; simpl; intros Hs;
      [|by exists subs'].
    destruct (decide (t = t')) as [<-|Hne].
    + rewrite lookup_insert_eq in Hs. injection Hs as <-. exists subs. split; [done|].
      eapply elem_of_sublist; [exact Hin|apply remove_first_sublist].
    + rewrite lookup_insert_ne in Hs by done. by exists subs'.
  - intros t' subs'. simpl.
    destruct (subscriptions (bus m) !! t) as [subs|] eqn:Hl; simpl; intros Hs;
      [|by eapply tidy_nodup].
    destruct (decide (t = t')) as [<-|Hne].
    + rewrite lookup_insert_eq in Hs. injection Hs as <-.
      eapply sublist_NoDup; [|apply remove_first_sublist]. by eapply tidy_nodup.
    + rewrite lookup_insert_ne in Hs by done. by eapply tidy_nodup.
Qed.

Lemma tidy_bus_step busy made f m :
  bus_step f → tidy busy made m → tidy busy made (with_bus f m).
Proof.
  intros [t cb|t ref| | |event] Ht.
  - by apply tidy_splice.
  - by apply tidy_splice.
  - apply (tidy_shrink busy made m); try done; simpl.
    intros t sub (subs & Hs & _). simpl in Hs. by rewrite lookup_empty in Hs.
  - apply (tidy_shrink busy made m); try done.
    intros t subs Hs. exact (tidy_nodup _ _ _ Ht t subs Hs).
  - apply (tidy_shrink busy made m); try done.
    intros t subs Hs. exact (tidy_nodup _ _ _ Ht t subs Hs).
Qed.

Lemma live_register is_once t cb prio m t' sub :
  live t' sub (snd (register is_once t cb prio m)) →
  (t' = t ∧ sub = mkSub (allocated m) cb prio is_once) ∨ live t' sub m.
Proof.
  intros (subs' & Hs & Hin). simpl in Hs.
  destruct (decide (t = t')) as [<-|Hne].
  - rewrite lookup_insert_eq in Hs. injection Hs as <-.
    rewrite sort_Permutation in Hin. apply elem_of_app in Hin as [Hin|Hin].
    + right. unfold subscribers in Hin.
      destruct (subscriptions (bus m) !! t) as [subs|] eqn:Hl; simpl in Hin.
      * by exists subs.
      * by apply elem_of_nil in Hin.
    + left. by apply list_elem_of_singleton in Hin.
  - rewrite lookup_insert_ne in Hs by done. right. by exists subs'.
Qed.

Lemma tidy_register busy made is_once t cb prio m :
  tidy busy made m →
  tidy busy (<[allocated m := (t, mkSub (allocated m) cb prio is_once)]> made)
       (snd (register is_once t cb prio m)).
Proof.
  intros Ht. pose proof Ht as [T1 T2 T3 T4 T5 T6].
  assert (made !! allocated m = None) as Hnew by (by apply T3).
  split.
  - intros t' sub [[-> ->]|Hl]%live_register.
    + simpl. by rewrite lookup_insert_eq.
    + pose proof (T1 _ _ Hl) as Hm. pose proof (made_below _ _ _ _ _ Ht Hm).
      rewrite lookup_insert_ne by lia. done.
  - simpl. intros i Hi. destruct (T2 i Hi) as [t' Hm]. exists t'.
    pose proof (made_below _ _ _ _ _ Ht Hm).
    rewrite lookup_insert_ne by lia. done.
  - simpl. intros r Hr. rewrite lookup_insert_ne by lia. apply T3. lia.
  - simpl. intros t' subs'. destruct (decide (t = t')) as [<-|Hne].
    + rewrite lookup_insert_eq. intros [= <-]. rewrite sort_Permutation.
      apply NoDup_app. repeat split.
      * unfold subscribers.
        destruct (subscriptions (bus m) !! t) as [subs|] eqn:Hl; simpl;
          [by eapply T4|apply NoDup_nil_2].
      * intros sub Hin ->%list_elem_of_singleton.
        assert (live t (mkSub (allocated m) cb prio is_once) m) as Hl.
        { unfold subscribers in Hin.
          destruct (subscriptions (bus m) !! t) as [subs|] eqn:Hl; simpl in Hin.
          - by exists subs.
          - by apply elem_of_nil in Hin. }
        apply T1 in Hl. simpl in Hl. congruence.
      * apply NoDup_singleton.
    + rewrite lookup_insert_ne by done. apply T4.
  - intros t' sub [[-> ->]|Hl]%live_register Ho Hb.
    + simpl. apply times_called_zero. intros i Hi Hr.
      destruct (T2 i Hi) as [t' Hm]. rewrite Hr in Hm. congruence.
    + by apply (T5 t').
  - exact T6.
Qed.

Lemma settled_refl busy m : settled busy m m.
Proof. split; [done|]. intros made Ht. by exists made. Qed.

Lemma settled_trans busy m1 m2 m3 :
  settled busy m1 m2 → settled busy m2 m3 → settled busy m1 m3.
Proof.
  intros [Hi1 H1] [Hi2 H2]. split; [congruence|]. intros made Ht.
  destruct (H1 made Ht) as (made1 & Hs1 & Ht1).
  destruct (H2 made1 Ht1) as (made2 & Hs2 & Ht2).
  exists made2. split; [by etrans|done].
Qed.

Lemma settled_register busy is_once t cb prio m :
  settled busy m (snd (register is_once t cb prio m)).
Proof.
  split; [done|]. intros made Ht. eexists. split; [|by apply tidy_register].
  apply insert_subseteq. by eapply tidy_fresh.
Qed.

Lemma settled_bus_step busy f m : bus_step f → settled busy m (with_bus f m).
Proof.
  intros Hf. split; [by destruct Hf|]. intros made Ht. exists made.
  split; [done|by apply tidy_bus_step].
Qed.

Lemma run_emits_nothing emit_rec emit_rec' k script : ∀ m,
  emits_nothing script → run emit_rec k script m = run emit_rec' k script m.
Proof.
  induction script as [|a script IH]; intros m Hq; simpl; [done|].
  assert (perform emit_rec k a m = perform emit_rec' k a m) as ->.
  { destruct a; try done. exfalso. eapply Hq. by left. }
  destruct (perform emit_rec' k a m) as [[m'|m']|]; try done.
  apply IH. intros t data source Hin. eapply Hq. by right.
Qed.

Lemma run_settled busy emit_rec k script m o :
  emits_nothing script →
  run emit_rec k script m = Some o → settled busy m (state_of o).
Proof.
  intros Hq. rewrite (run_emits_nothing emit_rec (λ _ _ _ _ _, None)) by done.
  apply (run_R (λ _, settled busy)).
  - intros _. apply settled_refl.
  - intros _. apply settled_trans.
  - intros _. apply settled_register.
  - intros _. apply settled_bus_step.
  - done.
Qed.

Variable handlers : nat → GameEvent → list Action.
Hypothesis handlers_quiet : quiet handlers.

Lemma invoke_settled emit_rec k sub event m o :
  invoke handlers emit_rec k sub event m = Some o →
  settled (Some (sub_ref sub)) (logged k sub event m) (state_of o).
Proof.
  unfold invoke. destruct (callback sub).
  - apply run_settled. intros t data source. apply handlers_quiet.
  - intros [= <-]. simpl. split; [done|]. intros made Ht. exists made.
    split; [done|]. apply (tidy_shrink _ _ (logged k sub event m)); try done.
    intros t subs Hs. exact (tidy_nodup _ _ _ Ht t subs Hs).
Qed.

(** The callback of [sub] is entered. *)
Lemma tidy_logged made t k sub event m :
  tidy None made m → made !! sub_ref sub = Some (t, sub) →
  (once sub = true → times_called (sub_ref sub) m = 0%nat) →
  tidy (Some (sub_ref sub)) made (logged k sub event m).
Proof.
  intros [T1 T2 T3 T4 T5 T6] Hm Hz. split.
  - exact T1.
  - simpl. intros i [Hi| ->%list_elem_of_singleton]%elem_of_app; [by apply T2|].
    by exists t.
  - exact T3.
  - exact T4.
  - intros t' sub' Hl Ho Hb. rewrite times_called_logged.
    destruct (Nat.eqb_spec (sub_ref sub) (sub_ref sub')) as [Heq|_]; [congruence|].
    rewrite (T5 t'); done.
  - simpl. intros i [Hi| ->%list_elem_of_singleton]%elem_of_app Ho;
      rewrite times_called_logged; simpl in *.
    + destruct (Nat.eqb_spec (sub_ref sub) (sub_ref (inv_sub i))) as [Heq|_].
      * destruct (T2 i Hi) as [t' Hm']. rewrite <- Heq, Hm in Hm'.
        injection Hm' as _ Hsub. rewrite <- Hsub in Ho.
        pose proof (times_called_positive _ _ _ Hi (eq_sym Heq)). rewrite Hz in *; [lia|done].
      * rewrite (T6 i); done.
    + rewrite Nat.eqb_refl, Hz; done.
Qed.

(** The callback of [sub] has returned, and [sub] was spliced out if it
    was a [once] subscription. *)
Lemma tidy_left made t sub m :
  tidy (Some (sub_ref sub)) made m → made !! sub_ref sub = Some (t, sub) →
  tidy None made (if once sub then with_bus (cancel t (sub_ref sub)) m else m).
Proof.
  intros Ht Hm.
  assert (∀ t' sub', live t' sub' m → sub_ref sub' = sub_ref sub → t' = t ∧ sub' = sub)
    as Hsame.
  { intros t' sub' Hl Heq. apply (tidy_live _ _ _ Ht) in Hl. rewrite Heq, Hm in Hl.
    by injection Hl as -> ->. }
  destruct (once sub) eqn:Ho.
  - assert (tidy (Some (sub_ref sub)) made (with_bus (cancel t (sub_ref sub)) m)) as Ht'
      by (by apply tidy_splice).
    destruct Ht' as [T1 T2 T3 T4 T5 T6]. split; try done.
    intros t' sub' Hl Ho' _.
    destruct (decide (sub_ref sub' = sub_ref sub)) as [Heq|Hne];
      [|apply (T5 t'); [done..|congruence]].
    exfalso. destruct Hl as (subs' & Hs & Hin). unfold cancel, splice_where in Hs.
    revert Hs. simpl.
    destruct (subscriptions (bus m) !! t) as [subs|] eqn:Hl; simpl; intros Hs.
    + destruct (decide (t = t')) as [<-|Hne].
      * rewrite lookup_insert_eq in Hs. injection Hs as <-.
        assert (sub' = sub) as ->.
        { apply (Hsame t); [|done]. exists subs. split; [done|].
          eapply elem_of_sublist; [exact Hin|apply remove_first_sublist]. }
        revert Hin. apply remove_first_gone.
        -- by eapply tidy_nodup.
        -- apply Nat.eqb_refl.
        -- intros s' Hs' Hr%Nat.eqb_eq. apply (Hsame t); [by exists subs|done].
      * rewrite lookup_insert_ne in Hs by done.
        destruct (Hsame t' sub'); [by exists subs'|done|]. done.
    + destruct (Hsame t' sub') as [-> _]; [by exists subs'|done|]. congruence.
  - destruct Ht as [T1 T2 T3 T4 T5 T6]. split; try done.
    intros t' sub' Hl Ho' _.
    destruct (decide (sub_ref sub' = sub_ref sub)) as [Heq|Hne];
      [|apply (T5 t'); [done..|congruence]].
    destruct (Hsame t' sub' Hl Heq) as [_ ->]. congruence.
Qed.

(** The [for] loop of [emit] over its snapshot. *)
Lemma dispatch_tidy emit_rec k t event snapshot : ∀ made m m',
  dispatch handlers emit_rec k t event snapshot m = Some m' →
  tidy None made m → NoDup snapshot →
  (∀ sub, sub ∈ snapshot → made !! sub_ref sub = Some (t, sub)) →
  (∀ sub, sub ∈ snapshot → once sub = true → times_called (sub_ref sub) m = 0%nat) →
  ∃ made', made ⊆ made' ∧ tidy None made' m'.
Proof.
  induction snapshot as [|sub rest IH]; intros made m m'; simpl.
  - intros [= <-] Ht _ _ _. by exists made.
  - destruct (invoke handlers emit_rec k sub event m) as [o|] eqn:Hi; [|done].
    assert (state_of (try_catch o (λ m0, Normal m0)) = state_of o) as ->
      by (by destruct o).
    intros Hd Ht Hnd Hmade Hzero. apply NoDup_cons in Hnd as [Hsub Hnd].
    apply invoke_settled in Hi as [Hlog Hset].
    destruct (Hset made) as (made1 & Hsub1 & Ht1).
    { apply (tidy_logged made t); [done|apply Hmade; by left|apply Hzero; by left]. }
    assert (made1 !! sub_ref sub = Some (t, sub)) as Hm1.
    { eapply lookup_weaken; [|exact Hsub1]. apply Hmade. by left. }
    pose proof (tidy_left made1 t sub _ Ht1 Hm1) as Ht2.
    assert (∀ r, times_called r (if once sub then with_bus (cancel t (sub_ref sub)) (state_of o)
                                 else state_of o)
                 = times_called r (logged k sub event m)) as Hcount.
    { intros r. unfold times_called. rewrite <- Hlog. by destruct (once sub). }
    destruct (IH made1 _ _ Hd Ht2 Hnd) as (made2 & Hsub2 & Ht').
    + intros sub' Hin. eapply lookup_weaken; [|exact Hsub1]. apply Hmade. by right.
    + intros sub' Hin Ho. rewrite Hcount, times_called_logged.
      destruct (Nat.eqb_spec (sub_ref sub) (sub_ref sub')) as [Heq|_].
      * exfalso. apply Hsub.
        assert (Some (t, sub) = Some (t, sub')) as [= ->]; [|done].
        rewrite <- (Hmade sub) by (by left). rewrite Heq. apply Hmade. by right.
      * rewrite Hzero; [done|by right|done].
    + exists made2. split; [by etrans|done].
Qed.

Lemma emit_tidy fuel k t data source made m m' :
  emit fuel handlers k t data source m = Some m' →
  tidy None made m → ∃ made', made ⊆ made' ∧ tidy None made' m'.
Proof.
  destruct fuel as [|fuel]; [done|]. simpl. unfold emit_body.
  set (event := mkEvent t data (clock m) source). intros He Ht.
  assert (tidy None made (with_bus (record event) m)) as Ht1
    by (apply tidy_bus_step; [constructor|done]).
  destruct (subscriptions (bus (with_bus (record event) m)) !! t) as [[|sub subs]|] eqn:Hl.
  - injection He as <-. by exists made.
  - revert He. intros He. eapply dispatch_tidy in He; [exact He|done|..].
    + by eapply tidy_nodup.
    + intros s Hs. apply (tidy_live _ _ _ Ht1). by eexists.
    + intros s Hs Ho. apply (tidy_pending _ _ _ Ht1 t); [by eexists|done..].
  - injection He as <-. by exists made.
Qed.

Lemma tidy_boot now : tidy None ∅ (boot now).
Proof.
  split; simpl.
  - intros t sub (subs & Hs & _). simpl in Hs. by rewrite lookup_empty in Hs.
  - intros i Hi. by apply elem_of_nil in Hi.
  - intros r _. apply lookup_empty.
  - intros t subs Hs. by rewrite lookup_empty in Hs.
  - intros t sub (subs & Hs & _). simpl in Hs. by rewrite lookup_empty in Hs.
  - intros i Hi. by apply elem_of_nil in Hi.
Qed.

(** As long as no callback emits an event itself, once means once:
    whatever a program does with a new bus, a [once] subscription that
    was called was called one time, and one that is still subscribed has
    not been called. *)
Theorem once_fires_once_without_nested_emit fuel program now o :
  exec fuel handlers program (boot now) = Some o →
  (∀ i, i ∈ invocations (state_of o) → once (inv_sub i) = true →
     times_called (sub_ref (inv_sub i)) (state_of o) = 1%nat) ∧
  (∀ t sub, sub ∈ subscribers t (bus (state_of o)) → once sub = true →
     times_called (sub_ref sub) (state_of o) = 0%nat).
Proof.
  intros Hexec.
  assert (∃ made, tidy None made (state_of o)) as [made [T1 T2 T3 T4 T5 T6]].
  { assert (∀ made, tidy None made (boot now) →
                    ∃ made', made ⊆ made' ∧ tidy None made' (state_of o)) as H.
    { revert Hexec.
      apply (run_R (λ _ m m', ∀ made, tidy None made m →
                                ∃ made', made ⊆ made' ∧ tidy None made' m')).
      - intros _ m made Ht. by exists made.
      - intros _ m1 m2 m3 H1 H2 made Ht.
        destruct (H1 made Ht) as (made1 & Hs1 & Ht1).
        destruct (H2 made1 Ht1) as (made2 & Hs2 & Ht2).
        exists made2. split; [by etrans|done].
      - intros _ is_once t cb p m. apply settled_register.
      - intros _ f m Hf. by apply settled_bus_step.
      - intros k t data source m m' He made Ht. by eapply emit_tidy. }
    destruct (H ∅ (tidy_boot now)) as (made & _ & Ht). by exists made. }
  split; [exact T6|].
  intros t sub Hin Ho. apply (T5 t); [|done..].
  unfold subscribers in Hin.
  destruct (subscriptions (bus (state_of o)) !! t) as [subs|] eqn:Hl; simpl in Hin.
  - by exists subs.
  - by apply elem_of_nil in Hin.
Qed.

End OnceFacts.

Section OnceExample.
Import Bus.

Lemma once_fires_once_without_nested_emit_witness :
  ∃ o, exec 1 silent [Once "hit" 0 0; Subscribe "hit" 1 5; Emit "hit" VNull None;
                      Once "hit" 2 0; Emit "hit" VNull None] (boot 0) = Some o ∧
    (∀ i, i ∈ invocations (state_of o) → once (inv_sub i) = true →
       times_called (sub_ref (inv_sub i)) (state_of o) = 1%nat) ∧
    (∀ t sub, sub ∈ subscribers t (bus (state_of o)) → once sub = true →
       times_called (sub_ref sub) (state_of o) = 0%nat).
Proof.
  eexists. split; [vm_compute; reflexivity|].
  apply (once_fires_once_without_nested_emit silent) with (fuel := 1%nat)
    (program := [Once "hit" 0 0; Subscribe "hit" 1 5; Emit "hit" VNull None;
                 Once "hit" 2 0; Emit "hit" VNull None]) (now := 0).
  - intros n event t data source Hin. inversion Hin.
  - vm_compute. reflexivity.
Defined.

End OnceExample.

(** ** Ids, and setting a world up *)

Section IdFacts.
Import Factory.

Lemma plain_text_app s s' : plain_text s → plain_text s' → plain_text (s +:+ s').
Proof. induction s as [|c s IH]; simpl; [done|]. intros [? ?] ?. auto. Qed.

Lemma pretty_N_go_plain x : ∀ s, plain_text s → plain_text (pretty_N_go x s).
Proof.
  induction (N.lt_wf_0 x) as [x _ IH]. intros s Hs.
  destruct (decide (x = 0%N)) as [->|Hx]; [by rewrite pretty_N_go_0|].
  rewrite pretty_N_go_step by lia. apply IH; [apply N.div_lt; lia|].
  simpl. split; [|done]. unfold pretty_N_char. by repeat case_match.
Qed.

Lemma pretty_N_plain (x : N) : plain_text (pretty x).
Proof.
  unfold pretty, pretty_N. case_decide; [by repeat split|].
  by apply pretty_N_go_plain.
Qed.

Lemma pretty_Z_plain (x : Z) : plain_text (pretty x).
Proof.
  destruct x as [|p|p]; unfold pretty, pretty_Z.
  - by repeat split.
  - apply pretty_N_plain.
  - simpl. split; [done|]. apply pretty_N_plain.
Qed.

(** Where the first underscore stands tells the two halves apart. *)
Lemma split_at_underscore a : ∀ a' b b',
  plain_text a → plain_text a' →
  a +:+ "_" +:+ b = a' +:+ "_" +:+ b' → a = a' ∧ b = b'.
Proof.
  induction a as [|c a IH]; intros [|c' a'] b b'; cbn.
  - intros _ _ Heq. by inversion Heq.
  - intros _ [Hc _] Heq. inversion Heq. congruence.
  - intros [Hc _] _ Heq. inversion Heq. congruence.
  - intros [_ Ha] [_ Ha'] Heq. inversion Heq as [[Hc Heq']].
    by destruct (IH _ _ _ Ha Ha' Heq') as [-> ->].
Qed.

Lemma entity_id_inj now now' (c c' : nat) :
  entity_id now c = entity_id now' c' → now = now' ∧ c = c'.
Proof.
  unfold entity_id. intros Heq. simpl in Heq. injection Heq as Heq.
  apply split_at_underscore in Heq as [Hn Hc]; try apply pretty_Z_plain.
  split; [by apply (inj pretty)|by apply (inj pretty)].
Qed.

Lemma generateId_default now f :
  customIdGenerator f = None →
  generateId now f
  = (entity_id now (idCounter f),
     mkFactory (templates f) (typeRegistry f) (increment (idCounter f)) None
               (S (generated f))).
Proof. unfold generateId. by intros ->. Qed.

Lemma increment_below counter :
  (Z.of_nat counter < max_safe_counter)%Z → increment counter = S counter.
Proof. intros Hlt. unfold increment. by destruct (Z.ltb_spec (Z.of_nat counter) max_safe_counter); [|lia]. Qed.

End IdFacts.

Section SetupFacts.
Import Factory.

Lemma createFromType_default now ty comps f :
  customIdGenerator f = None →
  (Z.of_nat (idCounter f) < max_safe_counter)%Z →
  match createFromType now ty comps f with
  | Returned e f' =>
      id e = entity_id now (idCounter f) ∧ type e = ty ∧
      components e = clone_components comps ∧
      idCounter f' = S (idCounter f) ∧ customIdGenerator f' = None
  | Threw _ f' =>
      (idCounter f ≤ idCounter f' ≤ S (idCounter f))%nat ∧ customIdGenerator f' = None
  end.
Proof.
  intros Hg Hlt. unfold createFromType.
  destruct (match typeRegistry f with Some r => hasType r ty | None => true end);
    [|split; [lia|done]].
  rewrite generateId_default, increment_below by done. unfold validated. simpl.
  destruct (typeRegistry f) as [r|]; [|done].
  destruct (validate r _); simpl; [done|split; [lia|done]].
Qed.

Lemma createAll_ok requests : ∀ f m,
  customIdGenerator f = None →
  (Z.of_nat (idCounter f) + Z.of_nat (length requests) ≤ max_safe_counter)%Z →
  Store.consistent m ∧ Store.keyed m → stocked_by f m →
  let '(err, f', m') := createAll requests f m in
  (Store.consistent m' ∧ Store.keyed m') ∧ stocked_by f' m' ∧
  (err = None → size (Store.entities m') = (size (Store.entities m) + length requests)%nat).
Proof.
  induction requests as [|r rest IH]; intros f m Hg Hroom Hm Hs; simpl.
  - split; [done|]. split; [done|]. intros _. lia.
  - simpl in Hroom.
    pose proof (createFromType_default (r_now r) (r_type r) (r_components r) f Hg
                  ltac:(lia)) as Hc.
    destruct (createFromType _ _ _ f) as [e f1|err f1].
    + destruct Hc as (Hid & _ & _ & Hcount & Hg1).
      assert (Store.entities m !! id e = None) as Hfresh.
      { destruct (Store.entities m !! id e) as [e'|] eqn:He; [|done].
        destruct (Hs _ _ He) as (now & c & Heq & Hlt).
        rewrite Hid in Heq. apply entity_id_inj in Heq as [_ <-]. lia. }
      specialize (IH f1 (Store.add e m) Hg1 ltac:(lia) (add_fresh_ok e m Hfresh Hm)).
      destruct (createAll rest f1 (Store.add e m)) as [[err f'] m'].
      destruct IH as (Hm' & Hs' & Hsize).
      * intros i e'. simpl. destruct (decide (id e = i)) as [<-|Hne].
        -- rewrite lookup_insert_eq. intros _. exists (r_now r), (idCounter f).
           split; [done|lia].
        -- rewrite lookup_insert_ne by done. intros He'.
           destruct (Hs _ _ He') as (now & c & -> & Hlt). exists now, c. split; [done|lia].
      * split; [done|]. split; [done|]. intros Herr. rewrite (Hsize Herr). simpl.
        rewrite map_size_insert_None by done. lia.
    + destruct Hc as [Hle Hg1]. split; [done|]. split; [|done].
      intros i e He. destruct (Hs _ _ He) as (now & c & -> & Hlt).
      exists now, c. split; [done|lia].
Qed.

(** Setting a world up as [initializeGameData] does, with a factory that
    uses the built-in id generator and an empty manager, component data
    with ordinary names, and an id counter that stays within 2^53 (where
    [idCounter++] still counts): the ids that [createFromType] hands out
    never collide, whatever the clock reads, so the manager's indices are
    exact afterwards, and when no call threw the manager holds one entity
    for every request. *)
Theorem created_entities_never_collide requests f :
  customIdGenerator f = None →
  (Z.of_nat (idCounter f) + Z.of_nat (length requests) ≤ max_safe_counter)%Z →
  Forall (λ r, ordinary (VObj (r_components r)) = true) requests →
  let '(err, f', m) := createAll requests f Store.empty in
  Store.consistent m ∧
  (err = None → Store.count m = length requests).
Proof.
  intros Hg Hroom _.
  pose proof (createAll_ok requests f Store.empty Hg Hroom
                (conj consistent_empty keyed_empty)) as H.
  destruct (createAll requests f Store.empty) as [[err f'] m].
  destruct H as ([Hc _] & _ & Hsize).
  - intros i e. simpl. by rewrite lookup_empty.
  - split; [done|]. intros Herr. unfold Store.count. rewrite (Hsize Herr). simpl.
    by rewrite map_size_empty.
Qed.

End SetupFacts.

(** ** Template chains *)

Section ChainFacts.
Import Factory.

Lemma resolveTemplate_more_fuel f fuel : ∀ t r,
  resolveTemplate fuel f t = Some r → resolveTemplate (S fuel) f t = Some r.
Proof.
  induction fuel as [|fuel IH]; intros t r.
  - simpl. destruct (extends t) as [p|]; [|done].
    by destruct (templates f !! p).
  - intros Hr. remember (S fuel) as n eqn:Hn.
    simpl. rewrite Hn in Hr. simpl in Hr.
    destruct (extends t) as [p|]; [|done].
    destruct (templates f !! p) as [parent|]; [|done].
    destruct (resolveTemplate fuel f parent) as [rp|] eqn:Hp; [|done].
    by rewrite (IH _ _ Hp).
Qed.

Lemma resolveTemplate_insert f fuel i tn : ∀ j t,
  closed f → templates f !! i = None → templates f !! j = Some t →
  resolveTemplate fuel (with_templates (<[i := tn]> (templates f)) f) t
  = resolveTemplate fuel f t.
Proof.
  induction fuel as [|fuel IH]; intros j t Hcl Hi Hj; simpl.
  - destruct (extends t) as [p|] eqn:Hp; [|done].
    destruct (Hcl _ _ _ Hj Hp) as [parent Hparent].
    rewrite lookup_insert_ne by congruence. done.
  - destruct (extends t) as [p|] eqn:Hp; [|done].
    destruct (Hcl _ _ _ Hj Hp) as [parent Hparent].
    rewrite lookup_insert_ne by congruence. rewrite Hparent.
    by rewrite (IH p parent).
Qed.

Lemma is_Some_more_fuel f fuel t :
  is_Some (resolveTemplate fuel f t) → is_Some (resolveTemplate (S fuel) f t).
Proof. intros [r Hr]. exists r. by apply resolveTemplate_more_fuel. Qed.

Lemma registerTemplate_grounded n t f f' :
  templates f !! t_id t = None →
  registerTemplate t f = Returned tt f' →
  grounded n f → grounded (S n) f'.
Proof.
  intros Hfresh Hreg (Hcl & Hsize & Hres).
  assert (f' = with_templates (<[t_id t := t]> (templates f)) f ∧
          (∀ p, extends t = Some p → is_Some (templates f !! p))) as [-> Hparent].
  { unfold registerTemplate in Hreg.
    destruct (String.eqb (t_id t) ""); [done|].
    destruct (String.eqb (t_type t) ""); [done|].
    destruct (extends t) as [p|].
    - destruct (templates f !! p) eqn:Hp; [|done].
      injection Hreg as <-. split; [done|]. intros ? [= <-]. by rewrite Hp.
    - injection Hreg as <-. split; done. }
  split; [|split].
  - intros i t' p. simpl. destruct (decide (t_id t = i)) as [<-|Hne].
    + rewrite lookup_insert_eq. intros [= <-] Hp.
      destruct (Hparent _ Hp) as [parent Hpar].
      rewrite lookup_insert_ne by congruence. by exists parent.
    + rewrite lookup_insert_ne by done. intros Hi Hp.
      destruct (Hcl _ _ _ Hi Hp) as [parent Hpar].
      rewrite lookup_insert_ne by congruence. by exists parent.
  - simpl. rewrite map_size_insert_None by done. lia.
  - intros i t' Hi. simpl in Hi. destruct (decide (t_id t = i)) as [<-|Hne].
    + rewrite lookup_insert_eq in Hi. injection Hi as <-. simpl.
      destruct (extends t) as [p|] eqn:Hp; [|by eexists].
      destruct (Hparent _ eq_refl) as [parent Hpar].
      rewrite lookup_insert_ne by congruence. rewrite Hpar.
      rewrite (resolveTemplate_insert f n (t_id t) t p parent) by done.
      destruct (Hres _ _ Hpar) as [[e|rp] ->]; [by eexists|].
      destruct (mergeComponents _ _); by eexists.
    + rewrite lookup_insert_ne in Hi by done. apply is_Some_more_fuel.
      rewrite (resolveTemplate_insert f n (t_id t) t i t') by done. by apply (Hres i).
Qed.

Lemma registerAll_grounded ts : ∀ n f f',
  NoDup (map t_id ts) → (∀ t, t ∈ ts → templates f !! t_id t = None) →
  registerAll ts f = Returned tt f' →
  grounded n f → grounded (n + length ts) f'.
Proof.
  induction ts as [|t ts IH]; intros n f f' Hnd Hfresh; simpl.
  - intros [= <-]. by rewrite Nat.add_0_r.
  - apply NoDup_cons in Hnd as [Ht Hnd].
    destruct (registerTemplate t f) as [[] f1|err f1] eqn:Hreg; [|done].
    intros Hall Hg. replace (n + S (length ts))%nat with (S n + length ts)%nat by lia.
    apply (IH (S n) f1 f'); try done.
    + intros t' Hin.
      assert (templates f1 = <[t_id t := t]> (templates f)) as ->.
      { unfold registerTemplate in Hreg.
        destruct (String.eqb (t_id t) ""); [done|].
        destruct (String.eqb (t_type t) ""); [done|].
        destruct (extends t) as [p|]; [destruct (templates f !! p)|];
          try done; by injection Hreg as <-. }
      rewrite lookup_insert_ne.
      * apply Hfresh. by right.
      * intros Heq. apply Ht. rewrite Heq. apply list_elem_of_fmap. by exists t'.
    + eapply registerTemplate_grounded; [|exact Hreg|done]. apply Hfresh. by left.
Qed.

(** When the templates are registered one by one with [registerTemplate]
    and no id is used twice, every chain of [extends] is finite:
    [createFromTemplate] on any id returns or throws, with as much fuel
    as there are templates. *)
Theorem createFromTemplate_ends ts registry f now templateId overrides :
  NoDup (map t_id ts) →
  registerAll ts (new registry) = Returned tt f →
  is_Some (createFromTemplate (length ts) now templateId overrides f).
Proof.
  intros Hnd Hall.
  assert (grounded (0 + length ts) f) as (_ & _ & Hres).
  { apply (registerAll_grounded ts 0 (new registry)); [done| |done|].
    - intros t _. apply lookup_empty.
    - split; [|split].
      + intros i t p. simpl. by rewrite lookup_empty.
      + simpl. by rewrite map_size_empty.
      + intros i t. simpl. by rewrite lookup_empty. }
  simpl in Hres. unfold createFromTemplate.
  destruct (templates f !! templateId) as [t|] eqn:Ht; [|by eexists].
  destruct (Hres _ _ Ht) as [[e|resolved] ->]; [by eexists|].
  destruct (match nonempty (overrides ≫= p_id) with
            | Some i => (i, f)
            | None => generateId now f
            end) as [newId f1].
  destruct (overrides ≫= p_components) as [oc|]; [|by eexists].
  destruct (mergeComponents _ oc); by eexists.
Qed.

(** Registering a template again, this time as an extension of itself,
    is accepted; from then on the recursion of [resolveTemplate] on it
    does not end, whatever the fuel. *)
Theorem self_extending_template_never_resolves t f fuel now overrides :
  t_id t ≠ "" → t_type t ≠ "" → t_extends t = Some (t_id t) →
  is_Some (templates f !! t_id t) →
  ∃ f', registerTemplate t f = Returned tt f' ∧
        createFromTemplate fuel now (t_id t) overrides f' = None.
Proof.
  intros Hid Hty Hext [old Hold].
  assert (extends t = Some (t_id t)) as Hex.
  { unfold extends. rewrite Hext. by destruct (String.eqb_spec (t_id t) ""). }
  eexists. split.
  - unfold registerTemplate.
    destruct (String.eqb_spec (t_id t) ""); [done|].
    destruct (String.eqb_spec (t_type t) ""); [done|].
    by rewrite Hex, Hold.
  - unfold createFromTemplate. simpl. rewrite lookup_insert_eq.
    assert (∀ n, resolveTemplate n
              (with_templates (<[t_id t := t]> (templates f)) f) t = None) as ->; [|done].
    induction n as [|n IH]; simpl; rewrite Hex, lookup_insert_eq; [done|].
    by rewrite IH.
Qed.

End ChainFacts.

Section SetupExamples.
Import Factory.

Lemma created_entities_never_collide_witness :
  let '(err, f', m) :=
    createAll [mkRequest 5 "realm" [("identity", VObj [("name", VStr "North")])];
               mkRequest 5 "city" [("position", VObj [("realm", VStr "North")])]]
              (new None) Store.empty in
  Store.consistent m ∧ (err = None → Store.count m = 2%nat).
Proof.
  apply (created_entities_never_collide
           [mkRequest 5 "realm" [("identity", VObj [("name", VStr "North")])];
            mkRequest 5 "city" [("position", VObj [("realm", VStr "North")])]]
           (new None)).
  - reflexivity.
  - vm_compute. discriminate.
  - repeat constructor.
Defined.

Lemma createFromTemplate_ends_witness :
  is_Some (createFromTemplate 2 0 "guard" None garrison).
Proof.
  apply (createFromTemplate_ends [villager; guard] None garrison 0 "guard" None).
  - repeat (apply NoDup_cons; split;
            [intros Hin; repeat (apply elem_of_cons in Hin as [Hin|Hin]; [discriminate|]);
             by apply elem_of_nil in Hin|]).
    apply NoDup_nil. done.
  - reflexivity.
Defined.

Lemma self_extending_template_never_resolves_witness :
  ∃ f', registerTemplate (mkTemplate "villager" "npc" None (Some "villager") []) garrison
          = Returned tt f' ∧
        createFromTemplate 100 0 "villager" None f' = None.
Proof.
  apply (self_extending_template_never_resolves
           (mkTemplate "villager" "npc" None (Some "villager") []) garrison 100 0 None).
  - discriminate.
  - discriminate.
  - reflexivity.
  - by eexists.
Defined.

End SetupExamples.

(** ** The type registry *)

Section RegistryFacts.
Import Registry.

Lemma both_nil a b : both a b = Errors [] → a = Errors [] ∧ b = Errors [].
Proof.
  destruct a as [e1| |]; simpl; try done.
  destruct b as [e2| |]; try done.
  intros [= Heq]. apply app_eq_nil in Heq as [-> ->]. done.
Qed.

Lemma flat_map_nil {A B} (f : A → list B) l :
  flat_map f l = [] → ∀ a, a ∈ l → f a = [].
Proof.
  induction l as [|x l IH]; simpl; intros Heq a Ha; [by apply elem_of_nil in Ha|].
  apply app_eq_nil in Heq as [Hx Hl].
  apply elem_of_cons in Ha as [->|Ha]; [done|by apply IH].
Qed.

Lemma read_own name fs v : assoc name fs = Some v → read name fs = Own v.
Proof. unfold read. by intros ->. Qed.

Lemma validateSchemas_nil schemas components name schema v :
  validateSchemas schemas components = Errors [] →
  (name, schema) ∈ schemas → assoc name components = Some v → truthy v = true →
  validateComponent v schema (dot "components" name) = Errors [].
Proof.
  induction schemas as [|[n s] rest IH]; intros Hv Hin Hc Ht;
    [by apply elem_of_nil in Hin|].
  simpl in Hv. apply both_nil in Hv as [Hthis Hrest].
  apply elem_of_cons in Hin as [[= <- <-]|Hin]; [|by apply IH].
  by rewrite (read_own _ _ _ Hc), Ht in Hthis.
Qed.

(** An entity that [validate] finds valid has an id and a type, its type
    is registered, it has every required component of the type, and each
    of its components that is truthy and has a schema is of the schema's
    type. *)
Theorem valid_entity_meets_its_type entity r :
  valid (validate entity r) = true →
  id entity ≠ "" ∧ type entity ≠ "" ∧
  ∃ typeDef required,
    types r !! type entity = Some typeDef ∧
    td_requiredComponents typeDef = Some required ∧
    (∀ name, name ∈ required → Store.has_in name (components entity) = true) ∧
    (∀ schemas name schema v,
       td_componentSchemas typeDef = Some schemas → (name, schema) ∈ schemas →
       assoc name (components entity) = Some v → truthy v = true →
       type_differs (cs_type schema) (actual_type v) = false).
Proof.
  intros Hvalid.
  assert (validate entity r = Errors []) as Hv.
  { destruct (validate entity r) as [[|]| |]; done. }
  clear Hvalid. unfold validate in Hv.
  destruct (types r !! type entity) as [typeDef|] eqn:Hdef.
  2: { injection Hv as Hv. apply app_eq_nil in Hv as [_ Hv]. done. }
  destruct (td_requiredComponents typeDef) as [required|] eqn:Hreq; [|done].
  apply both_nil in Hv as [Hfirst Hschemas]. injection Hfirst as Hfirst.
  apply app_eq_nil in Hfirst as [Hident Hrequired].
  apply app_eq_nil in Hident as [Hid Hty].
  split; [by destruct (String.eqb_spec (id entity) "")|].
  split; [by destruct (String.eqb_spec (type entity) "")|].
  exists typeDef, required. repeat split; try done.
  - intros name Hin. pose proof (flat_map_nil _ _ Hrequired name Hin) as Hn.
    simpl in Hn. by destruct (Store.has_in name (components entity)).
  - intros schemas name schema v Hs Hin Hc Ht. rewrite Hs in Hschemas.
    pose proof (validateSchemas_nil _ _ _ _ _ Hschemas Hin Hc Ht) as Hcomp.
    unfold validateComponent in Hcomp.
    by destruct (type_differs (cs_type schema) (actual_type v)).
Qed.

Lemma validateSchemas_falsy schemas components :
  (∀ name schema, (name, schema) ∈ schemas →
     (name ∉ Store.object_prototype) ∧
     truthy (default VUndefined (assoc name components)) = false) →
  validateSchemas schemas components = Errors [].
Proof.
  induction schemas as [|[n s] rest IH]; intros Hf; simpl; [done|].
  rewrite IH by (intros name schema Hin; apply (Hf name schema); by right).
  destruct (Hf n s) as [Hn Ht]; [by left|].
  unfold read. destruct (assoc n components) as [v|]; simpl in *.
  - by rewrite Ht.
  - by rewrite bool_decide_false.
Qed.

(** A component that is [null], or falsy in another way, is never held
    against its schema, required or not: an entity that has an id, a
    registered type and a key for every required component is valid as
    soon as every component with a schema is absent or falsy. *)
Theorem falsy_components_pass_every_schema entity r typeDef required :
  id entity ≠ "" → type entity ≠ "" →
  types r !! type entity = Some typeDef →
  td_requiredComponents typeDef = Some required →
  (∀ name, name ∈ required → name ∈ keys (components entity)) →
  (∀ schemas name schema,
     td_componentSchemas typeDef = Some schemas → (name, schema) ∈ schemas →
     (name ∉ Store.object_prototype) ∧
     truthy (default VUndefined (assoc name (components entity))) = false) →
  validate entity r = Errors [].
Proof.
  intros Hid Hty Hdef Hreq Hkeys Hfalsy. unfold validate. rewrite Hdef, Hreq.
  destruct (String.eqb_spec (id entity) ""); [done|].
  destruct (String.eqb_spec (type entity) ""); [done|]. simpl.
  assert (flat_map (λ requiredComponent,
                      if Store.has_in requiredComponent (components entity) then []
                      else [mkError (dot "components" requiredComponent)
                                    (ComponentMissing requiredComponent)]) required = [])
    as ->.
  { clear Hreq. induction required as [|c cs IH]; simpl; [done|].
    rewrite IH by (intros name Hin; apply Hkeys; by right).
    unfold Store.has_in. rewrite bool_decide_true by (apply Hkeys; by left). done. }
  destruct (td_componentSchemas typeDef) as [schemas|]; [|done].
  rewrite validateSchemas_falsy; [done|]. intros name schema. by apply (Hfalsy schemas).
Qed.

End RegistryFacts.

Section RegistryExamples.
Import Registry.

Lemma valid_entity_meets_its_type_witness :
  id hale ≠ "" ∧ type hale ≠ "" ∧
  ∃ typeDef required,
    types census !! type hale = Some typeDef ∧
    td_requiredComponents typeDef = Some required ∧
    (∀ name, name ∈ required → Store.has_in name (components hale) = true) ∧
    (∀ schemas name schema v,
       td_componentSchemas typeDef = Some schemas → (name, schema) ∈ schemas →
       assoc name (components hale) = Some v → truthy v = true →
       type_differs (cs_type schema) (actual_type v) = false).
Proof.
  apply (valid_entity_meets_its_type hale census). vm_compute. reflexivity.
Defined.

Lemma falsy_components_pass_every_schema_witness : validate hollow census = Errors [].
Proof.
  apply (falsy_components_pass_every_schema hollow census npc_type ["stats"]).
  - discriminate.
  - discriminate.
  - reflexivity.
  - reflexivity.
  - intros name ->%list_elem_of_singleton. by left.
  - intros schemas name schema [= <-] [= -> ->]%list_elem_of_singleton.
    split; [|reflexivity].
    intros Hin. repeat (apply elem_of_cons in Hin as [Hin|Hin]; [discriminate|]).
    by apply elem_of_nil in Hin.
Defined.

End RegistryExamples.

Section OpenWorld.
Import Registry.

Lemma assoc_app_other name (v : value) c fs :
  c ≠ name → assoc c (fs ++ [(name, v)]) = assoc c fs.
Proof.
  intros Hne. induction fs as [|[k x] fs IH]; simpl.
  - by destruct (String.eqb_spec c name).
  - by destruct (String.eqb c k).
Qed.

Lemma has_in_app name (v : value) c fs :
  Store.has_in c fs = true → Store.has_in c (fs ++ [(name, v)]) = true.
Proof.
  unfold Store.has_in. intros [Hk|Hp]%orb_true_iff; apply orb_true_iff; [left|by right].
  apply bool_decide_eq_true in Hk. apply bool_decide_eq_true.
  unfold keys in *. rewrite map_app. apply elem_of_app. by left.
Qed.

Lemma validateSchemas_app schemas name (v : value) fs :
  name ∉ map fst schemas →
  validateSchemas schemas (fs ++ [(name, v)]) = validateSchemas schemas fs.
Proof.
  induction schemas as [|[c s] rest IH]; simpl; intros Hn; [done|].
  apply not_elem_of_cons in Hn as [Hc Hn]. rewrite (IH Hn).
  unfold read. by rewrite assoc_app_other by done.
Qed.

(** [validate] never consults [optionalComponents]: a valid entity stays
    valid when it is given one more component, of any value, for which
    its type has no schema. *)
Theorem unlisted_components_are_accepted entity r typeDef name v :
  validate entity r = Errors [] →
  types r !! type entity = Some typeDef →
  name ∉ map fst (default [] (td_componentSchemas typeDef)) →
  validate (mkEntity (id entity) (type entity) (components entity ++ [(name, v)])) r
  = Errors [].
Proof.
  unfold validate. cbn [id type components]. intros Hv Hdef Hn. rewrite Hdef in *.
  destruct (td_requiredComponents typeDef) as [required|]; [|done].
  apply both_nil in Hv as [Hfirst Hschemas]. injection Hfirst as Hfirst.
  apply app_eq_nil in Hfirst as [-> Hrequired].
  assert (flat_map (λ requiredComponent,
            if Store.has_in requiredComponent (components entity ++ [(name, v)]) then []
            else [mkError (dot "components" requiredComponent)
                          (ComponentMissing requiredComponent)]) required = []) as ->.
  { pose proof (flat_map_nil _ _ Hrequired) as Hall. clear Hrequired.
    induction required as [|c cs IH]; simpl; [done|].
    rewrite IH by (intros a Ha; apply Hall; by right).
    specialize (Hall c ltac:(by left)). simpl in Hall.
    destruct (Store.has_in c (components entity)) eqn:Hc; [|done].
    by rewrite has_in_app. }
  destruct (td_componentSchemas typeDef) as [schemas|]; [|done]. simpl in Hn.
  by rewrite validateSchemas_app, Hschemas.
Qed.

End OpenWorld.

Section OpenWorldExample.
Import Registry.

Lemma unlisted_components_are_accepted_witness :
  validate (mkEntity (id hale) (type hale)
              (components hale ++ [("wings", VObj [("span", VNum 3)])])) census
  = Errors [].
Proof.
  apply (unlisted_components_are_accepted hale census npc_type "wings"
           (VObj [("span", VNum 3)])).
  - vm_compute. reflexivity.
  - reflexivity.
  - simpl. intros Hin. repeat (apply elem_of_cons in Hin as [Hin|Hin]; [discriminate|]).
    by apply elem_of_nil in Hin.
Defined.

End OpenWorldExample.

(** ** Index keys that outlive their entities *)

Section IndexKeys.
Import Store.

Lemma index_add_keeps k i (idx : Index) : dom idx ⊆ dom (index_add k i idx).
Proof. unfold index_add. rewrite dom_insert. set_solver. Qed.

Lemma index_delete_keeps k i (idx : Index) : dom idx ⊆ dom (index_delete k i idx).
Proof.
  unfold index_delete. destruct (idx !! k) eqn:Hk; [|done].
  rewrite dom_insert. set_solver.
Qed.

Lemma index_opt_keeps f k i (idx : Index) :
  (∀ k i idx, dom idx ⊆ dom (f k i idx)) → dom idx ⊆ dom (index_opt f k i idx).
Proof. intros Hf. destruct k; simpl; [apply Hf|done]. Qed.

Lemma index_fold_keeps (f : string → string → Index → Index) i cs : ∀ idx : Index,
  (∀ k i idx, dom idx ⊆ dom (f k i idx)) →
  dom idx ⊆ dom (fold_left (λ idx c, f c i idx) cs idx).
Proof.
  induction cs as [|c cs IH]; intros idx Hf; simpl; [done|].
  etrans; [apply (Hf c i)|by apply IH].
Qed.

(** The keys of the four indices from one store to a later one. *)
Lemma keys_kept_trans (m1 m2 m3 : EntityManager) :
  dom (byType m1) ⊆ dom (byType m2) ∧ dom (byRealm m1) ⊆ dom (byRealm m2) ∧
  dom (byCity m1) ⊆ dom (byCity m2) ∧ dom (byComponent m1) ⊆ dom (byComponent m2) →
  dom (byType m2) ⊆ dom (byType m3) ∧ dom (byRealm m2) ⊆ dom (byRealm m3) ∧
  dom (byCity m2) ⊆ dom (byCity m3) ∧ dom (byComponent m2) ⊆ dom (byComponent m3) →
  dom (byType m1) ⊆ dom (byType m3) ∧ dom (byRealm m1) ⊆ dom (byRealm m3) ∧
  dom (byCity m1) ⊆ dom (byCity m3) ∧ dom (byComponent m1) ⊆ dom (byComponent m3).
Proof. intros (?&?&?&?) (?&?&?&?). repeat split; etrans; eassumption. Qed.

Lemma updateIndices_keeps e m :
  dom (byType m) ⊆ dom (byType (updateIndices e m)) ∧
  dom (byRealm m) ⊆ dom (byRealm (updateIndices e m)) ∧
  dom (byCity m) ⊆ dom (byCity (updateIndices e m)) ∧
  dom (byComponent m) ⊆ dom (byComponent (updateIndices e m)).
Proof.
  simpl. repeat split.
  - apply index_add_keeps.
  - apply index_opt_keeps, index_add_keeps.
  - apply index_opt_keeps, index_add_keeps.
  - apply (index_fold_keeps index_add), index_add_keeps.
Qed.

Lemma removeFromIndices_keeps e m :
  dom (byType m) ⊆ dom (byType (removeFromIndices e m)) ∧
  dom (byRealm m) ⊆ dom (byRealm (removeFromIndices e m)) ∧
  dom (byCity m) ⊆ dom (byCity (removeFromIndices e m)) ∧
  dom (byComponent m) ⊆ dom (byComponent (removeFromIndices e m)).
Proof.
  simpl. repeat split.
  - apply index_delete_keeps.
  - apply index_opt_keeps, index_delete_keeps.
  - apply index_opt_keeps, index_delete_keeps.
  - apply (index_fold_keeps index_delete), index_delete_keeps.
Qed.

Lemma step_keeps m o :
  dom (byType m) ⊆ dom (byType (step m o)) ∧
  dom (byRealm m) ⊆ dom (byRealm (step m o)) ∧
  dom (byCity m) ⊆ dom (byCity (step m o)) ∧
  dom (byComponent m) ⊆ dom (byComponent (step m o)).
Proof.
  destruct o as [e|i u|i]; unfold step.
  - apply (updateIndices_keeps e (set_entity (id e) e m)).
  - unfold update. destruct (entities m !! i) as [e|]; cbn [fst]; [|done].
    exact (keys_kept_trans m (removeFromIndices e m) _ (removeFromIndices_keeps e m)
             (updateIndices_keeps (assign e u)
                (set_entity i (assign e u) (removeFromIndices e m)))).
  - unfold remove. destruct (entities m !! i) as [e|]; cbn [fst]; [|done].
    apply (removeFromIndices_keeps e m).
Qed.

Lemma run_keeps ops : ∀ m,
  dom (byType m) ⊆ dom (byType (run ops m)) ∧
  dom (byRealm m) ⊆ dom (byRealm (run ops m)) ∧
  dom (byCity m) ⊆ dom (byCity (run ops m)) ∧
  dom (byComponent m) ⊆ dom (byComponent (run ops m)).
Proof.
  induction ops as [|o ops IH]; intros m; [done|].
  apply (keys_kept_trans m (step m o)); [apply step_keeps|apply IH].
Qed.

Lemma types_listed t m : t ∈ (types (getStats m)).*1 ↔ t ∈ dom (byType m).
Proof.
  unfold getStats. simpl. rewrite elem_of_dom. split.
  - intros Hin. apply list_elem_of_fmap in Hin as (kv & -> & Hin).
    apply list_elem_of_fmap in Hin as ([k s] & -> & Hin).
    apply elem_of_map_to_list in Hin. by exists s.
  - intros [s Hs]. apply list_elem_of_fmap. exists (t, size s). split; [done|].
    apply list_elem_of_fmap. exists (t, s). split; [done|].
    by apply elem_of_map_to_list.
Qed.

(** The counts that [getStats] reports for the indices never go down
    under [add], [update] and [remove]: a type, realm, city or component
    name that was indexed once keeps its entry after its last entity is
    gone, so it is still counted, and a type is still listed. *)
Theorem stats_count_keys_ever_indexed ops m :
  (realms (getStats m) ≤ realms (getStats (run ops m)))%nat ∧
  (cities (getStats m) ≤ cities (getStats (run ops m)))%nat ∧
  (indexedComponents (getStats m) ≤ indexedComponents (getStats (run ops m)))%nat ∧
  (∀ t, t ∈ (types (getStats m)).*1 → t ∈ (types (getStats (run ops m))).*1).
Proof.
  destruct (run_keeps ops m) as (Ht & Hr & Hc & Hk).
  split; [|split; [|split]].
  - unfold getStats. simpl. rewrite <- !size_dom. by apply subseteq_size.
  - unfold getStats. simpl. rewrite <- !size_dom. by apply subseteq_size.
  - unfold getStats. simpl. rewrite <- !size_dom. by apply subseteq_size.
  - intros t. rewrite !types_listed. apply Ht.
Qed.

End IndexKeys.

(** ** Disabled Systems *)

Section DisabledFacts.
Import Scheduler.
Context {Ctx W : Type}.
Variable perf_now : W → Z.

Lemma count_not_due name tick (m : list (string * @SystemRegistration Ctx W)) :
  (∀ kr, kr ∈ m → name_of kr = name → isEnabled (system (snd kr)) = false) →
  List.filter (String.eqb name) (due_names tick m) = [].
Proof.
  intros Hoff. unfold due_names.
  induction phases as [|ph phs IH]; [done|].
  simpl. rewrite List.filter_app, IH, app_nil_r. clear IH.
  induction m as [|a m IH]; [done|]. simpl.
  assert (∀ kr, kr ∈ m → name_of kr = name → isEnabled (system (snd kr)) = false)
    as Hm by (intros kr Hin; apply Hoff; by right).
  destruct (phase_eqb (phase (snd a)) ph && due tick a) eqn:Hq; simpl; [|by apply IH].
  apply andb_prop in Hq as [_ Hd]. unfold due in Hd. apply andb_prop in Hd as [Hen _].
  destruct (String.eqb_spec name (getName (system (snd a)))) as [Heq|_]; [|by apply IH].
  rewrite (Hoff a) in Hen; [done|by left|done].
Qed.

Lemma disable_switches_off name (m : list (string * @SystemRegistration Ctx W)) :
  Forall (λ kr, fst kr = name_of kr) m →
  ∀ kr, kr ∈ map_alter (set_enabled false) name m → name_of kr = name →
        isEnabled (system (snd kr)) = false.
Proof.
  intros Hkeys kr Hin Hname. unfold map_alter in Hin.
  apply list_elem_of_fmap in Hin as (kr0 & -> & Hin0).
  rewrite Forall_forall in Hkeys. specialize (Hkeys kr0 Hin0).
  destruct (String.eqb_spec name (fst kr0)) as [_|Hne]; [done|].
  exfalso. apply Hne. by rewrite Hkeys.
Qed.

(** After [disable(name)] the System of that name is left out of every
    tick: however many updates follow, its [update] is not called. The
    Systems are registered under their own names, as [register] does. *)
Theorem disabled_system_is_not_updated contexts (st : @State Ctx W) name :
  Forall (λ kr, fst kr = name_of kr) (systems st) →
  ∃ st', updates perf_now contexts (disable name st) = Normal st' ∧
    times_updated name st' = times_updated name st.
Proof.
  intros Hkeys.
  assert (∃ st', updates perf_now contexts (disable name st) = Normal st' ∧
            same_systems (systems (disable name st)) (systems st') ∧
            times_updated name st' = times_updated name st)
    as (st' & ? & _ & ?); [|by exists st'].
  induction contexts as [|context contexts IH] using rev_ind.
  - exists (disable name st). split; [done|]. split; [apply same_systems_refl|done].
  - destruct IH as (st1 & Hu & Hs1 & Hcount).
    rewrite updates_snoc, Hu. simpl.
    destruct (updateAll_returns perf_now context st1) as (st2 & -> & _ & Hs2 & Hc2).
    exists st2. split; [done|]. split; [eapply same_systems_trans; eassumption|].
    unfold times_updated in *. rewrite Hc2, List.filter_app, length_app, Hcount.
    rewrite <- (due_names_same_systems _ _ _ Hs1), count_not_due; [simpl; lia|].
    by apply disable_switches_off.
Qed.

End DisabledFacts.

Section DisabledExample.
Import Scheduler World.

Lemma disabled_system_is_not_updated_witness :
  ∃ st', updates (λ w : Z, w) seven_ticks (disable "Slow" paced) = Normal st' ∧
    times_updated "Slow" st' = times_updated "Slow" paced.
Proof.
  apply (disabled_system_is_not_updated (λ w : Z, w) seven_ticks paced "Slow").
  repeat constructor.
Defined.

End DisabledExample.

(** *** The temporary subscription of [executeCommand] *)

Section CommandFacts.
Import Bus.

Variable handlers : nat → GameEvent → list Action.

Lemma fires_before_NoDup subs : StronglySorted fires_before subs → NoDup subs.
Proof.
  induction 1 as [|x l Hl IH Hx]; constructor; [|done].
  intros Hin. rewrite Forall_forall in Hx. specialize (Hx x Hin).
  unfold fires_before in Hx. lia.
Qed.

Lemma live_bus_step f t sub m :
  bus_step f → live t sub (with_bus f m) → live t sub m.
Proof.
  assert (∀ p t0, live t sub (with_bus (splice_where p t0) m) → live t sub m) as Hsplice.
  { intros p t0 (subs' & Hs & Hin). unfold with_bus, splice_where in Hs. simpl in Hs.
    destruct (subscriptions (bus m) !! t0) as [subs|] eqn:Hl; simpl in Hs; [|by exists subs'].
    destruct (decide (t0 = t)) as [<-|Hne].
    - rewrite lookup_insert_eq in Hs. injection Hs as <-. exists subs. split; [done|].
      eapply elem_of_sublist; [exact Hin|apply remove_first_sublist].
    - rewrite lookup_insert_ne in Hs by done. by exists subs'. }
  intros [t0 cb|t0 ref| | |event]; try apply Hsplice.
  - intros (subs & Hs & _). simpl in Hs. by rewrite lookup_empty in Hs.
  - done.
  - done.
Qed.

(** The Subscription object of identity [ref] is [c], and it sits, if
    anywhere, in the array of the event type [t0]; this stays so whatever
    an emit sets off, because every object made later has a later
    identity. *)
Lemma emit_keeps_identity ref t0 c fuel k t data source m m' :
  emit fuel handlers k t data source m = Some m' →
  well_ordered m ∧ (ref < allocated m)%nat ∧
    (∀ t1 sub, live t1 sub m → sub_ref sub = ref → t1 = t0 ∧ sub = c) →
  well_ordered m' ∧ (ref < allocated m')%nat ∧
    (∀ t1 sub, live t1 sub m' → sub_ref sub = ref → t1 = t0 ∧ sub = c).
Proof.
  apply (emit_R handlers (λ _ m m',
    well_ordered m ∧ (ref < allocated m)%nat ∧
      (∀ t1 sub, live t1 sub m → sub_ref sub = ref → t1 = t0 ∧ sub = c) →
    well_ordered m' ∧ (ref < allocated m')%nat ∧
      (∀ t1 sub, live t1 sub m' → sub_ref sub = ref → t1 = t0 ∧ sub = c))); auto.
  - intros _ o t' cb p m0 (Hw & Ha & Hl). split; [by apply well_ordered_register|].
    split; [simpl; lia|].
    intros t1 sub Hlive Href. apply live_register in Hlive as [[_ ->]|Hlive].
    + simpl in Href. lia.
    + by apply Hl.
  - intros _ f m0 Hf (Hw & Ha & Hl). split; [by apply well_ordered_bus_step|].
    split; [done|]. intros t1 sub Hlive. apply Hl. by apply (live_bus_step f).
Qed.

(** [executeCommand] leaves no subscription behind. On a bus reached by
    any program, and whatever the subscribers of ["command:executed"] do
    (further emits, subscribing, unsubscribing, [clear()], exceptions),
    the Subscription object that [executeCommand] creates is in no array
    when it returns. *)
Theorem executeCommand_leaves_no_subscription fuel0 program now o fuel command r m' :
  exec fuel0 handlers program (boot now) = Some o →
  executeCommand fuel handlers command (state_of o) = Some (r, m') →
  ∀ t sub, live t sub m' → sub_ref sub ≠ allocated (state_of o).
Proof.
  intros Hexec Hcmd. apply exec_well_ordered in Hexec; [|apply well_ordered_boot].
  set (m := state_of o) in *.
  unfold executeCommand in Hcmd.
  set (m0 := mkMachine (bus m) (allocated m) (clock m) [] (invocations m)) in *.
  set (c := mkSub (allocated m) Collector 0 false).
  assert (well_ordered m0) as Hw0 by exact Hexec.
  destruct (subscribe "*" Collector 0 m0) as [ref m1] eqn:Hsub.
  assert (ref = allocated m ∧ m1 = snd (subscribe "*" Collector 0 m0)) as [-> Hm1].
  { rewrite Hsub. split; [|done]. by injection Hsub as <- _. }
  destruct (emit fuel handlers 0 "command:executed" command None m1) as [m2|] eqn:He; [|done].
  injection Hcmd as _ <-.
  apply (emit_keeps_identity (allocated m) "*" c) in He as (Hw2 & _ & Hl2).
  - intros t sub (subs' & Hs & Hin) Href.
    unfold with_bus, cancel, splice_where in Hs. simpl in Hs.
    destruct (subscriptions (bus m2) !! "*") as [subs|] eqn:Hstar; simpl in Hs.
    + destruct (decide ("*" = t)) as [<-|Hne].
      * rewrite lookup_insert_eq in Hs. injection Hs as <-.
        assert (sub ∈ subs) as Hin2
          by (eapply elem_of_sublist; [exact Hin|apply remove_first_sublist]).
        destruct (Hl2 "*" sub) as [_ ->]; [by exists subs|done|].
        revert Hin. apply remove_first_gone.
        -- apply fires_before_NoDup. by apply (Hw2 "*").
        -- simpl. apply Nat.eqb_refl.
        -- intros s' Hs' Hp. apply Nat.eqb_eq in Hp.
           apply (Hl2 "*" s'); [by exists subs|done].
      * rewrite lookup_insert_ne in Hs by done.
        destruct (Hl2 t sub) as [-> _]; [by exists subs'|done|done].
    + destruct (Hl2 t sub) as [-> _]; [by exists subs'|done|].
      rewrite Hstar in Hs. done.
  - subst m1. split; [by apply well_ordered_register|]. split; [simpl; lia|].
    intros t1 sub Hlive Href. apply live_register in Hlive as [[-> ->]|Hlive]; [done|].
    exfalso. destruct Hlive as (subs & Hs & Hin).
    apply Hw0 in Hs as [_ Hf]. rewrite Forall_forall in Hf.
    specialize (Hf sub Hin). simpl in Hf. lia.
Qed.

End CommandFacts.

Section CommandExample.
Import Bus.

Lemma executeCommand_leaves_no_subscription_witness :
  ∃ o r m',
    exec 2 mover [Subscribe "command:executed" 0 0; Subscribe "*" 1 0] (boot 0) = Some o ∧
    executeCommand 2 mover VNull (state_of o) = Some (r, m') ∧
    ∀ t sub, live t sub m' → sub_ref sub ≠ allocated (state_of o).
Proof.
  eexists _, _, _. split; [vm_compute; reflexivity|]. split; [vm_compute; reflexivity|].
  eapply (executeCommand_leaves_no_subscription mover 2
            [Subscribe "command:executed" 0 0; Subscribe "*" 1 0] 0 _ 2 VNull).
  - vm_compute. reflexivity.
  - vm_compute. reflexivity.
Defined.

End CommandExample.

(** ** The id counter at its limit *)

Section CounterLimit.
Import Factory.

Lemma increment_at_limit counter :
  Z.of_nat counter = max_safe_counter → increment counter = counter.
Proof. intros Heq. unfold increment. by rewrite Heq. Qed.

(** At 2^53 the id counter no longer counts: [idCounter++] leaves it
    where it is, and the built-in generator hands out the same id for as
    long as the clock reads the same millisecond, so two entities made in
    a row get one id. *)
Theorem ids_repeat_at_the_counter_limit now ty ty' comps comps' f :
  customIdGenerator f = None → typeRegistry f = None →
  Z.of_nat (idCounter f) = max_safe_counter →
  fst (generateId now (snd (generateId now f))) = fst (generateId now f) ∧
  ∃ e e' f' f'',
    createFromType now ty comps f = Returned e f' ∧
    createFromType now ty' comps' f' = Returned e' f'' ∧
    id e' = id e.
Proof.
  destruct f as [ts reg counter gen n]. simpl. intros -> -> Hc.
  unfold createFromType, generateId, validated. simpl.
  rewrite (increment_at_limit _ Hc). split; [done|].
  by eexists _, _, _, _.
Qed.

End CounterLimit.

Section CounterLimitExample.
Import Factory.

Lemma ids_repeat_at_the_counter_limit_witness :
  fst (generateId 5 (snd (generateId 5
         (setIdCounter (Z.to_nat max_safe_counter) (new None)))))
  = fst (generateId 5 (setIdCounter (Z.to_nat max_safe_counter) (new None))) ∧
  ∃ e e' f' f'',
    createFromType 5 "npc" [] (setIdCounter (Z.to_nat max_safe_counter) (new None))
      = Returned e f' ∧
    createFromType 5 "npc" [] f' = Returned e' f'' ∧
    id e' = id e.
Proof.
  apply (ids_repeat_at_the_counter_limit 5 "npc" "npc" [] []
           (setIdCounter (Z.to_nat max_safe_counter) (new None))).
  - reflexivity.
  - reflexivity.
  - change (Z.of_nat (Z.to_nat max_safe_counter) = max_safe_counter).
    apply Z2Nat.id. unfold max_safe_counter. lia.
Defined.

End CounterLimitExample.
